(** * Logic Simulator: names table, scanner and parser

    A shallow embedding of [final/logsim/names.py], [logsim/scanner.py] and
    [logsim/parse.py], with the properties of the written specification
    stated and proved (or refuted) against it.

    Conventions.
    - A Python [int] is a [Z]; a Python value that may be [None], an [int]
      or a [str] (such as [Symbol.id]) is a [pyval].
    - A Python dictionary is a [gmap].
    - Mutable objects are records threaded through the functions; a method
      [m(self, x)] becomes [m x self], returning the new object when it
      mutates it.
    - An exception that escapes a function is an [exn] in the [Result]
      monad.
    - The text of a file is the list of characters that Python's text
      mode delivers, one per [read(1)]; a character is a code point below
      256, and the character tests are Python's on these code points. *)

From stdpp Require Import gmap strings list fin_maps.
From Stdlib Require Import ZArith Ascii Lia.

Open Scope Z_scope.

(** ** Python values *)

Inductive pyval : Type :=
| PNone
| PInt (z : Z)
| PStr (s : string).

#[global] Instance pyval_eq_dec : EqDecision pyval.
Proof. solve_decision. Defined.

(** Python [==] between two such values: an [int] never equals a [str] or
    [None]. *)
Definition py_eqb (a b : pyval) : bool := bool_decide (a = b).

(** [x in l] for a Python list [l]. *)
Definition py_in (x : pyval) (l : list pyval) : bool :=
  existsb (py_eqb x) l.

(** ** names.py *)

Module Names.

Record t : Type := mk {
  error_code_count : Z;          (* how many error codes have been declared *)
  id_names : gmap Z string;      (* IDs are keys, name strings are values *)
  names_id : gmap string Z;      (* name strings are keys, IDs are values *)
  num_items : Z                  (* number of names stored *)
}.

(** [Names.__init__] *)
Definition init : t :=
  {| error_code_count := 0; id_names := ∅; names_id := ∅; num_items := 0 |}.

(** [unique_error_codes]: [range(count - n, count)] after the count has
    been advanced by [n]. *)
Definition unique_error_codes (num_error_codes : Z) (self : t) : list Z * t :=
  let count := error_code_count self + num_error_codes in
  (seqZ (count - num_error_codes) num_error_codes,
   {| error_code_count := count; id_names := id_names self;
      names_id := names_id self; num_items := num_items self |}).

(** [query]: [self.names_id.get(name_string, None)] *)
Definition query (name_string : string) (self : t) : option Z :=
  names_id self !! name_string.

(** One iteration of the loop of [lookup]. *)
Definition lookup_one (name_string : string) (self : t) : Z * t :=
  match query name_string self with
  | Some name_id => (name_id, self)
  | None =>
      (num_items self,
       {| error_code_count := error_code_count self;
          id_names := <[num_items self := name_string]> (id_names self);
          names_id := <[name_string := num_items self]> (names_id self);
          num_items := num_items self + 1 |})
  end.

(** [lookup]: the list of IDs of [name_string_list], adding the names
    that are not present. *)
Fixpoint lookup (name_string_list : list string) (self : t) : list Z * t :=
  match name_string_list with
  | [] => ([], self)
  | name_string :: rest =>
      let '(name_id, self1) := lookup_one name_string self in
      let '(names_id_list, self2) := lookup rest self1 in
      (name_id :: names_id_list, self2)
  end.

(** [get_name_string]: [self.id_names.get(name_id, None)].  The keys of
    [id_names] are integers, so any other argument finds nothing. *)
Definition get_name_string (name_id : pyval) (self : t) : option string :=
  match name_id with
  | PInt i => id_names self !! i
  | _ => None
  end.

(** The states a [Names] object goes through: one method call at a
    time, starting from any state. *)
Inductive step : t → t → Prop :=
| step_lookup l self : step self (lookup l self).2
| step_codes n self : step self (unique_error_codes n self).2.

Definition reaches : t → t → Prop := rtc step.

Definition reachable (self : t) : Prop := reaches init self.

(** The two dictionaries mirror each other and every ID is below
    [num_items]. *)
Record wf (self : t) : Prop := {
  wf_names_id : ∀ s i, names_id self !! s = Some i → id_names self !! i = Some s;
  wf_id_names : ∀ i s, id_names self !! i = Some s → names_id self !! s = Some i;
  wf_bound : ∀ i s, id_names self !! i = Some s → i < num_items self
}.

End Names.

(** ** Exceptions *)

Inductive exn : Type :=
| TypeError     (* subscripting [None] *)
| IndexError    (* list or string index out of range *)
| ValueError.   (* [int] of a string that is no decimal numeral, or one
                   that is too long; I/O operation on a closed file *)

(** The outcome of a call: a value, an exception that escapes it, or (for
    the loops of the parser, which are run on a measure of the unread
    input) exhaustion of that measure, which the properties of the parser
    below show never happens. *)
Inductive Result (A : Type) : Type :=
| Ok (a : A)
| Raise (e : exn)
| OutOfFuel.
Arguments Ok {A} a.
Arguments Raise {A} e.
Arguments OutOfFuel {A}.

#[global] Instance Result_ret : MRet Result := fun A a => Ok a.

#[global] Instance Result_bind : MBind Result := fun A B k r =>
  match r with
  | Ok a => k a
  | Raise e => Raise e
  | OutOfFuel => OutOfFuel
  end.

(** [f <$> r]: [f] of the value returned, when one is returned. *)
#[global] Instance Result_fmap : FMap Result := fun A B f r =>
  match r with
  | Ok a => Ok (f a)
  | Raise e => Raise e
  | OutOfFuel => OutOfFuel
  end.

(** ** Characters

    A character of the definition file is a code point below 256, an
    [ascii]; a Python string is a [string] of them.  The tests below are
    Python's [str.isalpha], [str.isdecimal], [str.isdigit],
    [str.isnumeric] and [str.isalnum] on these code points: besides the
    letters and digits of ASCII, the letters of Latin-1 are alphabetic,
    the superscripts 1, 2 and 3 are digits without being decimal, and the
    fractions one quarter, one half and three quarters are numeric. *)

Definition code (c : ascii) : nat := nat_of_ascii c.

Definition between (lo hi : nat) (n : nat) : bool :=
  (lo <=? n)%nat && (n <=? hi)%nat.

Definition isalpha (c : ascii) : bool :=
  let n := code c in
  between 65 90 n || between 97 122 n             (* A-Z, a-z *)
  || (n =? 170)%nat || (n =? 181)%nat || (n =? 186)%nat
  || between 192 214 n || between 216 246 n || between 248 255 n.

Definition isdecimal (c : ascii) : bool := between 48 57 (code c).

Definition isdigit (c : ascii) : bool :=
  let n := code c in
  between 48 57 n                                   (* 0-9 *)
  || between 178 179 n || (n =? 185)%nat.           (* superscripts 2, 3, 1 *)

Definition isnumeric (c : ascii) : bool :=
  isdigit c || between 188 190 (code c).            (* 1/4, 1/2, 3/4 *)

(** [c.isalnum()]: one of [c.isalpha()], [c.isdecimal()], [c.isdigit()]
    or [c.isnumeric()] holds. *)
Definition isalnum (c : ascii) : bool :=
  isalpha c || isdecimal c || isdigit c || isnumeric c.

Definition NL : ascii := "010"%char.
Definition TAB : ascii := "009"%char.

(** The value of a decimal digit, and of a decimal numeral. *)
Definition digit_value (c : ascii) : Z := Z.of_nat (nat_of_ascii c) - 48.

Fixpoint int_of_digits_from (acc : Z) (s : string) : Z :=
  match s with
  | EmptyString => acc
  | String c s' => int_of_digits_from (10 * acc + digit_value c) s'
  end.

Definition int_of_digits (s : string) : Z := int_of_digits_from 0 s.

(** [sys.get_int_max_str_digits()], as Python sets it by default. *)
Definition int_max_str_digits : Z := 4300.

(** [int(s)] for a string [s] of characters that [str.isdigit] accepts,
    which is what the scanner applies it to: the value of [s] when [s] is
    a decimal numeral of at most [int_max_str_digits] digits (leading
    zeros count); [ValueError] when [s] is empty, holds a digit that is
    not decimal, or is longer. *)
Definition int (s : string) : Result Z :=
  if negb (bool_decide (s = ""))
     && forallb isdecimal (String.list_ascii_of_string s)
     && (Z.of_nat (String.length s) <=? int_max_str_digits)
  then Ok (int_of_digits s)
  else Raise ValueError.

Definition string_of_chars (l : list ascii) : string :=
  String.string_of_list_ascii l.

(** [" " * n]: empty when [n] is not positive. *)
Definition spaces (n : Z) : string :=
  string_of_chars (replicate (Z.to_nat n) " "%char).

(** Python list indexing [l[i]]: a negative index counts from the end. *)
Definition py_index {A : Type} (l : list A) (i : Z) : Result A :=
  let n := Z.of_nat (length l) in
  let j := if i <? 0 then i + n else i in
  if (0 <=? j) && (j <? n) then
    match l !! Z.to_nat j with
    | Some x => Ok x
    | None => Raise IndexError
    end
  else Raise IndexError.

(** ** scanner.py *)

Module Symbol.

(** [symbol_type_list = [COMMA, ..., EOF] = range(9)] *)
Inductive kind : Type :=
| COMMA | SEMICOLON | COLON | ARROW | DOT | KEYWORD | NUMBER | NAME | EOF.

#[global] Instance kind_eq_dec : EqDecision kind.
Proof. solve_decision. Defined.

Record t : Type := mk {
  type : option kind;      (* [None] until the scanner sets it *)
  id : pyval;
  line_number : Z;
  position : Z
}.

(** [Symbol.__init__] *)
Definition init : t :=
  {| type := None; id := PNone; line_number := 1; position := 1 |}.

Definition set_type (k : kind) (s : t) : t :=
  {| type := Some k; id := id s;
     line_number := line_number s; position := position s |}.

Definition set_id (v : pyval) (s : t) : t :=
  {| type := type s; id := v;
     line_number := line_number s; position := position s |}.

Definition set_place (line pos : Z) (s : t) : t :=
  {| type := type s; id := id s; line_number := line; position := pos |}.

(** [symbol.type == k] *)
Definition has_type (k : kind) (s : t) : bool := bool_decide (type s = Some k).

End Symbol.

Module Scanner.

Import Symbol.

Definition keywords_list : list string :=
  ["DEVICES"; "CONNECT"; "MONITOR"; "END"; "CLOCK"; "SWITCH"; "AND";
   "NAND"; "OR"; "NOR"; "XOR"; "DTYPE"; "DATA"; "CLK"; "SET"; "CLEAR";
   "Q"; "QBAR"; "I1"; "I2"; "I3"; "I4"; "I5"; "I6"; "I7"; "I8"; "I9";
   "I10"; "I11"; "I12"; "I13"; "I14"; "I15"; "I16"; "SIGGEN"].

Record t : Type := mk {
  names : Names.t;            (* the [Names] object shared with the parser *)
  keyword_ids : list Z;       (* [DEVICES_ID, ..., SIGGEN_ID] *)
  position : Z;
  line_number : Z;
  FILE : list ascii;          (* the characters of the file not yet read *)
  closed : bool;              (* [FILE.close()] has been called *)
  stale_read : bool;          (* a read of the closed file was attempted,
                                 where Python raises [ValueError] *)
  current_character : option ascii;   (* [None] is the empty string *)
  name_string : string;
  lines : list string
}.

(** The keyword IDs, as [__init__] unpacks them from
    [names.lookup(keywords_list)]. *)
Definition kw (n : nat) (self : t) : Z := default 0 (keyword_ids self !! n).
Definition DEVICES_ID := kw 0.
Definition CONNECT_ID := kw 1.
Definition MONITOR_ID := kw 2.
Definition END_ID := kw 3.
Definition CLOCK_ID := kw 4.
Definition SWITCH_ID := kw 5.
Definition AND_ID := kw 6.
Definition NAND_ID := kw 7.
Definition OR_ID := kw 8.
Definition NOR_ID := kw 9.
Definition XOR_ID := kw 10.
Definition DTYPE_ID := kw 11.
Definition DATA_ID := kw 12.
Definition CLK_ID := kw 13.
Definition SET_ID := kw 14.
Definition CLEAR_ID := kw 15.
Definition Q_ID := kw 16.
Definition QBAR_ID := kw 17.
Definition SIGGEN_ID := kw 34.

Definition device_id_list (self : t) : list pyval :=
  PInt <$> [CLOCK_ID self; SWITCH_ID self; AND_ID self; NAND_ID self;
            OR_ID self; NOR_ID self; XOR_ID self; DTYPE_ID self;
            SIGGEN_ID self].

(** Field updates. *)
Definition set_cursor (line pos : Z) (self : t) : t :=
  {| names := names self; keyword_ids := keyword_ids self;
     position := pos; line_number := line; FILE := FILE self;
     closed := closed self; stale_read := stale_read self;
     current_character := current_character self;
     name_string := name_string self; lines := lines self |}.

Definition set_name_string (n : string) (self : t) : t :=
  {| names := names self; keyword_ids := keyword_ids self;
     position := position self; line_number := line_number self;
     FILE := FILE self; closed := closed self;
     stale_read := stale_read self;
     current_character := current_character self;
     name_string := n; lines := lines self |}.

Definition set_names (nm : Names.t) (self : t) : t :=
  {| names := nm; keyword_ids := keyword_ids self;
     position := position self; line_number := line_number self;
     FILE := FILE self; closed := closed self;
     stale_read := stale_read self;
     current_character := current_character self;
     name_string := name_string self; lines := lines self |}.

(** [self.FILE.close()] *)
Definition close (self : t) : t :=
  {| names := names self; keyword_ids := keyword_ids self;
     position := position self; line_number := line_number self;
     FILE := FILE self; closed := true; stale_read := stale_read self;
     current_character := current_character self;
     name_string := name_string self; lines := lines self |}.

(** [advance]: [self.position += 1] and
    [self.current_character = self.FILE.read(1)]; at the end of the file
    [read] returns the empty string. *)
Definition advance (self : t) : t :=
  {| names := names self; keyword_ids := keyword_ids self;
     position := position self + 1; line_number := line_number self;
     FILE := tail (FILE self); closed := closed self;
     stale_read := stale_read self || closed self;
     current_character := head (FILE self);
     name_string := name_string self; lines := lines self |}.

(** [self.current_character == c] *)
Definition at_char (c : ascii) (self : t) : bool :=
  bool_decide (current_character self = Some c).

(** Every loop of the scanner reads a character per iteration and stops
    at the end of the file, so it runs at most [budget self] times. *)
Definition budget (self : t) : nat := S (S (length (FILE self))).

(** [skip_spaces] *)
Fixpoint skip_spaces_loop (fuel : nat) (self : t) : t :=
  match fuel with
  | O => self
  | S fuel' =>
      if at_char " " self || at_char TAB self then
        let self := advance self in
        (* tab is 4 spaces, 1 pos is added in advance, 3 more added here *)
        let self :=
          if at_char TAB self
          then set_cursor (line_number self) (position self + 3) self
          else self in
        skip_spaces_loop fuel' self
      else self
  end.

Definition skip_spaces (self : t) : t := skip_spaces_loop (budget self) self.

(** [get_name]: the run of alphanumeric characters at the cursor. *)
Fixpoint get_name_loop (fuel : nat) (name_str : string) (self : t)
  : string * t :=
  match fuel with
  | O => (name_str, self)
  | S fuel' =>
      match current_character self with
      | Some c =>
          if isalnum c
          then get_name_loop fuel' (name_str +:+ String c EmptyString)
                 (advance self)
          else (name_str, self)
      | None => (name_str, self)
      end
  end.

Definition get_name (self : t) : string * t :=
  get_name_loop (budget self) "" self.

(** The loop shared by [get_number], [get_waveform] and [get_bit]: the
    run of digits at the cursor. *)
Fixpoint get_digits_loop (fuel : nat) (num_str : string) (self : t)
  : string * t :=
  match fuel with
  | O => (num_str, self)
  | S fuel' =>
      match current_character self with
      | Some c =>
          if isdigit c
          then get_digits_loop fuel' (num_str +:+ String c EmptyString)
                 (advance self)
          else (num_str, self)
      | None => (num_str, self)
      end
  end.

Definition get_digits (self : t) : string * t :=
  get_digits_loop (budget self) "" self.

(** [get_number]: the scanner after the run has been read, and
    [int(num_str)] or the exception it raises. *)
Definition get_number (self : t) : Result Z * t :=
  let '(num_str, self) := get_digits self in (int num_str, self).

(** [get_waveform]: the digits as a string. *)
Definition get_waveform (self : t) : string * t := get_digits self.

(** [get_bit] *)
Definition get_bit (self : t) : Result Z * t :=
  let '(bit_str, self) := get_digits self in
  if (1 <? Z.of_nat (String.length bit_str)) then (Ok 2, self)
  else (int bit_str, self).

(** The loop over the body of a [/* ... */] comment.  [inl]: the loop was
    left at the closing slash; [inr]: the end of the file was reached
    and [get_symbol] returns. *)
Fixpoint block_comment_loop (fuel : nat) (comment_flag : bool) (self : t)
  : t + t :=
  match fuel with
  | O => inl self
  | S fuel' =>
      if at_char "/" self && negb comment_flag then inl self
      else
        let self :=
          if at_char NL self
          then set_cursor (line_number self + 1) 0 self
          else self in
        let comment_flag := negb (at_char "*" self) in
        match current_character self with
        | None => inr (advance self)
        | Some _ => block_comment_loop fuel' comment_flag (advance self)
        end
  end.

(** The loop over a [#] comment.  [inl]: left at the newline; [inr]: end
    of file, and [get_symbol] returns. *)
Fixpoint line_comment_loop (fuel : nat) (self : t) : t + t :=
  match fuel with
  | O => inl self
  | S fuel' =>
      if at_char NL self then inl self
      else
        match current_character self with
        | None => inr (advance self)
        | Some _ => line_comment_loop fuel' (advance self)
        end
  end.

(** How the comment-stripping loop of [get_symbol] ends: by one of its
    [return symbol] statements, or by falling out of the loop. *)
Inductive stripped : Type :=
| Returned (symbol : Symbol.t) (self : t)
| Proceed (symbol : Symbol.t) (self : t).

(** [while self.current_character in ["/", "#", "\n"]: ...] *)
Fixpoint strip_loop (fuel : nat) (symbol : Symbol.t) (self : t) : stripped :=
  match fuel with
  | O => Proceed symbol self
  | S fuel' =>
      if at_char "/" self then
        let symbol :=
          Symbol.set_place (line_number self) (position self) symbol in
        let self := advance self in
        if at_char "*" self then
          let self := advance self in
          match block_comment_loop (budget self) true self with
          | inr self => Returned (Symbol.set_type EOF symbol) self
          | inl self =>
              strip_loop fuel' symbol (skip_spaces (advance self))
          end
        else Returned symbol self
      else if at_char "#" self then
        match line_comment_loop (budget self) self with
        | inr self => Returned (Symbol.set_type EOF symbol) self
        | inl self => strip_loop fuel' symbol (skip_spaces self)
        end
      else if at_char NL self then
        strip_loop fuel' symbol
          (skip_spaces (advance (set_cursor (line_number self + 1) 0 self)))
      else Proceed symbol self
  end.

Definition punctuation (c : ascii) : option kind :=
  if bool_decide (c = ";"%char) then Some SEMICOLON
  else if bool_decide (c = ">"%char) then Some ARROW
  else if bool_decide (c = ","%char) then Some COMMA
  else if bool_decide (c = ":"%char) then Some COLON
  else if bool_decide (c = "."%char) then Some DOT
  else None.

(** The part of [get_symbol] after the comment-stripping loop: the
    scanner as the call leaves it, and the symbol returned or the
    exception that [int] raised in [get_bit] or [get_number]. *)
Definition tokenise (symbol : Symbol.t) (self : t) : Result Symbol.t * t :=
  let symbol :=
    Symbol.set_place (line_number self) (position self) symbol in
  match current_character self with
  | Some c =>
      if isalpha c then
        let '(name_str, self) := get_name self in
        let self := set_name_string name_str self in
        let symbol :=
          Symbol.set_type
            (if bool_decide (name_str ∈ keywords_list) then KEYWORD
             else NAME) symbol in
        let '(ids, nm) := Names.lookup [name_str] (names self) in
        (Ok (Symbol.set_id (match ids with [i] => PInt i | _ => PNone end)
               symbol),
         set_names nm self)
      else if isdigit c then
        if bool_decide (name_string self = "SIGGEN") then
          let '(w, self) := get_waveform self in
          (Ok (Symbol.set_type NUMBER (Symbol.set_id (PStr w) symbol)), self)
        else if bool_decide (name_string self = "SWITCH") then
          let '(b, self) := get_bit self in
          (b ← b; Ok (Symbol.set_type NUMBER (Symbol.set_id (PInt b) symbol)),
           self)
        else
          let '(n, self) := get_number self in
          (n ← n; Ok (Symbol.set_type NUMBER (Symbol.set_id (PInt n) symbol)),
           self)
      else
        match punctuation c with
        | Some k => (Ok (Symbol.set_type k symbol), advance self)
        | None => (Ok symbol, advance self)   (* not a valid character *)
        end
  | None => (Ok (Symbol.set_type EOF symbol), close self)   (* end of file *)
  end.

(** The first part of [get_symbol]: a fresh symbol, [skip_spaces], and
    the comment-stripping loop. *)
Definition strip (self : t) : stripped :=
  let symbol := Symbol.init in
  let self := skip_spaces self in
  strip_loop (budget self) symbol self.

(** [get_symbol]: the scanner as the call leaves it, and the symbol
    returned or the exception raised. *)
Definition get_symbol (self : t) : Result Symbol.t * t :=
  match strip self with
  | Returned symbol self => (Ok symbol, self)
  | Proceed symbol self => tokenise symbol self
  end.

(** [initialise_lines]: the lines of the file, each with its newline. *)
Fixpoint split_lines (line : string) (contents : list ascii) : list string :=
  match contents with
  | [] => if bool_decide (line = "") then [] else [line]
  | c :: rest =>
      if bool_decide (c = NL)
      then (line +:+ String c EmptyString) :: split_lines "" rest
      else split_lines (line +:+ String c EmptyString) rest
  end.

Definition initialise_lines (contents : list ascii) : list string :=
  split_lines "" contents.

(** [Scanner.__init__] on a file with the given contents. *)
Definition init (contents : list ascii) (names : Names.t) : t :=
  let '(ids, names) := Names.lookup keywords_list names in
  let self :=
    advance
      {| names := names; keyword_ids := ids; position := 0;
         line_number := 1; FILE := contents; closed := false;
         stale_read := false; current_character := None;
         name_string := ""; lines := [] |} in
  {| names := Scanner.names self; keyword_ids := keyword_ids self;
     position := position self; line_number := line_number self;
     FILE := FILE self; closed := closed self;
     stale_read := stale_read self;
     current_character := current_character self;
     name_string := ""; lines := initialise_lines contents |}.

(** [print_error] *)
Definition print_error (symbol : Symbol.t) (self : t) : Result string :=
  let n := Z.of_nat (length (lines self)) in
  let ln := Symbol.line_number symbol in
  if (1 <=? ln) && (ln <=? n - 1) then
    line ← py_index (lines self) (ln - 1);
    Ok (line +:+ spaces (Symbol.position symbol - 1) +:+ "^")
  else if ln =? n then
    line ← py_index (lines self) (ln - 1);
    Ok (line +:+ String NL EmptyString
             +:+ spaces (Symbol.position symbol - 1) +:+ "^")
  else Ok "Line number out of range.".

End Scanner.

(** ** Measures and invariants of the scanner *)

Module ScannerSpec.

Import Scanner.

(** The number of characters still to be scanned: the current one and
    the unread ones. *)
Definition mu (self : t) : nat :=
  (length (FILE self)
   + match current_character self with Some _ => 1 | None => 0 end)%nat.

(** What the scanning loops leave alone, and the only way they change
    the rest: by reading on. *)
Record frame (s s' : t) : Prop := mkframe {
  frame_names : names s' = names s;
  frame_keyword_ids : keyword_ids s' = keyword_ids s;
  frame_closed : closed s' = closed s;
  frame_name_string : name_string s' = name_string s;
  frame_lines : lines s' = lines s;
  frame_stale : closed s = false → stale_read s' = stale_read s;
  frame_mu : (mu s' ≤ mu s)%nat
}.

(** The text still to be scanned. *)
Definition pending (self : t) : list ascii :=
  match current_character self with
  | Some c => c :: FILE self
  | None => []
  end.

(** A closed file is only ever found at its end. *)
Definition closed_at_end (self : t) : Prop :=
  closed self = true → current_character self = None.

(** The body of a block comment holds no closing [*/]. *)
Definition unterminated (body : list ascii) : Prop :=
  ∀ pre post, body ≠ (pre ++ ["*"; "/"]%char ++ post)%list.

(** The state of the loop over a block comment on the text [l], when
    the character before [l] was a star or not: does the loop find the
    end of the comment? *)
Fixpoint closes (prev_star : bool) (l : list ascii) : bool :=
  match l with
  | [] => false
  | c :: l' =>
      (prev_star && bool_decide (c = "/"%char))
      || closes (bool_decide (c = "*"%char)) l'
  end.

(** The loop changes the place of the symbol only, unless it returns
    the end of the file. *)
Definition same_content (sym sym' : Symbol.t) : Prop :=
  Symbol.type sym' = Symbol.type sym ∧ Symbol.id sym' = Symbol.id sym.

(** What [get_symbol] keeps and how far it reads: it never reads
    backwards, and it reads at least one character unless it returns the
    end of the file. *)
Record scanned (s : t) (r : Result Symbol.t) (s' : t) : Prop := mkscanned {
  scanned_keyword_ids : keyword_ids s' = keyword_ids s;
  scanned_lines : lines s' = lines s;
  scanned_mu : (mu s' ≤ mu s)%nat;
  scanned_progress :
    (∃ sym, r = Ok sym ∧ Symbol.type sym = Some Symbol.EOF)
    ∨ (mu s' < mu s)%nat;
  scanned_result : r ≠ OutOfFuel;
  scanned_stale : closed s = false → stale_read s' = stale_read s;
  scanned_closed : closed s = false → closed_at_end s'
}.

End ScannerSpec.

(** ** The collaborators of the parser

    [devices.py], [network.py] and [monitors.py] are not part of the
    sources at hand.  The parser is embedded over an arbitrary
    implementation of the methods and constants it uses: [B] is the joint
    state of the three objects, a method that builds something returns its
    integer result code and the new state.  These methods do not intern
    new names while the file is parsed; [get_signal_names] reads the
    shared [Names] object. *)

(** What the parser reads of [devices.get_device(device_id)]. *)
Record Device : Type := mkDevice {
  device_kind : Z;
  inputs : list pyval     (* the keys of the [inputs] dictionary *)
}.

Class Backend (B : Type) : Type := {
  (* devices: result codes and device kinds *)
  devices_NO_ERROR : Z;
  devices_NO_QUALIFIER : Z;
  devices_INVALID_QUALIFIER : Z;
  devices_QUALIFIER_PRESENT : Z;
  devices_DEVICE_PRESENT : Z;
  devices_D_TYPE : Z;
  devices_XOR : Z;
  devices_AND : Z;
  devices_NAND : Z;
  devices_OR : Z;
  devices_NOR : Z;
  devices_CLOCK : Z;
  devices_SWITCH : Z;
  devices_SIGGEN : Z;
  make_device : pyval → Z → pyval → B → Z * B;
  get_device : pyval → B → option Device;
  find_devices : B → list pyval;
  (* network *)
  network_DEVICE_ABSENT : Z;
  network_INPUT_CONNECTED : Z;
  network_INPUT_TO_INPUT : Z;
  network_PORT_ABSENT : Z;
  network_OUTPUT_TO_OUTPUT : Z;
  make_connection : pyval → pyval → pyval → pyval → B → Z * B;
  check_network : B → bool;
  (* monitors *)
  monitors_NO_ERROR : Z;
  monitors_NOT_OUTPUT : Z;
  monitors_MONITOR_PRESENT : Z;
  make_monitor : pyval → pyval → B → Z * B;
  get_signal_names : Names.t → B → list string * list string
}.

(** ** parse.py *)

(** What the parser prints, one entry per call of [print]. *)
Inductive Output : Type :=
| Print (text : string)          (* [print(text)]; [print()] is [Print ""] *)
| PrintLine (n : Z)              (* [print(f"LINE {n}:")] *)
| PrintSummary (n : Z).          (* [print(f"Summary: {n} error/s found\n")] *)

Module Parser.

Import Symbol.

(** [error_type_list = [NO_SEMICOLON, ..., NO_PERIOD] = range(33)] *)
Definition NO_SEMICOLON : Z := 0.
Definition NO_COLON : Z := 1.
Definition NO_ARROW : Z := 2.
Definition NO_DOT : Z := 3.
Definition DOT_ERROR : Z := 4.       (* [self.DOT] *)
Definition NO_DEVICE_TYPE : Z := 5.
Definition NO_NUMBER : Z := 6.
Definition INVALID_NAME : Z := 7.
Definition CLOCK_PERIOD_ZERO : Z := 8.
Definition NO_INITIALISATION_KEYWORD : Z := 9.
Definition NOT_BIT : Z := 10.
Definition NO_ERROR : Z := 11.
Definition QUALIFIER_PRESENT : Z := 12.
Definition INVALID_RANGE : Z := 13.
Definition INVALID_CONNECTION_SC : Z := 14.
Definition DEVICE_ABSENT : Z := 15.
Definition INPUT_CONNECTED : Z := 16.
Definition INPUT_TO_INPUT : Z := 17.
Definition PORT_ABSENT : Z := 18.
Definition OUTPUT_TO_OUTPUT : Z := 19.
Definition NOT_CONNECTED : Z := 20.
Definition INVALID_PORT : Z := 21.
Definition INVALID_PORT_DTYPE : Z := 22.
Definition INVALID_PORT_XOR : Z := 23.
Definition NOT_I_PORT : Z := 24.
Definition PORT_OUT_RANGE : Z := 25.
Definition NOT_END : Z := 26.
Definition REPEATED_MONITOR : Z := 27.
Definition REPEATED_DEVICE : Z := 28.
Definition MISSED_SEMICOLON : Z := 29.
Definition NONBINARY_WAVEFORM : Z := 30.
Definition NO_WAVEFORM : Z := 31.
Definition NO_PERIOD : Z := 32.

(** [self.parent]: ['D'], ['C'], ['M'] or [None]. *)
Inductive section_tag : Type := D | C | M.

Section WithBackend.

Context {B : Type} `{Backend B}.

(** The parser object.  [names] is the object the scanner holds
    ([Scanner.names]); [devices], [network] and [monitors] are
    [backend]. *)
Record t : Type := mk {
  scanner : Scanner.t;
  backend : B;
  symbol : Symbol.t;
  parent : option section_tag;
  error_count : Z;
  output : list Output
}.

Definition set_parent (p : option section_tag) (self : t) : t :=
  {| scanner := scanner self; backend := backend self;
     symbol := symbol self; parent := p;
     error_count := error_count self; output := output self |}.

Definition set_backend (b : B) (self : t) : t :=
  {| scanner := scanner self; backend := b;
     symbol := symbol self; parent := parent self;
     error_count := error_count self; output := output self |}.

(** [self.error_count += 1] *)
Definition count_error (self : t) : t :=
  {| scanner := scanner self; backend := backend self;
     symbol := symbol self; parent := parent self;
     error_count := error_count self + 1; output := output self |}.

Definition print (o : list Output) (self : t) : t :=
  {| scanner := scanner self; backend := backend self;
     symbol := symbol self; parent := parent self;
     error_count := error_count self; output := output self ++ o |}.

(** [self.symbol = self.scanner.get_symbol()] *)
Definition read_symbol (self : t) : Result t :=
  let '(r, sc) := Scanner.get_symbol (scanner self) in
  sym ← r;
  Ok {| scanner := sc; backend := backend self;
        symbol := sym; parent := parent self;
        error_count := error_count self; output := output self |}.

(** [self.symbol.type == k] *)
Definition at_type (k : kind) (self : t) : bool :=
  Symbol.has_type k (symbol self).

(** [self.symbol.id in [DEVICES_ID, CONNECT_ID, MONITOR_ID, END_ID]] *)
Definition at_section_id (self : t) : bool :=
  py_in (Symbol.id (symbol self))
    (PInt <$> [Scanner.DEVICES_ID (scanner self);
               Scanner.CONNECT_ID (scanner self);
               Scanner.MONITOR_ID (scanner self);
               Scanner.END_ID (scanner self)]).

(** [self.symbol.id == k] for a keyword ID [k] of the scanner. *)
Definition at_id (k : Scanner.t → Z) (self : t) : bool :=
  py_eqb (Symbol.id (symbol self)) (PInt (k (scanner self))).

(** The four [print] calls of a diagnostic: the message, the line
    number, the source line with the caret, and an empty line. *)
Definition diagnostic (msg : string) (self : t) : Result t :=
  text ← Scanner.print_error (symbol self) (scanner self);
  Ok (print [Print msg;
             PrintLine (Symbol.line_number (symbol self));
             Print text; Print ""] self).

Definition MSG_MISSED_SEMICOLON : string :=
  "Expected a semicolon prior to this".
Definition MSG_NO_END : string :=
  "Expected 'END' keyword before end of file.".

(** The message [error] prints for [error_type]. *)
Definition message (error_type : Z) (self : t) : string :=
  if error_type =? NO_SEMICOLON then "Expected a comma or semicolon"
  else if error_type =? NO_COLON then "Expected a colon"
  else if error_type =? NO_ARROW then "Expected an arrow"
  else if error_type =? NO_DOT then "Expected a dot"
  else if error_type =? DOT_ERROR then "Did not expect a dot"
  else if error_type =? NO_DEVICE_TYPE then "Expected a device type"
  else if error_type =? NO_NUMBER then "Expected number of inputs"
  else if error_type =? NO_PERIOD then "Expected a clock period"
  else if error_type =? NO_WAVEFORM then "Expected a waveform"
  else if error_type =? INVALID_NAME then "Invalid device name"
  else if error_type =? NO_INITIALISATION_KEYWORD
    then "Expected DEVICES, CONNECT, MONITOR or END"
  else if error_type =? NOT_BIT then "Expected a bit (0 or 1)"
  else if error_type =? QUALIFIER_PRESENT then
    if at_type COMMA self then "Expected a comma"
    else "Did not expect a parameter for this device"
  else if error_type =? INVALID_RANGE
    then "Expected number between 1 and 16 inclusive"
  else if error_type =? INVALID_CONNECTION_SC
    then "Connection should not be made to SWITCH, CLOCK or SIGGEN"
  else if error_type =? DEVICE_ABSENT then "Device not found"
  else if error_type =? REPEATED_DEVICE
    then "Device has already been initialised"
  else if error_type =? INPUT_CONNECTED
    then "Input has already been connected"
  else if error_type =? INPUT_TO_INPUT
    then "Input cannot be connected to another input"
  else if error_type =? PORT_ABSENT then "Port not found"
  else if error_type =? OUTPUT_TO_OUTPUT
    then "Output cannot be connected to another output"
  else if error_type =? NOT_I_PORT
    then "Port Absent, Port is not a valid gate input port"
  else if error_type =? PORT_OUT_RANGE then "Port number out of range"
  else if error_type =? INVALID_PORT then "Invalid port number"
  else if error_type =? INVALID_PORT_DTYPE
    then "Port Absent, Invalid port for D-type device"
  else if error_type =? INVALID_PORT_XOR
    then "Port Absent, Invalid port number for XOR device"
  else if error_type =? NOT_END
    then "Expected file to end after END keyword"
  else if error_type =? REPEATED_MONITOR
    then "Signal cannot be monitored more than once"
  else if error_type =? CLOCK_PERIOD_ZERO
    then "Clock period cannot be zero"
  else if error_type =? NONBINARY_WAVEFORM
    then "Siggen waveform must only consist of bits"
  else "Unknown error".

(** The parser reads a symbol per iteration of each of its loops, so a
    loop runs at most [fuel self] times. *)
Definition fuel (self : t) : nat := S (Scanner.budget (scanner self)).

(** The [while self.symbol.type != self.scanner.EOF] loop of [error],
    with the statements after it. *)
Fixpoint error_loop (n : nat) (stopping_punctuation_flag : bool)
  (self : t) : Result t :=
  match n with
  | O => OutOfFuel
  | S n' =>
      if at_type EOF self then
        self ← diagnostic MSG_NO_END (count_error self);
        Ok (set_parent None self)
      else
        self ← read_symbol self;
        if bool_decide (parent self ≠ None) && at_type COMMA self then
          Ok self
        else if at_type SEMICOLON self then
          self ← read_symbol self;
          Ok (set_parent None self)
        else if at_section_id self then
          let self := set_parent None self in
          if negb stopping_punctuation_flag
          then diagnostic MSG_MISSED_SEMICOLON (count_error self)
          else Ok self
        else error_loop n' stopping_punctuation_flag self
  end.

(** [error]: handle errors in the definition file. *)
Definition error (error_type : Z) (self : t) : Result t :=
  if error_type =? MISSED_SEMICOLON then
    diagnostic MSG_MISSED_SEMICOLON (count_error (set_parent None self))
  else if at_section_id self then
    diagnostic MSG_MISSED_SEMICOLON (count_error (set_parent None self))
  else
    let self := count_error self in
    let stopping_punctuation_flag := error_type =? NO_SEMICOLON in
    self ← diagnostic (message error_type self) self;
    if at_type COMMA self && bool_decide (parent self ≠ None) then
      Ok self
    else if at_type SEMICOLON self then
      self ← read_symbol self;
      Ok (set_parent None self)
    else if at_section_id self then Ok (set_parent None self)
    else error_loop (fuel self) stopping_punctuation_flag self.

(** [end_of_file] *)
Definition end_of_file (self : t) : Result t :=
  if negb (at_type EOF self) then error NOT_END self else Ok self.

(** [make_device_parser]: create a device with its parameter.  The
    local variable [error] is [None] until a result code is stored in
    it. *)
Definition make_device_parser (device_id device_type_id : pyval)
  (self : t) : Result (Z * t) :=
  self ← read_symbol self;
  let sc := scanner self in
  let is_type (k : Scanner.t → Z) := py_eqb device_type_id (PInt (k sc)) in
  let make (kind : Z) (self : t) : option Z * t :=
    let '(e, b) :=
      make_device device_id kind (Symbol.id (symbol self))
        (backend self) in
    (Some e, set_backend b self) in
  let error : option Z := None in
  (* Handle XOR and DTYPE devices *)
  let '(error, self) :=
    if is_type Scanner.XOR_ID then make devices_XOR self
    else if is_type Scanner.DTYPE_ID then make devices_D_TYPE self
    else (error, self) in
  (* Check for qualifier errors *)
  if bool_decide (error = Some devices_QUALIFIER_PRESENT) then
    Ok (QUALIFIER_PRESENT, self)
  else if bool_decide (error = Some devices_DEVICE_PRESENT) then
    Ok (REPEATED_DEVICE, self)
  else if bool_decide (error = Some devices_NO_ERROR) then
    Ok (NO_ERROR, self)
  else
  (* Handle AND, OR, NAND, NOR devices *)
  let '(error, self) :=
    if is_type Scanner.AND_ID then make devices_AND self
    else if is_type Scanner.OR_ID then make devices_OR self
    else if is_type Scanner.NAND_ID then make devices_NAND self
    else if is_type Scanner.NOR_ID then make devices_NOR self
    else (error, self) in
  (* Check for missing or invalid qualifiers *)
  let error :=
    if bool_decide (error = Some devices_NO_QUALIFIER) then Some NO_NUMBER
    else if bool_decide (error = Some devices_NO_ERROR) then Some NO_ERROR
    else if bool_decide (error = Some devices_INVALID_QUALIFIER)
      then Some INVALID_RANGE
    else error in
  (* Handle CLOCK device *)
  let '(error, self) :=
    if is_type Scanner.CLOCK_ID then
      if negb (at_type NUMBER self) then (Some NO_PERIOD, self)
      else
        let '(error, self) := make devices_CLOCK self in
        (if bool_decide (error = Some devices_NO_QUALIFIER)
           then Some NO_PERIOD
         else if bool_decide (error = Some devices_NO_ERROR)
           then Some NO_ERROR
         else if bool_decide (error = Some devices_INVALID_QUALIFIER)
           then Some CLOCK_PERIOD_ZERO
         else error, self)
    else (error, self) in
  (* Handle SIGGEN device, else SWITCH device *)
  if is_type Scanner.SIGGEN_ID then
    let '(error, self) :=
      if negb (at_type NUMBER self) then (Some NO_WAVEFORM, self)
      else
        let '(error, self) := make devices_SIGGEN self in
        (if bool_decide (error = Some devices_NO_QUALIFIER)
           then Some NO_WAVEFORM
         else if bool_decide (error = Some devices_NO_ERROR)
           then Some NO_ERROR
         else if bool_decide (error = Some devices_INVALID_QUALIFIER)
           then Some NONBINARY_WAVEFORM
         else error, self) in
    self ← read_symbol self;
    Ok (default NO_ERROR error, self)
  else if is_type Scanner.SWITCH_ID then
    let '(error, self) := make devices_SWITCH self in
    if bool_decide (error = Some devices_NO_QUALIFIER) then
      Ok (NOT_BIT, self)
    else
      let error :=
        if bool_decide (error = Some devices_INVALID_QUALIFIER)
          then Some NOT_BIT
        else if bool_decide (error = Some devices_NO_ERROR)
          then Some NO_ERROR
        else error in
      self ← read_symbol self;
      Ok (default NO_ERROR error, self)
  else
    (* Default to no error if error is still None *)
    self ← read_symbol self;
    Ok (default NO_ERROR error, self).

(** [device]: parse a device with its device type. *)
Definition device (self : t) : Result (Z * t) :=
  if at_type NAME self then
    let device_id := Symbol.id (symbol self) in
    self ← read_symbol self;
    if at_type COLON self then
      self ← read_symbol self;
      if at_type KEYWORD self
         && py_in (Symbol.id (symbol self))
              (Scanner.device_id_list (scanner self)) then
        make_device_parser device_id (Symbol.id (symbol self)) self
      else Ok (NO_DEVICE_TYPE, self)
    else Ok (NO_COLON, self)
  else if at_section_id self then Ok (MISSED_SEMICOLON, self)
  else Ok (INVALID_NAME, self).

(** What [in_signame] and [out_signame] return: an integer error code
    or the list [[device_id, port_id]]. *)
Definition signame : Type := Z + pyval * pyval.

(** [device_type_id in [SWITCH, CLOCK, SIGGEN]] *)
Definition is_source_kind (kind : Z) : bool :=
  bool_decide (kind ∈ [devices_SWITCH; devices_CLOCK; devices_SIGGEN]).

(** [port_id in [Q_ID, QBAR_ID]] *)
Definition is_dtype_output (port_id : pyval) (sc : Scanner.t) : bool :=
  py_in port_id (PInt <$> [Scanner.Q_ID sc; Scanner.QBAR_ID sc]).

(** [in_signame] *)
Definition in_signame (self : t) : Result (signame * t) :=
  if at_type NAME self then
    let device_id := Symbol.id (symbol self) in
    match get_device device_id (backend self) with
    | None => Ok (inl DEVICE_ABSENT, self)
    | Some dev =>
        self ← read_symbol self;
        let device_type_id := device_kind dev in
        (* dot_signals["IN"] = [devices.D_TYPE] *)
        if negb (bool_decide (device_type_id ∈ [devices_D_TYPE])) then
          if at_type DOT self then
            if is_source_kind device_type_id
            then Ok (inl DOT_ERROR, self)
            else Ok (inl INPUT_TO_INPUT, self)
          else Ok (inr (device_id, PNone), self)
        else if at_type DOT self then
          self ← read_symbol self;
          let port_id := Symbol.id (symbol self) in
          if negb (is_dtype_output port_id (scanner self))
          then Ok (inl INVALID_PORT, self)
          else
            self ← read_symbol self;
            Ok (inr (device_id, port_id), self)
        else Ok (inl NO_DOT, self)
    end
  else if at_section_id self then Ok (inl MISSED_SEMICOLON, self)
  else Ok (inl INVALID_NAME, self).

(** [out_signame].  [name[0]] raises when [name] is [None] or empty. *)
Definition out_signame (self : t) : Result (signame * t) :=
  if at_type NAME self then
    let device_id := Symbol.id (symbol self) in
    match get_device device_id (backend self) with
    | None => Ok (inl DEVICE_ABSENT, self)
    | Some dev =>
        let device_type_id := device_kind dev in
        if is_source_kind device_type_id
        then Ok (inl INVALID_CONNECTION_SC, self)
        else
          self ← read_symbol self;
          if at_type DOT self then
            self ← read_symbol self;
            let port_id := Symbol.id (symbol self) in
            if negb (py_in port_id (inputs dev)) then
              if device_type_id =? devices_D_TYPE then
                if is_dtype_output port_id (scanner self)
                then Ok (inl OUTPUT_TO_OUTPUT, self)
                else Ok (inl INVALID_PORT_DTYPE, self)
              else if device_type_id =? devices_XOR then
                Ok (inl INVALID_PORT_XOR, self)
              else
                match
                  Names.get_name_string (Symbol.id (symbol self))
                    (Scanner.names (scanner self))
                with
                | None => Raise TypeError
                | Some EmptyString => Raise IndexError
                | Some (String c _) =>
                    if negb (bool_decide (c = "I"%char))
                    then Ok (inl NOT_I_PORT, self)
                    else Ok (inl PORT_OUT_RANGE, self)
                end
            else
              self ← read_symbol self;
              Ok (inr (device_id, port_id), self)
          else Ok (inl OUTPUT_TO_OUTPUT, self)
    end
  else Ok (inl INVALID_NAME, self).

(** [connection]: parse a single connection. *)
Definition connection (self : t) : Result (Z * t) :=
  (* Get the input device and port number *)
  in_signal ← in_signame self;
  match in_signal with
  | (inl in_signal, self) => Ok (in_signal, self)
  | (inr (in_device_id, in_port_id), self) =>
      (* Check for arrow symbol *)
      if negb (at_type ARROW self) then Ok (NO_ARROW, self)
      else
        self ← read_symbol self;
        (* Get the output device and port number *)
        out_signal ← out_signame self;
        match out_signal with
        | (inl out_signal, self) => Ok (out_signal, self)
        | (inr (out_device_id, out_port_id), self) =>
            let '(error_type, b) :=
              make_connection in_device_id in_port_id
                out_device_id out_port_id (backend self) in
            let self := set_backend b self in
            if error_type =? network_DEVICE_ABSENT
              then Ok (DEVICE_ABSENT, self)
            else if error_type =? network_INPUT_CONNECTED
              then Ok (INPUT_CONNECTED, self)
            else if error_type =? network_INPUT_TO_INPUT
              then Ok (INPUT_TO_INPUT, self)
            else if error_type =? network_PORT_ABSENT
              then Ok (PORT_ABSENT, self)
            else if error_type =? network_OUTPUT_TO_OUTPUT
              then Ok (OUTPUT_TO_OUTPUT, self)
            else Ok (NO_ERROR, self)
        end
  end.

(** The translation of the result of [make_monitor] in [monitor]. *)
Definition monitor_error (error : Z) : Z :=
  if error =? network_DEVICE_ABSENT then DEVICE_ABSENT
  else if error =? monitors_NOT_OUTPUT then INVALID_PORT
  else if error =? monitors_MONITOR_PRESENT then REPEATED_MONITOR
  else if error =? monitors_NO_ERROR then NO_ERROR
  else error.

(** [monitor]: parse a signal name and monitor it. *)
Definition monitor (self : t) : Result (Z * t) :=
  if at_type NAME self then
    let device_id := Symbol.id (symbol self) in
    self ← read_symbol self;
    if at_type DOT self then
      self ← read_symbol self;
      let port_id := Symbol.id (symbol self) in
      let '(error, b) := make_monitor device_id port_id (backend self) in
      self ← read_symbol (set_backend b self);
      Ok (monitor_error error, self)
    else
      let '(error, b) := make_monitor device_id PNone (backend self) in
      Ok (monitor_error error, set_backend b self)
  else if at_section_id self then Ok (MISSED_SEMICOLON, self)
  else Ok (INVALID_NAME, self).

(** [if error != self.NO_ERROR: self.error(error)] *)
Definition report (error_type : Z) (self : t) : Result t :=
  if negb (error_type =? NO_ERROR) then error error_type self
  else Ok self.

(** The [while True] loop shared, word for word, by [device_list],
    [connection_list] and [monitor_list]; [item] is [device],
    [connection] or [monitor]. *)
Fixpoint list_loop (item : t → Result (Z * t)) (n : nat) (self : t)
  : Result t :=
  match n with
  | O => OutOfFuel
  | S n' =>
      if at_type COMMA self then
        self ← read_symbol self;
        r ← item self;
        self ← report r.1 r.2;
        if bool_decide (parent self = None) then Ok self
        else list_loop item n' self
      else if at_type SEMICOLON self then
        read_symbol self
      else
        self ← error NO_SEMICOLON self;
        if bool_decide (parent self = None) then Ok self
        else list_loop item n' self
  end.

(** The body shared by the three list functions. *)
Definition item_list (item : t → Result (Z * t)) (self : t) : Result t :=
  r ← item self;
  self ← report r.1 r.2;
  if bool_decide (parent self = None) then Ok self
  else list_loop item (fuel self) self.

Definition device_list : t → Result t := item_list device.

Definition connection_list : t → Result t := item_list connection.

Definition monitor_list : t → Result t := item_list monitor.

(** The [while] loop of [parse_network]. *)
Fixpoint parse_loop (n : nat) (self : t) : Result t :=
  match n with
  | O => OutOfFuel
  | S n' =>
      if at_type EOF self then Ok self
      else if at_id Scanner.DEVICES_ID self then
        self ← read_symbol (set_parent (Some D) self);
        self ← device_list self;
        parse_loop n' (set_parent None self)
      else if at_id Scanner.CONNECT_ID self then
        self ← read_symbol (set_parent (Some C) self);
        self ← connection_list self;
        parse_loop n' (set_parent None self)
      else if at_id Scanner.MONITOR_ID self then
        self ← read_symbol (set_parent (Some M) self);
        self ← monitor_list self;
        parse_loop n' (set_parent None self)
      else if at_id Scanner.END_ID self then
        self ← read_symbol self;
        end_of_file self
      else
        (* Error: expected a section keyword *)
        self ← error NO_INITIALISATION_KEYWORD self;
        parse_loop n' (set_parent None self)
  end.

(** The connectivity check of [parse_network]. *)
Definition check_connectivity (self : t) : t :=
  if (error_count self =? 0) && negb (check_network (backend self)) then
    count_error
      (print [Print ""; Print "Error: Network connectivity issues found";
              Print ""] self)
  else self.

(** [len(find_devices()) == 0 and len(get_signal_names()[0]) == 0 and
    len(get_signal_names()[1]) == 0] *)
Definition is_empty (self : t) : bool :=
  let signal_names :=
    get_signal_names (Scanner.names (scanner self)) (backend self) in
  bool_decide (length (find_devices (backend self)) = 0%nat)
  && bool_decide (length signal_names.1 = 0%nat)
  && bool_decide (length signal_names.2 = 0%nat).

(** The check that no devices are present. *)
Definition check_empty (self : t) : t :=
  if (error_count self =? 0) && is_empty self then
    print [Print ""; Print "Error: Empty File"; Print ""]
      (count_error self)
  else self.

(** The end of [parse_network]: the summary and the result. *)
Definition conclude (self : t) : bool * t :=
  if 0 <? error_count self
  then (false, print [PrintSummary (error_count self)] self)
  else (true, self).

(** [Parser.__init__] followed by the first statement of
    [parse_network], which reads the first symbol. *)
Definition start (sc : Scanner.t) (b : B) : Result t :=
  let '(r, sc) := Scanner.get_symbol sc in
  sym ← r;
  Ok {| scanner := sc; backend := b; symbol := sym; parent := None;
        error_count := 0; output := [] |}.

(** [parse_network] up to the end of its loop. *)
Definition parse_sections (sc : Scanner.t) (b : B) : Result t :=
  self ← start sc b; parse_loop (fuel self) self.

(** [parse_network]: parse the circuit definition file. *)
Definition parse_network (sc : Scanner.t) (b : B) : Result (bool * t) :=
  self ← parse_sections sc b;
  Ok (conclude (check_empty (check_connectivity self))).

End WithBackend.

Arguments t : clear implicits.

End Parser.

(** ** Measures and invariants of the parser *)

Module ParserSpec.

Import Symbol Parser.

(** A call ends well: it returns a value that satisfies [P], or raises;
    it does not run out of fuel. *)
Definition ends_with {A : Type} (P : A → Prop) (r : Result A) : Prop :=
  match r with
  | Ok a => P a
  | Raise _ => True
  | OutOfFuel => False
  end.

Section WithBackend.

Context {B : Type} `{Backend B}.

(** What is left to parse: the text still to be scanned, and the
    symbol at hand unless it is the end of the file. *)
Definition measure (self : t B) : nat :=
  (ScannerSpec.mu (scanner self)
   + if at_type EOF self then 0 else 1)%nat.

(** The parser has moved on from [self] to [self']: it never goes
    back in the text and never forgets an error. *)
Record advanced (self self' : t B) : Prop := mkadvanced {
  advanced_measure : (measure self' ≤ measure self)%nat;
  advanced_count : error_count self ≤ error_count self';
  advanced_keyword_ids :
    Scanner.keyword_ids (scanner self')
    = Scanner.keyword_ids (scanner self);
  advanced_lines :
    Scanner.lines (scanner self') = Scanner.lines (scanner self)
}.

(** The place of the parser in the text: the scanner and the symbol
    at hand. *)
Definition cursor (self : t B) : Scanner.t * Symbol.t :=
  (scanner self, symbol self).

(** The place after the next symbol has been read, when [get_symbol]
    returns one. *)
Definition next (c : Scanner.t * Symbol.t)
  : Result (Scanner.t * Symbol.t) :=
  let '(r, sc) := Scanner.get_symbol c.1 in
  sym ← r; Ok (sc, sym).

(** The place [n] symbols ahead of [c]. *)
Fixpoint ahead (n : nat) (c : Scanner.t * Symbol.t)
  : Result (Scanner.t * Symbol.t) :=
  match n with
  | O => Ok c
  | S n' => c' ← next c; ahead n' c'
  end.

(** The symbol at [c] has the ID of DEVICES, CONNECT, MONITOR or END. *)
Definition section_id (c : Scanner.t * Symbol.t) : bool :=
  py_in (Symbol.id c.2)
    (PInt <$> [Scanner.DEVICES_ID c.1; Scanner.CONNECT_ID c.1;
               Scanner.MONITOR_ID c.1; Scanner.END_ID c.1]).

(** The symbol at [c] is one of the keywords DEVICES, CONNECT, MONITOR
    and END. *)
Definition section_keyword (c : Scanner.t * Symbol.t) : bool :=
  Symbol.has_type KEYWORD c.2 && section_id c.

(** Every symbol from [c] on that has the ID of DEVICES, CONNECT,
    MONITOR or END is that keyword. *)
Definition ids_are_keywords (c : Scanner.t * Symbol.t) : Prop :=
  ∀ n c', ahead n c = Ok c' →
    section_id c' = true → Symbol.has_type KEYWORD c'.2 = true.

(** A test of [ids_are_keywords] that reads at most [n] symbols: it
    succeeds when the end of the file is reached within them (or an
    exception ends the reading) and every symbol read passes. *)
Fixpoint ids_checked (n : nat) (c : Scanner.t * Symbol.t) : bool :=
  implb (section_id c) (Symbol.has_type KEYWORD c.2)
  && (bool_decide (Scanner.current_character c.1 = None)
      || match n with
         | O => false
         | S n' =>
             match next c with
             | Ok c' => ids_checked n' c'
             | Raise _ => true
             | OutOfFuel => false
             end
         end).

(** The symbols at which error recovery stops: a comma while a list
    is being parsed ([p] is the section at hand), a semicolon, a
    section keyword or END (as [section] tells them), the end of the
    file. *)
Definition sync (section : Scanner.t * Symbol.t → bool)
  (p : option section_tag) (c : Scanner.t * Symbol.t) : bool :=
  (bool_decide (p ≠ None) && Symbol.has_type COMMA c.2)
  || Symbol.has_type SEMICOLON c.2
  || section c
  || Symbol.has_type EOF c.2.

(** Recovery stops [k] symbols ahead of [c], at [stop]: the first place
    from [c] on at which it stops. *)
Definition first_sync (section : Scanner.t * Symbol.t → bool)
  (p : option section_tag) (c : Scanner.t * Symbol.t) (k : nat)
  (stop : Scanner.t * Symbol.t) : Prop :=
  (∀ j, (j < k)%nat → ∃ c', ahead j c = Ok c' ∧ sync section p c' = false)
  ∧ ahead k c = Ok stop
  ∧ sync section p stop = true.

(** The four lines of a diagnostic with message [msg] at [sym]. *)
Definition diagnostic_lines (msg : string) (sym : Symbol.t)
  (text : string) : list Output :=
  [Print msg; PrintLine (Symbol.line_number sym); Print text; Print ""].

(** Where a call of [error] leaves the parser: out of the list
    ([parent] is [None]), or inside it at a comma. *)
Definition resumes (st st' : t B) : Prop :=
  parent st' = None
  ∨ (parent st' = parent st ∧ parent st ≠ None ∧ at_type COMMA st' = true).

(** How a call of [error] moves the parser: it reads on, or it leaves
    the list without reading, or it stays at the comma of a list. *)
Definition recovered (error_type : Z) (st st' : t B) : Prop :=
  advanced st st' ∧ backend st' = backend st ∧ resumes st st'
  ∧ ((measure st' < measure st)%nat
     ∨ (parent st' = None
        ∧ (error_type = MISSED_SEMICOLON ∨ at_section_id st = true
           ∨ at_type EOF st = true))
     ∨ (at_type COMMA st = true ∧ parent st ≠ None)).

(** What the list loops need of an item parser. *)
Definition reads_on (item : t B → Result (Z * t B)) : Prop :=
  ∀ st, ends_with (λ r, advanced st r.2) (item st).

(** What the recovery loop of [error] does once the diagnostic of the
    fault is printed: it reads up to the first symbol at which recovery
    stops, and acts on its kind. *)
Definition loop_outcome (flag : bool) (st st' : t B)
  (stop : Scanner.t * Symbol.t) : Prop :=
  if bool_decide (parent st ≠ None) && Symbol.has_type COMMA stop.2 then
    cursor st' = stop ∧ parent st' = parent st
    ∧ error_count st' = error_count st ∧ output st' = output st
  else if Symbol.has_type SEMICOLON stop.2 then
    next stop = Ok (cursor st') ∧ parent st' = None
    ∧ error_count st' = error_count st ∧ output st' = output st
  else if section_id stop then
    cursor st' = stop ∧ parent st' = None
    ∧ if flag then
        error_count st' = error_count st ∧ output st' = output st
      else
        error_count st' = error_count st + 1
        ∧ ∃ text,
            output st' =
              output st
              ++ diagnostic_lines MSG_MISSED_SEMICOLON stop.2 text
  else
    cursor st' = stop ∧ parent st' = None
    ∧ error_count st' = error_count st + 1
    ∧ ∃ text,
        output st' = output st ++ diagnostic_lines MSG_NO_END stop.2 text.

(** How [error] leaves the parser when recovery stops at the symbol at
    [stop]; [first] is the diagnostic of the fault itself. *)
Definition recovery_outcome (section : Scanner.t * Symbol.t → bool)
  (error_type : Z) (st st' : t B)
  (stop : Scanner.t * Symbol.t) (first : list Output) : Prop :=
  if bool_decide (parent st ≠ None) && Symbol.has_type COMMA stop.2 then
    (* a comma of the list at hand: the list goes on *)
    cursor st' = stop ∧ parent st' = parent st
    ∧ error_count st' = error_count st + 1
    ∧ output st' = output st ++ first
  else if Symbol.has_type SEMICOLON stop.2 then
    (* a semicolon: it is read, the list is over *)
    next stop = Ok (cursor st') ∧ parent st' = None
    ∧ error_count st' = error_count st + 1
    ∧ output st' = output st ++ first
  else if section stop then
    (* a section keyword or END: the list is over, and a second error
       is reported at the keyword unless a comma or semicolon was the
       fault *)
    cursor st' = stop ∧ parent st' = None
    ∧ if error_type =? NO_SEMICOLON then
        error_count st' = error_count st + 1
        ∧ output st' = output st ++ first
      else
        error_count st' = error_count st + 2
        ∧ ∃ text,
            output st' =
              output st ++ first
              ++ diagnostic_lines MSG_MISSED_SEMICOLON stop.2 text
  else
    (* the end of the file: a second error reports the missing END *)
    cursor st' = stop ∧ parent st' = None
    ∧ error_count st' = error_count st + 2
    ∧ ∃ text,
        output st' =
          output st ++ first ++ diagnostic_lines MSG_NO_END stop.2 text.

End WithBackend.

End ParserSpec.

(** ** A network model for running the parser

    Modelled from the spec: [devices.py], [network.py] and [monitors.py]
    are missing from the sources.  This is the part of sections 3 and 4.3
    to 4.5 of the specification that the parser uses: device construction
    with its result codes, the connection table, the connectivity check,
    and the set of monitors.  Signal levels and simulation are left out.

    Where the specification is silent the model chooses: the result codes
    are allocated from 0 in the order of the specification's lists
    (devices, then network, then monitors), the kind tags are 0 to 8,
    [make_device] tests its conditions in the order the specification
    lists them, port IDs are the IDs of the port names in the names table
    given to [init], and a connection may be written from either end. *)

Module Model.

Definition AND : Z := 0.
Definition NAND : Z := 1.
Definition OR : Z := 2.
Definition NOR : Z := 3.
Definition XOR : Z := 4.
Definition DTYPE : Z := 5.
Definition CLOCK : Z := 6.
Definition SWITCH : Z := 7.
Definition SIGGEN : Z := 8.

(* MakeDeviceResult *)
Definition OK : Z := 0.
Definition NO_QUALIFIER : Z := 1.
Definition INVALID_QUALIFIER : Z := 2.
Definition QUALIFIER_PRESENT : Z := 3.
Definition DEVICE_PRESENT : Z := 4.
(* ConnectionResult *)
Definition CONNECTION_OK : Z := 5.
Definition DEVICE_ABSENT : Z := 6.
Definition INPUT_CONNECTED : Z := 7.
Definition INPUT_TO_INPUT : Z := 8.
Definition PORT_ABSENT : Z := 9.
Definition OUTPUT_TO_OUTPUT : Z := 10.
(* MonitorResult *)
Definition MONITOR_OK : Z := 11.
Definition NOT_OUTPUT : Z := 12.
Definition MONITOR_PRESENT : Z := 13.

Record device : Type := mkdevice {
  device_id : pyval;
  kind : Z;
  (* port -> source (device, port), or unconnected *)
  connections : list (pyval * option (pyval * pyval));
  outputs : list pyval
}.

Record t : Type := mk {
  port_names : Names.t;      (* where the port names were interned *)
  devices : list device;
  monitors : list (pyval * pyval)
}.

Definition init (names : Names.t) : t :=
  {| port_names := names; devices := []; monitors := [] |}.

Definition port (name : string) (self : t) : pyval :=
  match Names.query name (port_names self) with
  | Some i => PInt i
  | None => PNone
  end.

Definition gate_inputs (n : Z) (self : t) : list pyval :=
  (fun name => port name self) <$>
    take (Z.to_nat n)
      ["I1"; "I2"; "I3"; "I4"; "I5"; "I6"; "I7"; "I8"; "I9"; "I10";
       "I11"; "I12"; "I13"; "I14"; "I15"; "I16"].

Definition find (id : pyval) (self : t) : option device :=
  List.find (fun d => py_eqb (device_id d) id) (devices self).

Definition is_gate (k : Z) : bool :=
  bool_decide (k ∈ [AND; NAND; OR; NOR]).

Definition binary (w : string) : bool :=
  forallb (fun c => bool_decide (c = "0"%char) || bool_decide (c = "1"%char))
    (String.list_ascii_of_string w).

(** The qualifier check of [make_device]: [None] when it passes. *)
Definition qualifier_error (k : Z) (property : pyval) : option Z :=
  if bool_decide (k ∈ [XOR; DTYPE]) then
    if py_eqb property PNone then None else Some QUALIFIER_PRESENT
  else
    match property with
    | PNone => Some NO_QUALIFIER
    | PInt n =>
        if is_gate k then
          if (1 <=? n) && (n <=? 16) then None else Some INVALID_QUALIFIER
        else if k =? CLOCK then
          if 1 <=? n then None else Some INVALID_QUALIFIER
        else if k =? SWITCH then
          if (n =? 0) || (n =? 1) then None else Some INVALID_QUALIFIER
        else Some INVALID_QUALIFIER
    | PStr w =>
        if k =? SIGGEN then
          if bool_decide (w = "") then Some NO_QUALIFIER
          else if binary w then None else Some INVALID_QUALIFIER
        else Some INVALID_QUALIFIER
    end.

Definition new_device (id : pyval) (k : Z) (property : pyval) (self : t)
  : device :=
  let ins :=
    if is_gate k then
      match property with PInt n => gate_inputs n self | _ => [] end
    else if k =? XOR then gate_inputs 2 self
    else if k =? DTYPE then
      (fun name => port name self) <$> ["DATA"; "CLK"; "SET"; "CLEAR"]
    else [] in
  {| device_id := id; kind := k;
     connections := (fun p => (p, None)) <$> ins;
     outputs := if k =? DTYPE then [port "Q" self; port "QBAR" self]
                else [PNone] |}.

Definition make_device (id : pyval) (k : Z) (property : pyval) (self : t)
  : Z * t :=
  match qualifier_error k property with
  | Some e => (e, self)
  | None =>
      match find id self with
      | Some _ => (DEVICE_PRESENT, self)
      | None =>
          (OK, {| port_names := port_names self;
                  devices := devices self ++ [new_device id k property self];
                  monitors := monitors self |})
      end
  end.

Definition get_device (id : pyval) (self : t) : option Device :=
  (fun d => {| device_kind := kind d; inputs := (connections d).*1 |})
    <$> find id self.

Definition find_devices (self : t) : list pyval :=
  device_id <$> devices self.

Definition is_input (p : pyval) (d : device) : bool :=
  py_in p (connections d).*1.

Definition is_output (p : pyval) (d : device) : bool :=
  py_in p (outputs d).

Definition source_of (p : pyval) (d : device) : option (pyval * pyval) :=
  match List.find (fun c => py_eqb c.1 p) (connections d) with
  | Some (_, src) => src
  | None => None
  end.

Definition connect (sink : pyval) (p : pyval) (src : pyval * pyval)
  (self : t) : t :=
  {| port_names := port_names self;
     devices :=
       (fun d =>
          if py_eqb (device_id d) sink then
            {| device_id := device_id d; kind := kind d;
               connections :=
                 (fun c => if py_eqb c.1 p then (c.1, Some src) else c)
                   <$> connections d;
               outputs := outputs d |}
          else d) <$> devices self;
     monitors := monitors self |}.

Definition make_connection (d1 p1 d2 p2 : pyval) (self : t) : Z * t :=
  match find d1 self, find d2 self with
  | Some dev1, Some dev2 =>
      if is_input p1 dev1 then
        if is_input p2 dev2 then (INPUT_TO_INPUT, self)
        else if is_output p2 dev2 then
          match source_of p1 dev1 with
          | Some _ => (INPUT_CONNECTED, self)
          | None => (CONNECTION_OK, connect d1 p1 (d2, p2) self)
          end
        else (PORT_ABSENT, self)
      else if is_output p1 dev1 then
        if is_output p2 dev2 then (OUTPUT_TO_OUTPUT, self)
        else if is_input p2 dev2 then
          match source_of p2 dev2 with
          | Some _ => (INPUT_CONNECTED, self)
          | None => (CONNECTION_OK, connect d2 p2 (d1, p1) self)
          end
        else (PORT_ABSENT, self)
      else (PORT_ABSENT, self)
  | _, _ => (DEVICE_ABSENT, self)
  end.

(** True iff every input of every device is connected. *)
Definition check_network (self : t) : bool :=
  forallb (fun d => forallb (fun c => bool_decide (c.2 ≠ None))
                      (connections d))
    (devices self).

Definition make_monitor (id p : pyval) (self : t) : Z * t :=
  match find id self with
  | None => (DEVICE_ABSENT, self)
  | Some d =>
      if negb (is_output p d) then (NOT_OUTPUT, self)
      else if bool_decide ((id, p) ∈ monitors self)
        then (MONITOR_PRESENT, self)
      else (MONITOR_OK,
            {| port_names := port_names self; devices := devices self;
               monitors := monitors self ++ [(id, p)] |})
  end.

Definition signal_name (names : Names.t) (signal : pyval * pyval) : string :=
  let name v := default "" (Names.get_name_string v names) in
  match signal.2 with
  | PNone => name signal.1
  | p => name signal.1 +:+ "." +:+ name p
  end.

(** The monitored output points, and the other output points. *)
Definition get_signal_names (names : Names.t) (self : t)
  : list string * list string :=
  let points :=
    d ← devices self; (fun p => (device_id d, p)) <$> outputs d in
  (signal_name names <$> monitors self,
   signal_name names <$>
     filter (fun pt => pt ∉ monitors self) points).

End Model.

#[global] Instance Model_backend : Backend Model.t := {|
  devices_NO_ERROR := Model.OK;
  devices_NO_QUALIFIER := Model.NO_QUALIFIER;
  devices_INVALID_QUALIFIER := Model.INVALID_QUALIFIER;
  devices_QUALIFIER_PRESENT := Model.QUALIFIER_PRESENT;
  devices_DEVICE_PRESENT := Model.DEVICE_PRESENT;
  devices_D_TYPE := Model.DTYPE;
  devices_XOR := Model.XOR;
  devices_AND := Model.AND;
  devices_NAND := Model.NAND;
  devices_OR := Model.OR;
  devices_NOR := Model.NOR;
  devices_CLOCK := Model.CLOCK;
  devices_SWITCH := Model.SWITCH;
  devices_SIGGEN := Model.SIGGEN;
  make_device := Model.make_device;
  get_device := Model.get_device;
  find_devices := Model.find_devices;
  network_DEVICE_ABSENT := Model.DEVICE_ABSENT;
  network_INPUT_CONNECTED := Model.INPUT_CONNECTED;
  network_INPUT_TO_INPUT := Model.INPUT_TO_INPUT;
  network_PORT_ABSENT := Model.PORT_ABSENT;
  network_OUTPUT_TO_OUTPUT := Model.OUTPUT_TO_OUTPUT;
  make_connection := Model.make_connection;
  check_network := Model.check_network;
  monitors_NO_ERROR := Model.MONITOR_OK;
  monitors_NOT_OUTPUT := Model.NOT_OUTPUT;
  monitors_MONITOR_PRESENT := Model.MONITOR_PRESENT;
  make_monitor := Model.make_monitor;
  get_signal_names := Model.get_signal_names
|}.

(** Parsing a file with the given contents, as [logsim.py] sets it up:
    fresh names, the scanner on the file, an empty network. *)
Definition run (contents : string) : Result (bool * Parser.t Model.t) :=
  let sc := Scanner.init (String.list_ascii_of_string contents) Names.init in
  Parser.parse_network sc (Model.init (Scanner.names sc)).


(** ** Invariants of the names table *)

Module NamesSpec.

Import Names.

(** The IDs in use are exactly those from 0 up to [num_items]. *)
Definition dense (self : t) : Prop :=
  0 ≤ num_items self
  ∧ ∀ i, is_Some (id_names self !! i) ↔ 0 ≤ i < num_items self.

(** One method call that does not ask for a negative number of error
    codes. *)
Inductive step_nonneg : t → t → Prop :=
| nonneg_lookup l self : step_nonneg self (lookup l self).2
| nonneg_codes n self :
    0 ≤ n → step_nonneg self (unique_error_codes n self).2.

(** No ID stands for the empty string. *)
Definition no_empty_name (self : t) : Prop :=
  ∀ i, id_names self !! i ≠ Some EmptyString.

End NamesSpec.

(** ** Runs of the scanner *)

Module ScannerRuns.

Import Scanner ScannerSpec.

(** One call of [get_symbol]. *)
Inductive call : t → t → Prop :=
| call_get_symbol s : call s (get_symbol s).2.

(** The states of the scanner of a file with the given contents: those
    that calls of [get_symbol] reach from [Scanner(path, names)]. *)
Definition scanning (contents : list ascii) (names : Names.t) (s : t)
  : Prop :=
  rtc call (init contents names) s.

(** Once [read] has returned the empty string the file has nothing
    left. *)
Definition at_end_empty (s : t) : Prop :=
  current_character s = None → FILE s = [].

(** The number of newline characters of a text. *)
Definition newlines (l : list ascii) : Z :=
  Z.of_nat (length (filter (λ c, c = NL) l)).

(** From [s] to [s'] the scanner has read the text [skipped] and counted
    its newlines. *)
Definition reads (s s' : t) : Prop :=
  ∃ skipped,
    pending s = skipped ++ pending s'
    ∧ line_number s' = line_number s + newlines skipped.

(** Each loop of the scanner reads on in the text, counts the newlines it
    reads and leaves nothing unread behind the end of the file. *)
Definition tracked (s s' : t) : Prop :=
  at_end_empty s → at_end_empty s' ∧ reads s s'.

(** The symbol that [get_symbol] returns at the end of the file. *)
Definition eof_symbol (s : t) : Symbol.t :=
  {| Symbol.type := Some Symbol.EOF; Symbol.id := PNone;
     Symbol.line_number := line_number s;
     Symbol.position := position s |}.

(** The IDs of the keywords are those under which the names table holds
    them. *)
Definition keywords_interned (s : t) : Prop :=
  Forall2 (λ w i, Names.query w (names s) = Some i)
    keywords_list (keyword_ids s).

End ScannerRuns.

(** ** Columns of the scanner *)

Module ScannerColumns.

Import Scanner ScannerSpec.

(** The position after the text [l] has been read from position [p]:
    [advance] adds one for each character, and a newline sets the
    position of the character after it to 1. *)
Fixpoint column_from (p : Z) (l : list ascii) : Z :=
  match l with
  | [] => p
  | c :: l' => column_from (if bool_decide (c = NL) then 1 else p + 1) l'
  end.

(** From [s] to [s'] the scanner has read the text [skipped], and,
    unless it has reached the end of the file, its position has moved
    with the text. *)
Definition reads_position (s s' : t) : Prop :=
  ∃ skipped,
    pending s = skipped ++ pending s'
    ∧ (pending s' ≠ [] → position s' = column_from (position s) skipped).

End ScannerColumns.

(** ** What the scanner skips *)

Module ScannerFiller.

Import Scanner ScannerSpec.

(** The texts that [get_symbol] skips before a symbol: blanks, newlines,
    line comments up to their newline, and block comments up to the first
    star-slash after their slash-star. *)
Inductive filler : list ascii → Prop :=
| filler_nil : filler []
| filler_blank c l :
    c = " "%char ∨ c = TAB ∨ c = NL → filler l → filler (c :: l)
| filler_line body l :
    NL ∉ body → filler l → filler ("#"%char :: body ++ NL :: l)
| filler_block body l :
    unterminated body → filler l →
    filler ("/"%char :: "*"%char :: body ++ "*"%char :: "/"%char :: l).

(** What the comment-stripping loop has read when it ends: filler up to
    the character at which the symbol is formed; or filler and a slash
    that opens no comment; or, in an unterminated comment, the rest of the
    file. *)
Definition skipped_filler (s : t) (r : stripped) : Prop :=
  match r with
  | Proceed _ s' => ∃ k, pending s = k ++ pending s' ∧ filler k
  | Returned sym' s' =>
      (∃ k, pending s = k ++ "/"%char :: pending s' ∧ filler k)
      ∨ Symbol.type sym' = Some Symbol.EOF
  end.

(** A text that does not start with a blank or a tab. *)
Definition no_blank_ahead (l : list ascii) : Prop :=
  ∀ c, head l = Some c → c ≠ " "%char ∧ c ≠ TAB.

End ScannerFiller.

(** ** Runs of the parser *)

Module ParserRuns.

Import Parser.

Section WithBackend.

Context {B : Type} `{Backend B}.

(** The parser is at work on the file with the given contents: its
    scanner is the scanner of that file, its symbol one that this scanner
    returned, and the names table holds no empty name. *)
Definition on_file (contents : list ascii) (nm : Names.t) (st : t B)
  : Prop :=
  ScannerRuns.scanning contents nm (scanner st)
  ∧ (∃ s0, ScannerRuns.scanning contents nm s0
           ∧ (Scanner.get_symbol s0).1 = Ok (symbol st))
  ∧ NamesSpec.no_empty_name (Scanner.names (scanner st)).

(** The four lines of a diagnostic: the message, the line number, the
    source line with the caret, and an empty line. *)
Definition block (d : string * Z * string) : list Output :=
  [Print d.1.1; PrintLine d.1.2; Print d.2; Print ""].

(** From [st] to [st'] the parser has printed diagnostics and nothing
    else, and has counted one error for each. *)
Definition reported (st st' : t B) : Prop :=
  ∃ ds,
    output st' = output st ++ concat (block <$> ds)
    ∧ error_count st' = error_count st + Z.of_nat (length ds).

Definition kept (contents : list ascii) (nm : Names.t) (st st' : t B)
  : Prop :=
  reported st st' ∧ (on_file contents nm st → on_file contents nm st').

(** A call made in state [st] returns a state that [kept] relates to
    [st], or, when the parser is at work on a file, raises nothing but
    the [TypeError] of [out_signame] and the [ValueError] of [int]. *)
Definition outcome {A : Type} (contents : list ascii) (nm : Names.t)
  (proj : A → t B) (st : t B) (r : Result A) : Prop :=
  match r with
  | Ok a => kept contents nm st (proj a)
  | Raise e => on_file contents nm st → e = TypeError ∨ e = ValueError
  | OutOfFuel => True
  end.

End WithBackend.

End ParserRuns.


(** * Properties *)

(** ** The names table *)

Section NamesFacts.

Import Names.

Lemma wf_init : wf init.
Proof. split; cbn; intros *; rewrite lookup_empty; discriminate. Qed.

Lemma wf_lookup_one x self : wf self → wf (lookup_one x self).2.
Proof.
  intros [Hn Hi Hb]. unfold lookup_one, query.
  destruct (names_id self !! x) as [j|] eqn:Hx; cbn; [by split|].
  split; cbn.
  - intros s i. rewrite lookup_insert. case_decide as Hs.
    + intros [= <-]. subst. by rewrite lookup_insert_eq.
    + intros Hsi. rewrite lookup_insert_ne; [by apply Hn|].
      intros <-. apply Hn, Hb in Hsi. lia.
  - intros i s. rewrite lookup_insert. case_decide as Hs.
    + intros [= <-]. subst. by rewrite lookup_insert_eq.
    + intros His. rewrite lookup_insert_ne; [by apply Hi|].
      intros <-. apply Hi in His. congruence.
  - intros i s. rewrite lookup_insert. case_decide as Hs.
    + intros _. lia.
    + intros His. apply Hb in His. lia.
Qed.

Lemma wf_lookup l self : wf self → wf (lookup l self).2.
Proof.
  revert self. induction l as [|x l IH]; intros self Hwf; [done|].
  cbn. pose proof (wf_lookup_one x self Hwf) as H1.
  destruct (lookup_one x self) as [i self1]. cbn in H1.
  specialize (IH self1 H1). by destruct (lookup l self1).
Qed.

Lemma wf_step self self' : step self self' → wf self → wf self'.
Proof.
  destruct 1; [apply wf_lookup|]. intros [Hn Hi Hb]. by split.
Qed.

Lemma wf_reaches self self' : reaches self self' → wf self → wf self'.
Proof. induction 1; eauto using wf_step. Qed.

Lemma wf_reachable self : reachable self → wf self.
Proof. intros Hr. eapply wf_reaches; [exact Hr | apply wf_init]. Qed.

(** An entry, once made, stays. *)
Lemma query_lookup_one x s i self :
  query s self = Some i → query s (lookup_one x self).2 = Some i.
Proof.
  unfold lookup_one, query. intros Hs.
  destruct (names_id self !! x) eqn:Hx; cbn; [done|].
  rewrite lookup_insert_ne; [done | congruence].
Qed.

Lemma query_lookup l s i self :
  query s self = Some i → query s (lookup l self).2 = Some i.
Proof.
  revert self. induction l as [|x l IH]; intros self Hs; [done|].
  cbn. pose proof (query_lookup_one x s i self Hs) as H1.
  destruct (lookup_one x self) as [j self1]. cbn in H1.
  specialize (IH self1 H1). by destruct (lookup l self1).
Qed.

Lemma query_step s i self self' :
  step self self' → query s self = Some i → query s self' = Some i.
Proof. destruct 1; [apply query_lookup | done]. Qed.

Lemma query_reaches s i self self' :
  reaches self self' → query s self = Some i → query s self' = Some i.
Proof. induction 1; eauto using query_step. Qed.

(** Interning a name that is present returns its ID and changes nothing. *)
Lemma lookup_present s i self :
  query s self = Some i → lookup [s] self = ([i], self).
Proof. intros Hs. cbn. unfold lookup_one. by rewrite Hs. Qed.

(** After interning [s] the table holds it, under the ID returned. *)
Lemma lookup_interns s self :
  ∃ i, (lookup [s] self).1 = [i] ∧ query s (lookup [s] self).2 = Some i.
Proof.
  cbn. unfold lookup_one.
  destruct (query s self) as [i|] eqn:Hs; cbn; [by exists i|].
  exists (num_items self). split; [done|]. unfold query. cbn.
  by rewrite lookup_insert_eq.
Qed.

(** C7. Name round trip: for every string [s], interning [s] with
    [lookup] and resolving the ID returned with [get_name_string] gives
    [s] again; and whatever is interned afterwards, interning [s] again
    returns that same ID (and leaves the table as it is), and the ID
    still resolves to [s]. *)
Theorem names_round_trip (self : Names.t) (s : string) :
  reachable self →
  ∃ i, (lookup [s] self).1 = [i]
       ∧ get_name_string (PInt i) (lookup [s] self).2 = Some s
       ∧ ∀ later, reaches (lookup [s] self).2 later →
           lookup [s] later = ([i], later)
           ∧ get_name_string (PInt i) later = Some s.
Proof.
  intros Hr. apply wf_reachable in Hr.
  destruct (lookup_interns s self) as (i & Hid & Hq).
  pose proof (wf_lookup [s] self Hr) as Hwf.
  exists i. split; [done|]. split.
  - cbn. by apply (wf_names_id _ Hwf).
  - intros later Hl. pose proof (query_reaches _ _ _ _ Hl Hq) as Hq'.
    split; [by apply lookup_present|].
    cbn. apply (wf_names_id later); [|done].
    eapply wf_reaches; eauto.
Qed.

Lemma names_round_trip_witness :
  ∃ i, (lookup ["S1"] (lookup ["DEVICES"; "END"] init).2).1 = [i]
       ∧ get_name_string (PInt i)
           (lookup ["S1"] (lookup ["DEVICES"; "END"] init).2).2 = Some "S1"
       ∧ ∀ later,
           reaches (lookup ["S1"] (lookup ["DEVICES"; "END"] init).2).2 later →
           lookup ["S1"] later = ([i], later)
           ∧ get_name_string (PInt i) later = Some "S1".
Proof.
  apply (names_round_trip (lookup ["DEVICES"; "END"] init).2 "S1").
  unfold reachable, reaches.
  eapply rtc_l; [apply (step_lookup ["DEVICES"; "END"]) | apply rtc_refl].
Defined.

End NamesFacts.

(** ** The scanner *)

Section ScannerFacts.

Import Scanner ScannerSpec.

Lemma frame_refl s : frame s s.
Proof. by split. Qed.

Lemma frame_trans s1 s2 s3 : frame s1 s2 → frame s2 s3 → frame s1 s3.
Proof.
  intros [] []. split; try congruence; [|lia].
  intros Hc. rewrite frame_stale1; [auto | congruence].
Qed.

Lemma frame_advance s : frame s (advance s).
Proof.
  split; try done.
  - cbn. by intros ->; rewrite orb_false_r.
  - unfold mu. cbn. destruct (FILE s), (current_character s); cbn; lia.
Qed.

Lemma frame_set_cursor l p s : frame s (set_cursor l p s).
Proof. by split. Qed.

Lemma mu_advance s c :
  current_character s = Some c → (mu (advance s) < mu s)%nat.
Proof. unfold mu. cbn. intros ->. destruct (FILE s); cbn; lia. Qed.

Lemma at_char_Some c s :
  at_char c s = true ↔ current_character s = Some c.
Proof. unfold at_char. by rewrite bool_decide_eq_true. Qed.

Lemma at_char_None c s : current_character s = None → at_char c s = false.
Proof. unfold at_char. intros ->. by apply bool_decide_eq_false. Qed.

Lemma budget_mu s : (mu s < budget s)%nat.
Proof. unfold mu, budget. destruct (current_character s); lia. Qed.

Lemma frame_advance' s0 s : frame s0 s → frame s0 (advance s).
Proof. eauto using frame_trans, frame_advance. Qed.

Lemma frame_set_cursor' l p s0 s : frame s0 s → frame s0 (set_cursor l p s).
Proof. eauto using frame_trans, frame_set_cursor. Qed.

Create HintDb scan.
#[local] Hint Resolve frame_refl frame_advance' frame_set_cursor' : scan.
#[local] Hint Extern 5 (frame _ ?s) =>
  is_var s; eapply frame_trans; [|eassumption] : scan.

(** *** [skip_spaces] *)

Lemma skip_spaces_loop_frame fuel s : frame s (skip_spaces_loop fuel s).
Proof.
  revert s. induction fuel as [|fuel IH]; intros s; cbn; [apply frame_refl|].
  destruct (at_char " " s || at_char TAB s); [|apply frame_refl].
  eapply frame_trans; [|apply IH].
  destruct (at_char TAB (advance s)); auto with scan.
Qed.

Lemma skip_spaces_frame s : frame s (skip_spaces s).
Proof. apply skip_spaces_loop_frame. Qed.

Lemma skip_spaces_frame' s0 s : frame s0 s → frame s0 (skip_spaces s).
Proof. eauto using frame_trans, skip_spaces_frame. Qed.

#[local] Hint Resolve skip_spaces_frame' : scan.

Lemma skip_spaces_loop_done fuel s :
  (mu s < fuel)%nat →
  at_char " " (skip_spaces_loop fuel s) = false
  ∧ at_char TAB (skip_spaces_loop fuel s) = false.
Proof.
  revert s. induction fuel as [|fuel IH]; intros s Hmu; [lia|]. cbn.
  destruct (at_char " " s || at_char TAB s) eqn:Hb.
  - apply IH.
    assert (∃ c, current_character s = Some c) as [c Hc].
    { apply orb_true_iff in Hb as [Hb|Hb]; apply at_char_Some in Hb; eauto. }
    pose proof (mu_advance s c Hc).
    destruct (at_char TAB (advance s)); [|lia].
    change (mu (set_cursor _ _ (advance s))) with (mu (advance s)). lia.
  - by apply orb_false_iff in Hb.
Qed.

Lemma skip_spaces_done s :
  at_char " " (skip_spaces s) = false ∧ at_char TAB (skip_spaces s) = false.
Proof. apply skip_spaces_loop_done, budget_mu. Qed.

(** *** [get_name] and the digit loop *)

Lemma get_name_loop_frame fuel acc s : frame s (get_name_loop fuel acc s).2.
Proof.
  revert acc s. induction fuel as [|fuel IH]; intros acc s; cbn;
    [apply frame_refl|].
  destruct (current_character s) as [c|]; [|apply frame_refl].
  destruct (isalnum c); [|apply frame_refl].
  eapply frame_trans; [apply frame_advance | apply IH].
Qed.

Lemma get_digits_loop_frame fuel acc s :
  frame s (get_digits_loop fuel acc s).2.
Proof.
  revert acc s. induction fuel as [|fuel IH]; intros acc s; cbn;
    [apply frame_refl|].
  destruct (current_character s) as [c|]; [|apply frame_refl].
  destruct (isdigit c); [|apply frame_refl].
  eapply frame_trans; [apply frame_advance | apply IH].
Qed.

Lemma get_name_loop_done fuel acc s :
  (mu s < fuel)%nat →
  ∀ c, current_character (get_name_loop fuel acc s).2 = Some c →
       isalnum c = false.
Proof.
  revert acc s. induction fuel as [|fuel IH]; intros acc s Hmu; [lia|]. cbn.
  destruct (current_character s) as [c|] eqn:Hc;
    [|by cbn; intros ?; rewrite Hc].
  destruct (isalnum c) eqn:Ha.
  - apply IH. pose proof (mu_advance s c Hc). lia.
  - cbn. intros ?. rewrite Hc. by intros [= <-].
Qed.

Lemma get_digits_loop_done fuel acc s :
  (mu s < fuel)%nat →
  ∀ c, current_character (get_digits_loop fuel acc s).2 = Some c →
       isdigit c = false.
Proof.
  revert acc s. induction fuel as [|fuel IH]; intros acc s Hmu; [lia|]. cbn.
  destruct (current_character s) as [c|] eqn:Hc;
    [|by cbn; intros ?; rewrite Hc].
  destruct (isdigit c) eqn:Ha.
  - apply IH. pose proof (mu_advance s c Hc). lia.
  - cbn. intros ?. rewrite Hc. by intros [= <-].
Qed.

(** A run that starts at a letter (or digit) reads at least it. *)
Lemma get_name_progress s c :
  current_character s = Some c → isalnum c = true →
  (mu (get_name s).2 < mu s)%nat.
Proof.
  intros Hc Ha. unfold get_name, budget.
  change (get_name_loop (S ?n) ?a s)
    with (match current_character s with
          | Some c =>
              if isalnum c
              then get_name_loop n (a +:+ String c EmptyString) (advance s)
              else (a, s)
          | None => (a, s)
          end).
  rewrite Hc, Ha.
  match goal with |- context [get_name_loop ?n ?a ?x] =>
    pose proof (frame_mu _ _ (get_name_loop_frame n a x)) end.
  pose proof (mu_advance s c Hc). lia.
Qed.

Lemma get_digits_progress s c :
  current_character s = Some c → isdigit c = true →
  (mu (get_digits s).2 < mu s)%nat.
Proof.
  intros Hc Ha. unfold get_digits, budget.
  change (get_digits_loop (S ?n) ?a s)
    with (match current_character s with
          | Some c =>
              if isdigit c
              then get_digits_loop n (a +:+ String c EmptyString) (advance s)
              else (a, s)
          | None => (a, s)
          end).
  rewrite Hc, Ha.
  match goal with |- context [get_digits_loop ?n ?a ?x] =>
    pose proof (frame_mu _ _ (get_digits_loop_frame n a x)) end.
  pose proof (mu_advance s c Hc). lia.
Qed.

(** *** The comment loops *)

Lemma block_comment_loop_frame fuel flag s :
  match block_comment_loop fuel flag s with
  | inl s' | inr s' => frame s s'
  end.
Proof.
  revert flag s. induction fuel as [|fuel IH]; intros flag s; cbn;
    [apply frame_refl|].
  destruct (at_char "/" s && negb flag); [apply frame_refl|].
  set (s1 := if at_char NL s then _ else s).
  assert (frame s s1) as H1
    by (subst s1; destruct (at_char NL s); auto with scan).
  destruct (current_character s1) as [c|] eqn:Hc1.
  - specialize (IH (negb (at_char "*" s1)) (advance s1)).
    destruct (block_comment_loop _ _ _) as [s'|s'];
      auto 8 with scan.
  - auto 8 with scan.
Qed.

Lemma line_comment_loop_frame fuel s :
  match line_comment_loop fuel s with
  | inl s' | inr s' => frame s s'
  end.
Proof.
  revert s. induction fuel as [|fuel IH]; intros s; cbn;
    [apply frame_refl|].
  destruct (at_char NL s); [apply frame_refl|].
  destruct (current_character s) as [c|] eqn:Hc1.
  - specialize (IH (advance s)).
    destruct (line_comment_loop _ _) as [s'|s'];
      auto 8 with scan.
  - auto 8 with scan.
Qed.

(** When the loop over a block comment is left, the scanner is at the
    closing slash; when the loop over a line comment is left, at the
    newline. *)
Lemma block_comment_loop_done fuel flag s s' :
  (mu s < fuel)%nat →
  block_comment_loop fuel flag s = inl s' → at_char "/" s' = true.
Proof.
  revert flag s. induction fuel as [|fuel IH]; intros flag s Hmu; [lia|].
  cbn. destruct (at_char "/" s && negb flag) eqn:Hx.
  { intros [= <-]. by apply andb_true_iff in Hx as [? _]. }
  set (s1 := if at_char NL s then _ else s).
  assert (mu s1 = mu s ∧ current_character s1 = current_character s)
    as [Hm Hc] by (subst s1; by destruct (at_char NL s)).
  destruct (current_character s1) as [c|] eqn:Hc1; [|done].
  apply IH. pose proof (mu_advance s1 c Hc1). lia.
Qed.

Lemma line_comment_loop_done fuel s s' :
  (mu s < fuel)%nat →
  line_comment_loop fuel s = inl s' → at_char NL s' = true.
Proof.
  revert s. induction fuel as [|fuel IH]; intros s Hmu; [lia|].
  cbn. destruct (at_char NL s) eqn:Hx; [by intros [= <-]|].
  destruct (current_character s) as [c|] eqn:Hc1; [|done].
  apply IH. pose proof (mu_advance s c Hc1). lia.
Qed.

(** A line comment, left at its newline, has read the [#] at least. *)
Lemma line_comment_loop_S n s :
  line_comment_loop (S n) s =
  if at_char NL s then inl s
  else match current_character s with
       | None => inr (advance s)
       | Some _ => line_comment_loop n (advance s)
       end.
Proof. reflexivity. Qed.

Lemma line_comment_progress s s' :
  at_char "#" s = true →
  line_comment_loop (budget s) s = inl s' → (mu s' < mu s)%nat.
Proof.
  intros Hc. apply at_char_Some in Hc. unfold budget.
  rewrite line_comment_loop_S.
  replace (at_char NL s) with false
    by (symmetry; apply bool_decide_eq_false; rewrite Hc; by intros [=]).
  rewrite Hc.
  pose proof (line_comment_loop_frame (S (length (FILE s))) (advance s)) as H.
  intros Heq. rewrite Heq in H.
  pose proof (mu_advance s _ Hc). pose proof (frame_mu _ _ H). lia.
Qed.

(** *** The comment-stripping loop *)

Lemma strip_loop_S n symbol self :
  strip_loop (S n) symbol self =
  if at_char "/" self then
    let symbol :=
      Symbol.set_place (line_number self) (position self) symbol in
    let self := advance self in
    if at_char "*" self then
      let self := advance self in
      match block_comment_loop (budget self) true self with
      | inr self => Returned (Symbol.set_type Symbol.EOF symbol) self
      | inl self => strip_loop n symbol (skip_spaces (advance self))
      end
    else Returned symbol self
  else if at_char "#" self then
    match line_comment_loop (budget self) self with
    | inr self => Returned (Symbol.set_type Symbol.EOF symbol) self
    | inl self => strip_loop n symbol (skip_spaces self)
    end
  else if at_char NL self then
    strip_loop n symbol
      (skip_spaces (advance (set_cursor (line_number self + 1) 0 self)))
  else Proceed symbol self.
Proof. reflexivity. Qed.

Lemma strip_loop_spec fuel sym s :
  match strip_loop fuel sym s with
  | Proceed sym' s' => frame s s' ∧ same_content sym sym'
  | Returned sym' s' =>
      frame s s' ∧ Symbol.id sym' = Symbol.id sym
      ∧ (Symbol.type sym' = Some Symbol.EOF
         ∨ Symbol.type sym' = Symbol.type sym ∧ (mu s' < mu s)%nat)
  end.
Proof.
  revert sym s. induction fuel as [|fuel IH]; intros sym s;
    [by split; [apply frame_refl|] |].
  rewrite strip_loop_S. cbv zeta.
  destruct (at_char "/" s) eqn:Hslash.
  { apply at_char_Some in Hslash. pose proof (mu_advance s _ Hslash) as Hlt.
    destruct (at_char "*" (advance s)).
    - pose proof (block_comment_loop_frame
        (budget (advance (advance s))) true (advance (advance s))) as Hb.
      destruct (block_comment_loop _ _ _) as [s1|s1].
      + specialize (IH (Symbol.set_place (line_number s) (position s) sym)
          (skip_spaces (advance s1))).
        assert (frame s (skip_spaces (advance s1))) as Hf
          by auto 8 with scan.
        destruct (strip_loop _ _ _) as [sym' s'|sym' s'].
        * destruct IH as (Hf' & Hid & Hty). split_and!;
            [auto 8 with scan | done |].
          destruct Hty as [?|[? Hm]]; [by left | right; split; [done|]].
          pose proof (frame_mu _ _ Hf). lia.
        * destruct IH as (Hf' & Hty & Hid). split; [auto 8 with scan|].
          by split.
      + split_and!; [auto 8 with scan | done | by left].
    - split_and!; [auto with scan | done | by right]. }
  destruct (at_char "#" s) eqn:Hhash.
  { pose proof (line_comment_loop_frame (budget s) s) as Hl.
    destruct (line_comment_loop _ _) as [s1|s1] eqn:Hloop.
    - pose proof (line_comment_progress _ _ Hhash Hloop) as Hlt.
      specialize (IH sym (skip_spaces s1)).
      assert (frame s1 (skip_spaces s1)) as Hf by apply skip_spaces_frame.
      destruct (strip_loop _ _ _) as [sym' s'|sym' s'].
      + destruct IH as (Hf' & Hid & Hty). split_and!;
          [auto 8 with scan | done |].
        destruct Hty as [?|[? Hm]]; [by left | right; split; [done|]].
        pose proof (frame_mu _ _ Hf). lia.
      + destruct IH as (Hf' & Hc). split; [auto 8 with scan | done].
    - split_and!; [done | done | by left]. }
  destruct (at_char NL s) eqn:Hnl; [|by split; [apply frame_refl|]].
  apply at_char_Some in Hnl.
  set (s1 := skip_spaces _).
  assert (frame s s1) as Hf
    by (subst s1; auto 8 with scan).
  specialize (IH sym s1).
  destruct (strip_loop _ _ _) as [sym' s'|sym' s'].
  - destruct IH as (Hf' & Hid & Hty). split_and!;
      [auto 8 with scan | done |].
    destruct Hty as [?|[? Hm]]; [by left | right; split; [done|]].
    pose proof (frame_mu _ _ Hf). lia.
  - destruct IH as (Hf' & Hc). split; [auto 8 with scan | done].
Qed.

(** The loop is left at a character that starts a token (or at the end
    of the file): the measure it is run on is enough. *)
Lemma strip_loop_done fuel sym s sym' s' :
  (mu s < fuel)%nat →
  at_char " " s = false → at_char TAB s = false →
  strip_loop fuel sym s = Proceed sym' s' →
  at_char "/" s' = false ∧ at_char "#" s' = false ∧ at_char NL s' = false
  ∧ at_char " " s' = false ∧ at_char TAB s' = false.
Proof.
  revert sym s. induction fuel as [|fuel IH]; intros sym s Hmu Hsp Htab;
    [lia|].
  rewrite strip_loop_S. cbv zeta.
  destruct (at_char "/" s) eqn:Hslash.
  { apply at_char_Some in Hslash. pose proof (mu_advance s _ Hslash) as Hlt.
    destruct (at_char "*" (advance s)); [|done].
    pose proof (block_comment_loop_frame
      (budget (advance (advance s))) true (advance (advance s))) as Hb.
    destruct (block_comment_loop _ _ _) as [s1|s1]; [|done].
    assert (frame (advance s) (skip_spaces (advance s1))) as Hf
      by auto 8 with scan.
    apply IH; [|apply skip_spaces_done..].
    pose proof (frame_mu _ _ Hf). lia. }
  destruct (at_char "#" s) eqn:Hhash.
  { destruct (line_comment_loop _ _) as [s1|s1] eqn:Hloop; [|done].
    pose proof (line_comment_progress _ _ Hhash Hloop) as Hlt.
    apply IH; [|apply skip_spaces_done..].
    pose proof (frame_mu _ _ (skip_spaces_frame s1)). lia. }
  destruct (at_char NL s) eqn:Hnl; [|by intros [= <- <-]].
  apply at_char_Some in Hnl.
  apply IH; [|apply skip_spaces_done..].
  set (s1 := set_cursor _ _ s).
  pose proof (frame_mu _ _ (skip_spaces_frame (advance s1))).
  pose proof (mu_advance s1 NL Hnl).
  change (mu s1) with (mu s) in *. lia.
Qed.

Lemma strip_frame s :
  match strip s with
  | Proceed sym' s' =>
      frame s s' ∧ Symbol.type sym' = None ∧ Symbol.id sym' = PNone
  | Returned sym' s' =>
      frame s s' ∧ Symbol.id sym' = PNone
      ∧ (Symbol.type sym' = Some Symbol.EOF
         ∨ Symbol.type sym' = None ∧ (mu s' < mu s)%nat)
  end.
Proof.
  unfold strip.
  pose proof (strip_loop_spec (budget (skip_spaces s)) Symbol.init
                (skip_spaces s)) as H.
  pose proof (skip_spaces_frame s) as Hf.
  destruct (strip_loop _ _ _) as [sym' s'|sym' s'].
  - destruct H as (H1 & H2 & H3). split_and!; [auto with scan | done |].
    destruct H3 as [?|[? ?]]; [by left | right; split; [done|]].
    pose proof (frame_mu _ _ Hf). lia.
  - destruct H as (H1 & H2 & H3). split_and!; [auto with scan | done..].
Qed.

Lemma strip_done s sym' s' :
  strip s = Proceed sym' s' →
  at_char "/" s' = false ∧ at_char "#" s' = false ∧ at_char NL s' = false
  ∧ at_char " " s' = false ∧ at_char TAB s' = false.
Proof.
  unfold strip. apply strip_loop_done;
    [apply budget_mu | apply skip_spaces_done..].
Qed.

(** *** [get_symbol] *)

Lemma isalpha_isalnum c : isalpha c = true → isalnum c = true.
Proof. unfold isalnum. by intros ->. Qed.

Lemma isdigit_isalnum c : isdigit c = true → isalnum c = true.
Proof. unfold isalnum. intros ->. by rewrite !orb_true_r. Qed.

Lemma fmap_Ok {A C : Type} (f : A → C) (r : Result A) (y : C) :
  f <$> r = Ok y ↔ ∃ x, r = Ok x ∧ f x = y.
Proof.
  destruct r as [x| |]; cbn; split; try done.
  - intros [= <-]. by exists x.
  - by intros (? & [= <-] & <-).
  - by intros (? & ? & _).
  - by intros (? & ? & _).
Qed.

(** [int] returns or raises. *)
Lemma int_result s : int s ≠ OutOfFuel.
Proof. unfold int. by case_match. Qed.

Lemma bind_result {A C : Type} (r : Result A) (k : A → C) :
  r ≠ OutOfFuel → (a ← r; Ok (k a)) ≠ OutOfFuel.
Proof. by destruct r. Qed.

Lemma frame_scanned s r s' :
  frame s s' → (mu s' < mu s)%nat → r ≠ OutOfFuel →
  scanned s r s'.
Proof.
  intros [] Hp Hr. split; try done; [by right|].
  intros Hc Hc'. congruence.
Qed.

Lemma tokenise_scanned sym s :
  scanned s (tokenise sym s).1 (tokenise sym s).2.
Proof.
  unfold tokenise.
  destruct (current_character s) as [c|] eqn:Hc; cycle 1.
  { cbn. split; cbn; try done; [left; by eexists|]. by intros _ _. }
  destruct (isalpha c) eqn:Halpha.
  { pose proof (get_name_progress s c Hc (isalpha_isalnum c Halpha)) as Hlt.
    pose proof (get_name_loop_frame (budget s) "" s) as Hf.
    fold (get_name s) in Hf.
    destruct (get_name s) as [name_str s1]. cbn in Hlt, Hf.
    destruct (Names.lookup _ _) as [ids nm]. cbn.
    destruct Hf.
    split; cbn;
      [done | done | unfold mu in *; cbn in *; lia
      | right; unfold mu in *; cbn in *; lia | done | done |].
    intros Hcl Hcl'. cbn in Hcl'. congruence. }
  destruct (isdigit c) eqn:Hdigit.
  { pose proof (get_digits_progress s c Hc Hdigit) as Hlt.
    pose proof (get_digits_loop_frame (budget s) "" s) as Hf.
    fold (get_digits s) in Hf.
    unfold get_waveform, get_bit, get_number.
    destruct (get_digits s) as [num_str s1]. cbn in Hlt, Hf.
    assert (∀ r, r ≠ OutOfFuel → scanned s r s1) as Hs
      by (intros; apply frame_scanned; auto).
    repeat case_bool_decide; [by apply Hs| |].
    - destruct (1 <? _); cbn [fst snd]; apply Hs; [done|].
      apply bind_result, int_result.
    - cbn [fst snd]. apply Hs, bind_result, int_result. }
  pose proof (mu_advance s c Hc).
  destruct (punctuation c); cbn; apply frame_scanned;
    auto using frame_advance.
Qed.

Lemma get_symbol_scanned s : scanned s (get_symbol s).1 (get_symbol s).2.
Proof.
  unfold get_symbol. pose proof (strip_frame s) as H.
  destruct (strip s) as [sym' s'|sym' s'].
  - destruct H as (Hf & _ & Hp). cbn [fst snd].
    destruct Hp as [?|[_ ?]]; [|by apply frame_scanned].
    destruct Hf. split; try done; [left; by eexists|].
    intros Hc Hc'. congruence.
  - destruct H as (Hf & _). pose proof (tokenise_scanned sym' s') as Ht.
    destruct (tokenise sym' s') as [r1 s1]. cbn in *.
    destruct Hf, Ht. split; try congruence; try lia.
    + destruct scanned_progress0; [by left | right; lia].
    + intros Hc. rewrite scanned_stale0; [auto | congruence].
    + intros Hc. apply scanned_closed0. congruence.
Qed.

Lemma skip_spaces_id s :
  at_char " " s = false → at_char TAB s = false → skip_spaces s = s.
Proof.
  intros H1 H2. unfold skip_spaces, budget. cbn [skip_spaces_loop].
  by rewrite H1, H2.
Qed.

Lemma strip_loop_proceed n sym s :
  at_char "/" s = false → at_char "#" s = false → at_char NL s = false →
  strip_loop (S n) sym s = Proceed sym s.
Proof. intros H1 H2 H3. rewrite strip_loop_S. by rewrite H1, H2, H3. Qed.

(** At the end of the file [get_symbol] returns the end of the file
    without reading, and closes the file. *)
Lemma get_symbol_at_end s :
  current_character s = None →
  get_symbol s =
    (Ok {| Symbol.type := Some Symbol.EOF; Symbol.id := PNone;
           Symbol.line_number := line_number s;
           Symbol.position := position s |}, close s).
Proof.
  intros Hc. unfold get_symbol, strip.
  rewrite skip_spaces_id by by apply at_char_None.
  unfold budget. rewrite strip_loop_proceed by by apply at_char_None.
  unfold tokenise. by rewrite Hc.
Qed.

(** No read of a closed file is ever attempted: the [ValueError] that
    [FILE.read] would raise does not happen. *)
Lemma get_symbol_no_stale_read s :
  closed_at_end s → stale_read s = false →
  closed_at_end (get_symbol s).2 ∧ stale_read (get_symbol s).2 = false.
Proof.
  intros Hce Hst. destruct (closed s) eqn:Hcl.
  - rewrite get_symbol_at_end by auto. cbn. split; [|done].
    intros _. cbn. auto.
  - destruct (get_symbol_scanned s). split; [auto|].
    rewrite scanned_stale0; auto.
Qed.

Lemma init_closed_at_end contents names :
  closed_at_end (init contents names)
  ∧ stale_read (init contents names) = false.
Proof.
  unfold init. destruct (Names.lookup _ _). split; [|done].
  by intros [=].
Qed.

End ScannerFacts.

(** ** Claims about the scanner *)

Section ScannerClaims.

Import Scanner ScannerSpec.

Lemma append_cons (a : ascii) (s1 s2 : string) :
  String a s1 +:+ s2 = String a (s1 +:+ s2).
Proof. reflexivity. Qed.

Lemma append_snoc (acc : string) (c : ascii) (s : string) :
  (acc +:+ String c EmptyString) +:+ s = acc +:+ String c s.
Proof.
  induction acc as [|a acc IH]; [done|].
  by rewrite !append_cons, IH.
Qed.

Lemma length_string_of_chars l :
  String.length (string_of_chars l) = length l.
Proof. induction l as [|c l IH]; simpl; [done | by f_equal]. Qed.

Lemma isdigit_not_alpha c : isdigit c = true → isalpha c = false.
Proof. destruct c as [[] [] [] [] [] [] [] []]; by vm_compute. Qed.

Lemma isdigit_not_punctuation c : isdigit c = true → punctuation c = None.
Proof.
  intros Hd. unfold punctuation.
  repeat case_bool_decide; subst; try done; by vm_compute in Hd.
Qed.

Lemma get_digits_loop_S n acc s :
  get_digits_loop (S n) acc s =
  match current_character s with
  | Some c =>
      if isdigit c
      then get_digits_loop n (acc +:+ String c EmptyString) (advance s)
      else (acc, s)
  | None => (acc, s)
  end.
Proof. reflexivity. Qed.

(** The digit loop reads exactly the maximal run of digits at the
    cursor. *)
Lemma get_digits_loop_run ds : ∀ fuel acc s d rest,
  current_character s = Some d → isdigit d = true →
  FILE s = ds ++ rest →
  Forall (λ c, isdigit c = true) ds →
  (∀ c, head rest = Some c → isdigit c = false) →
  (length ds + 2 ≤ fuel)%nat →
  get_digits_loop fuel acc s =
    (acc +:+ string_of_chars (d :: ds), Nat.iter (S (length ds)) advance s).
Proof.
  induction ds as [|d' ds IH]; intros fuel acc s d rest Hc Hd HF Hds Hrest Hfuel.
  - destruct fuel as [|[|fuel]]; [cbn in Hfuel; lia..|].
    rewrite get_digits_loop_S, Hc, Hd, get_digits_loop_S. cbn.
    cbn in HF. rewrite HF.
    destruct (head rest) as [c|] eqn:Hh; [|done].
    by rewrite (Hrest c).
  - destruct fuel as [|fuel]; [cbn in Hfuel; lia|].
    rewrite get_digits_loop_S, Hc, Hd.
    apply Forall_cons in Hds as [Hd' Hds].
    rewrite (IH fuel _ (advance s) d' rest);
      [| by cbn; rewrite HF | done | by cbn; rewrite HF | done | done
       | cbn in Hfuel; lia].
    rewrite append_snoc. f_equal. cbn [length].
    symmetry. apply Nat.iter_succ_r.
Qed.

Lemma get_digits_run s d ds rest :
  current_character s = Some d → isdigit d = true →
  FILE s = ds ++ rest →
  Forall (λ c, isdigit c = true) ds →
  (∀ c, head rest = Some c → isdigit c = false) →
  get_digits s =
    (string_of_chars (d :: ds), Nat.iter (S (length ds)) advance s).
Proof.
  intros Hc Hd HF Hds Hrest. unfold get_digits.
  rewrite (get_digits_loop_run ds _ _ s d rest); try done.
  unfold budget. rewrite HF, length_app. lia.
Qed.





(** C4, at the failing input.  The superscript two is a digit for
    [str.isdigit] and no numeral for [int]: after SWITCH, on the run of
    the one digit [²], [get_bit] raises [ValueError] and [get_symbol]
    returns no NUMBER.  (On [1²] the run has two digits, and the NUMBER
    returned has the id 2, as for every run of two or more.) *)
Theorem switch_bit_superscript_raises :
  let superscript_two : ascii := "178"%char in
  let file (digits : list ascii) :=
    init (String.list_ascii_of_string "SWITCH " ++ digits ++ [","%char])
      Names.init in
  let after_switch (digits : list ascii) := (get_symbol (file digits)).2 in
  isdigit superscript_two = true
  ∧ name_string (after_switch [superscript_two]) = "SWITCH"
  ∧ (get_symbol (after_switch [superscript_two])).1 = Raise ValueError
  ∧ Symbol.id <$> (get_symbol (after_switch ["1"%char; superscript_two])).1
    = Ok (PInt 2).
Proof. vm_compute. done. Qed.

(** The claim of C5 fails on a file that holds an opening bracket only:
    the symbol returned has none of the nine kinds. *)
Lemma get_symbol_bracket_has_no_kind :
  Symbol.type <$> (get_symbol (init ["["]%char Names.init)).1 = Ok None.
Proof. vm_compute. reflexivity. Qed.

(** When the scanner, having skipped blanks and comments, is at a
    character that is no letter, no digit and no punctuation mark,
    [get_symbol] reads that one character and returns a symbol whose
    type is [None], placed at the character. *)
Lemma get_symbol_other_character s sym1 s1 c :
  strip s = Proceed sym1 s1 →
  current_character s1 = Some c →
  isalpha c = false → isdigit c = false → punctuation c = None →
  get_symbol s =
    (Ok {| Symbol.type := None; Symbol.id := PNone;
           Symbol.line_number := line_number s1;
           Symbol.position := position s1 |}, advance s1).
Proof.
  intros Hstrip Hc Ha Hd Hp.
  pose proof (strip_frame s) as Hf. unfold get_symbol.
  rewrite Hstrip in *. destruct Hf as (_ & Hty & Hid).
  unfold tokenise. rewrite Hc, Ha, Hd, Hp.
  unfold Symbol.set_place. cbn. by rewrite Hty, Hid.
Qed.

Lemma skip_spaces_loop_S n s :
  skip_spaces_loop (S n) s =
  if at_char " " s || at_char TAB s then
    skip_spaces_loop n
      (if at_char TAB (advance s)
       then set_cursor (line_number (advance s))
              (position (advance s) + 3) (advance s)
       else advance s)
  else s.
Proof. reflexivity. Qed.

(** A tab at the head of a run of blanks moves the column by one. *)
Lemma skip_spaces_leading_tab s c :
  current_character s = Some TAB → head (FILE s) = Some c →
  c ≠ " "%char → c ≠ TAB →
  position (skip_spaces s) = position s + 1.
Proof.
  intros Hc Hh Hsp Htab. unfold skip_spaces, budget.
  assert (at_char TAB s = true) as H1 by by apply at_char_Some.
  assert (at_char TAB (advance s) = false) as H2
    by (apply bool_decide_eq_false; cbn; rewrite Hh; congruence).
  assert (at_char " " (advance s) = false) as H3
    by (apply bool_decide_eq_false; cbn; rewrite Hh; congruence).
  rewrite skip_spaces_loop_S, H1, orb_true_r, H2.
  by rewrite skip_spaces_loop_S, H2, H3.
Qed.

(** C6, at the failing input. In the file [<tab>A] the name [A] is
    reported at column 2, not 5: the one tab before it moved the column
    by 1.  A tab that follows a blank moves it by 4: in [<space><tab>A]
    the name is at column 6, in [<tab><tab>A] at column 6 as well
    (1 + 4), not 9. *)
Theorem leading_tab_moves_column_by_one :
  Symbol.position
    <$> (get_symbol (init [TAB; "A"%char] Names.init)).1 = Ok 2
  ∧ Symbol.position
      <$> (get_symbol (init [" "%char; TAB; "A"%char] Names.init)).1 = Ok 6
  ∧ Symbol.position
      <$> (get_symbol (init [TAB; TAB; "A"%char] Names.init)).1 = Ok 6.
Proof. repeat split; vm_compute; reflexivity. Qed.

(** *** Unterminated block comments *)

Lemma closes_inv p l :
  closes p l = true →
  (p = true ∧ head l = Some "/"%char)
  ∨ ∃ pre post, l = pre ++ ["*"; "/"]%char ++ post.
Proof.
  revert p. induction l as [|c l IH]; intros p; [done|]. cbn.
  intros [H|H]%orb_true_iff.
  - apply andb_true_iff in H as [-> ->%bool_decide_eq_true]. by left.
  - right. destruct (IH _ H) as [[->%bool_decide_eq_true Hh]|(pre & post & ->)].
    + destruct l as [|c' l]; [done|]. cbn in Hh. injection Hh as ->.
      by exists [], l.
    + by exists (c :: pre), post.
Qed.

Lemma unterminated_closes body : unterminated body → closes false body = false.
Proof.
  intros Hu. destruct (closes false body) eqn:Hc; [|done].
  apply closes_inv in Hc as [[? _]|(pre & post & ->)]; [done|].
  by destruct (Hu pre post).
Qed.

Lemma closes_complete pre post : ∀ p,
  closes p (pre ++ ["*"; "/"]%char ++ post) = true.
Proof.
  induction pre as [|c pre IH]; intros p; cbn.
  - apply orb_true_r.
  - rewrite IH. apply orb_true_r.
Qed.

Lemma closes_unterminated body : closes false body = false → unterminated body.
Proof.
  intros Hc pre post ->. by rewrite closes_complete in Hc.
Qed.

Lemma at_char_eq c c0 s :
  current_character s = Some c0 → at_char c s = bool_decide (c0 = c).
Proof.
  intros Hc. unfold at_char. rewrite Hc.
  apply bool_decide_ext. split; congruence.
Qed.

Lemma block_comment_loop_S n comment_flag self :
  block_comment_loop (S n) comment_flag self =
  if at_char "/" self && negb comment_flag then inl self
  else
    let self :=
      if at_char NL self
      then set_cursor (line_number self + 1) 0 self
      else self in
    let comment_flag := negb (at_char "*" self) in
    match current_character self with
    | None => inr (advance self)
    | Some _ => block_comment_loop n comment_flag (advance self)
    end.
Proof. reflexivity. Qed.

Lemma pending_advance s c :
  current_character s = Some c → pending (advance s) = FILE s.
Proof. intros _. unfold pending. cbn. by destruct (FILE s). Qed.

(** On a text without a closing star-slash the loop over a block
    comment runs into the end of the file. *)
Lemma block_comment_loop_unterminated fuel : ∀ flag s,
  closes (negb flag) (pending s) = false →
  (length (pending s) < fuel)%nat →
  ∃ s', block_comment_loop fuel flag s = inr s'.
Proof.
  induction fuel as [|fuel IH]; intros flag s Hcl Hlen; [lia|].
  rewrite block_comment_loop_S. cbv zeta. unfold pending in Hcl, Hlen.
  destruct (current_character s) as [c|] eqn:Hc.
  - cbn in Hcl, Hlen. apply orb_false_iff in Hcl as [Hcl1 Hcl2].
    rewrite (at_char_eq _ c s Hc), andb_comm, Hcl1.
    set (s1 := if at_char NL s then _ else s).
    assert (current_character s1 = Some c ∧ FILE s1 = FILE s) as [Hc1 HF1]
      by (subst s1; by destruct (at_char NL s)).
    rewrite Hc1. apply IH.
    + rewrite (pending_advance s1 c Hc1), HF1, negb_involutive.
      by rewrite (at_char_eq _ c s1 Hc1).
    + rewrite (pending_advance s1 c Hc1), HF1. lia.
  - rewrite !(at_char_None _ s Hc). cbn. rewrite Hc. eauto.
Qed.

(** C9, at the failing inputs. When the file ends inside a line comment
    or inside a block comment, [get_symbol] returns EOF and the file is
    still open; only when the end of the file is met outside a comment
    is the file closed. *)
Theorem eof_in_comment_leaves_file_open :
  let line := get_symbol (init (String.list_ascii_of_string "# c") Names.init) in
  let block := get_symbol (init (String.list_ascii_of_string "/* c") Names.init) in
  let top := get_symbol (init (String.list_ascii_of_string " ") Names.init) in
  (Symbol.type <$> line.1 = Ok (Some Symbol.EOF) ∧ closed line.2 = false)
  ∧ (Symbol.type <$> block.1 = Ok (Some Symbol.EOF)
     ∧ closed block.2 = false)
  ∧ (Symbol.type <$> top.1 = Ok (Some Symbol.EOF) ∧ closed top.2 = true).
Proof. vm_compute. done. Qed.

(** The part of C9 that holds: the end of the file met outside a
    comment closes the file. *)
Lemma get_symbol_eof_closes s sym1 s1 :
  strip s = Proceed sym1 s1 → current_character s1 = None →
  Symbol.type <$> (get_symbol s).1 = Ok (Some Symbol.EOF)
  ∧ closed (get_symbol s).2 = true.
Proof.
  intros Hs Hc. unfold get_symbol. rewrite Hs. unfold tokenise.
  by rewrite Hc.
Qed.

(** A [return] from inside the comment loop never closes the file. *)
Lemma get_symbol_returned_keeps_handle s sym' s' :
  strip s = Returned sym' s' →
  get_symbol s = (Ok sym', s') ∧ closed s' = closed s.
Proof.
  intros Hs. pose proof (strip_frame s) as Hf. unfold get_symbol.
  rewrite Hs in *. destruct Hf as (Hf & _). split; [done|].
  apply (frame_closed _ _ Hf).
Qed.

(** *** [print_error] *)

(** C10, at the failing input. For a symbol with line number 0, on the
    scanner of an empty file (no line is stored), [print_error] does not
    return "Line number out of range.": the [elif] branch compares the
    line number with the number of lines, 0, and indexes the empty list
    at -1, which raises [IndexError]. *)
Theorem print_error_line_zero_no_lines :
  print_error
    {| Symbol.type := None; Symbol.id := PNone;
       Symbol.line_number := 0; Symbol.position := 1 |}
    (init [] Names.init) = Raise IndexError.
Proof. vm_compute. reflexivity. Qed.

Lemma py_index_in_range {A} (l : list A) (i : Z) :
  0 ≤ i < Z.of_nat (length l) →
  ∃ x, l !! Z.to_nat i = Some x ∧ py_index l i = Ok x.
Proof.
  intros Hi. unfold py_index.
  replace (i <? 0) with false by (symmetry; apply Z.ltb_ge; lia).
  replace ((0 <=? i) && (i <? Z.of_nat (length l))) with true
    by (symmetry; apply andb_true_iff; split;
        [apply Z.leb_le | apply Z.ltb_lt]; lia).
  destruct (lookup_lt_is_Some_2 l (Z.to_nat i)) as [x Hx]; [lia|].
  exists x. by rewrite Hx.
Qed.




End ScannerClaims.

(** ** The parser *)

Section ParserFacts.

Import Symbol Parser ParserSpec.
Context {B : Type} `{Backend B}.

Implicit Types self st : t B.

Lemma ends_with_bind {A C : Type} (P : A → Prop) (Q : C → Prop)
  (r : Result A) (k : A → Result C) :
  ends_with P r → (∀ a, P a → ends_with Q (k a)) →
  ends_with Q (r ≫= k).
Proof. destruct r; cbn; auto. Qed.

Lemma ends_with_mono {A : Type} (P Q : A → Prop) (r : Result A) :
  ends_with P r → (∀ a, P a → Q a) → ends_with Q r.
Proof. destruct r; cbn; auto. Qed.

Lemma advanced_refl st : advanced st st.
Proof. by split. Qed.

Lemma advanced_trans st1 st2 st3 :
  advanced st1 st2 → advanced st2 st3 → advanced st1 st3.
Proof. intros [] []. split; [lia | lia | congruence..]. Qed.

(** [read_symbol] returns or raises what [get_symbol] raises. *)
Lemma read_symbol_ends st :
  ends_with (λ st', read_symbol st = Ok st') (read_symbol st).
Proof.
  unfold read_symbol.
  pose proof (ScannerSpec.scanned_result _ _ _
                (get_symbol_scanned (scanner st))) as Hr.
  by destruct (Scanner.get_symbol (scanner st)) as [[sym| |] sc].
Qed.

(** What [read_symbol] returns: the parser with the next symbol and the
    scanner behind it, and nothing else changed. *)
Lemma read_symbol_Ok st st' :
  read_symbol st = Ok st' →
  (Scanner.get_symbol (scanner st)).1 = Ok (symbol st')
  ∧ scanner st' = (Scanner.get_symbol (scanner st)).2
  ∧ backend st' = backend st ∧ parent st' = parent st
  ∧ error_count st' = error_count st ∧ output st' = output st.
Proof.
  unfold read_symbol.
  destruct (Scanner.get_symbol (scanner st)) as [[sym| |] sc]; [|done..].
  by intros [= <-].
Qed.

Lemma measure_read_symbol st st' :
  read_symbol st = Ok st' →
  (measure st' ≤ measure st)%nat
  ∧ (at_type EOF st = false → (measure st' < measure st)%nat).
Proof.
  intros (Hsym & Hsc & _)%read_symbol_Ok.
  unfold measure, at_type. rewrite Hsc.
  pose proof (get_symbol_scanned (scanner st)) as Hs.
  destruct (Scanner.get_symbol (scanner st)) as [r sc].
  cbn [fst snd] in *. subst r.
  destruct Hs as [_ _ Hmu Hp _ _ _].
  assert (Symbol.has_type EOF (symbol st') = false →
          (ScannerSpec.mu sc < ScannerSpec.mu (scanner st))%nat) as Hlt.
  { intros Hn. destruct Hp as [(sym & [= <-] & Hp)|]; [|done].
    unfold Symbol.has_type in Hn. by rewrite bool_decide_eq_true_2 in Hn. }
  destruct (Symbol.has_type EOF (symbol st'));
    destruct (Symbol.has_type EOF (symbol st));
    split; intros; try done; try lia; specialize (Hlt eq_refl); lia.
Qed.

Lemma advanced_read_symbol st0 st st' :
  advanced st0 st → read_symbol st = Ok st' → advanced st0 st'.
Proof.
  intros Ha Hrd. eapply advanced_trans; [exact Ha|].
  pose proof (measure_read_symbol _ _ Hrd) as [Hm _].
  apply read_symbol_Ok in Hrd as (_ & Hsc & _ & _ & Hc & _).
  pose proof (get_symbol_scanned (scanner st)) as Hs.
  split; [done | lia | rewrite Hsc; by destruct Hs..].
Qed.

Lemma advanced_set_parent p st0 st :
  advanced st0 st → advanced st0 (set_parent p st).
Proof. intros []. by split. Qed.

Lemma advanced_set_backend b st0 st :
  advanced st0 st → advanced st0 (set_backend b st).
Proof. intros []. by split. Qed.

Lemma advanced_count_error st0 st :
  advanced st0 st → advanced st0 (count_error st).
Proof. intros []. split; try done. cbn. lia. Qed.

Lemma advanced_print o st0 st : advanced st0 st → advanced st0 (print o st).
Proof. intros []. by split. Qed.

Create HintDb parse.
#[local] Hint Resolve advanced_refl advanced_set_parent
  advanced_set_backend advanced_count_error advanced_print : parse.
#[local] Hint Extern 4 (advanced ?s0 ?s') =>
  match goal with
  | Hrd : read_symbol ?s = Ok s' |- _ =>
      apply (advanced_read_symbol s0 s s'); [|exact Hrd]
  end : parse.
#[local] Hint Extern 5 (advanced _ ?s) =>
  is_var s; eapply advanced_trans; [|eassumption] : parse.

Lemma diagnostic_spec msg st :
  ends_with
    (λ st', ∃ text,
       Scanner.print_error (symbol st) (scanner st) = Ok text
       ∧ st' = print (diagnostic_lines msg (symbol st) text) st)
    (diagnostic msg st).
Proof.
  unfold diagnostic.
  destruct (Scanner.print_error _ _) as [text| |] eqn:Hp; cbn; eauto.
  unfold Scanner.print_error in Hp. unfold py_index in Hp.
  repeat case_match; simplify_eq; done.
Qed.

Lemma diagnostic_advanced msg st0 st :
  advanced st0 st →
  ends_with (λ st', advanced st0 st' ∧ parent st' = parent st
                    ∧ cursor st' = cursor st)
    (diagnostic msg st).
Proof.
  intros Ha. eapply ends_with_mono; [apply diagnostic_spec|].
  cbn. intros st' (text & _ & ->). auto with parse.
Qed.

(** *** Error recovery reads on and ends *)

Lemma error_loop_S n flag self :
  error_loop (S n) flag self =
  if at_type EOF self then
    self ← diagnostic MSG_NO_END (count_error self);
    Ok (set_parent None self)
  else
    self ← read_symbol self;
    if bool_decide (parent self ≠ None) && at_type COMMA self then Ok self
    else if at_type SEMICOLON self then
      self ← read_symbol self;
      Ok (set_parent None self)
    else if at_section_id self then
      let self := set_parent None self in
      if negb flag
      then diagnostic MSG_MISSED_SEMICOLON (count_error self)
      else Ok self
    else error_loop n flag self.
Proof. reflexivity. Qed.

Lemma parent_read_symbol st st' :
  read_symbol st = Ok st' → parent st' = parent st.
Proof. by intros (_ & _ & _ & ? & _)%read_symbol_Ok. Qed.

Lemma backend_read_symbol st st' :
  read_symbol st = Ok st' → backend st' = backend st.
Proof. by intros (_ & _ & ? & _)%read_symbol_Ok. Qed.

Lemma error_count_read_symbol st st' :
  read_symbol st = Ok st' → error_count st' = error_count st.
Proof. by intros (_ & _ & _ & _ & ? & _)%read_symbol_Ok. Qed.

Lemma output_read_symbol st st' :
  read_symbol st = Ok st' → output st' = output st.
Proof. by intros (_ & _ & _ & _ & _ & ?)%read_symbol_Ok. Qed.

Lemma cursor_read_symbol st st' :
  read_symbol st = Ok st' → next (cursor st) = Ok (cursor st').
Proof.
  intros (Hsym & Hsc & _)%read_symbol_Ok. unfold next, cursor. cbn.
  destruct (Scanner.get_symbol (scanner st)) as [r sc]. cbn in *.
  by subst.
Qed.

Lemma measure_read_lt st st' :
  read_symbol st = Ok st' →
  at_type EOF st = false → (measure st' < measure st)%nat.
Proof. intros Hrd. by apply measure_read_symbol. Qed.

Lemma measure_read_le st st' :
  read_symbol st = Ok st' → (measure st' ≤ measure st)%nat.
Proof. intros Hrd. by apply measure_read_symbol. Qed.

Lemma measure_set_parent p st : measure (set_parent p st) = measure st.
Proof. reflexivity. Qed.

#[local] Opaque read_symbol.

(** Read the next symbol: the goal is about a call that starts with
    [read_symbol]. *)
Ltac read_next st1 Hrd :=
  eapply ends_with_bind; [apply read_symbol_ends|];
  intros st1 Hrd; cbn beta in Hrd |- *.

Lemma error_loop_spec n : ∀ flag st,
  (measure st < n)%nat →
  ends_with
    (λ st', advanced st st' ∧ backend st' = backend st ∧ resumes st st'
            ∧ ((measure st' < measure st)%nat
               ∨ (parent st' = None ∧ at_type EOF st = true)))
    (error_loop n flag st).
Proof.
  induction n as [|n IH]; intros flag st Hm; [lia|].
  rewrite error_loop_S.
  destruct (at_type EOF st) eqn:Heof.
  { eapply ends_with_bind; [apply diagnostic_spec|].
    cbn. intros st' (text & _ & ->).
    split_and!; [auto with parse | done | by left | by right]. }
  read_next st1 Hrd.
  pose proof (measure_read_lt _ _ Hrd Heof) as Hlt.
  pose proof (parent_read_symbol _ _ Hrd) as Hp.
  pose proof (backend_read_symbol _ _ Hrd) as Hb.
  assert (advanced st st1) as Ha1 by auto with parse.
  clear Hrd.
  destruct (bool_decide (parent st1 ≠ None) && at_type COMMA st1) eqn:Hc.
  { apply andb_true_iff in Hc as [Hc1%bool_decide_eq_true Hc2]. cbn.
    split_and!; [done | done | | by left].
    right. split_and!; congruence. }
  destruct (at_type SEMICOLON st1).
  { read_next st2 Hrd2.
    pose proof (measure_read_le _ _ Hrd2) as Hle.
    pose proof (backend_read_symbol _ _ Hrd2) as Hb2.
    assert (advanced st st2) as Ha2 by auto with parse.
    clear Hrd2. cbn.
    split_and!; [auto with parse | congruence | by left | left].
    rewrite measure_set_parent. lia. }
  destruct (at_section_id st1).
  { destruct (negb flag).
    - eapply ends_with_mono; [apply diagnostic_spec|].
      cbn. intros st' (text & _ & ->).
      split_and!; [auto with parse | done | by left | by left].
    - cbn. split_and!; [auto with parse | done | by left | by left]. }
  eapply ends_with_mono; [apply (IH flag st1); lia|].
  cbn. intros st' (Ha & Hb' & Hr & Hd).
  split_and!.
  - eapply advanced_trans; [|exact Ha]. done.
  - congruence.
  - destruct Hr as [?|(? & ? & ?)]; [by left | right].
    split_and!; congruence.
  - left. pose proof (advanced_measure _ _ Ha). lia.
Qed.

Lemma measure_fuel st : (measure st < fuel st)%nat.
Proof.
  unfold measure, fuel, Scanner.budget, ScannerSpec.mu.
  repeat case_match; lia.
Qed.

Lemma error_spec error_type st :
  ends_with (recovered error_type st) (error error_type st).
Proof.
  unfold error, recovered.
  destruct (Z.eqb_spec error_type MISSED_SEMICOLON) as [->|Hty].
  { eapply ends_with_mono; [apply diagnostic_spec|].
    cbn. intros st' (text & _ & ->).
    split_and!; [auto with parse | done | by left | right; left; auto]. }
  destruct (at_section_id st) eqn:Hsec.
  { eapply ends_with_mono; [apply diagnostic_spec|].
    cbn. intros st' (text & _ & ->).
    split_and!; [auto with parse | done | by left | right; left; auto]. }
  cbv zeta.
  eapply ends_with_bind; [apply diagnostic_spec|].
  cbn beta. intros st' (text & _ & ->).
  assert (advanced st (print (diagnostic_lines
            (message error_type (count_error st))
            (symbol (count_error st)) text) (count_error st))) as Ha1
    by auto with parse.
  remember (print _ _) as st1 eqn:Hst1.
  assert (measure st1 = measure st ∧ parent st1 = parent st
          ∧ backend st1 = backend st
          ∧ at_type EOF st1 = at_type EOF st
          ∧ at_type COMMA st1 = at_type COMMA st
          ∧ at_section_id st1 = at_section_id st)
    as (Hm1 & Hp1 & Hb1 & He1 & Hc1 & Hs1)
    by by subst st1.
  clear Hst1.
  destruct (at_type COMMA st1 && bool_decide (parent st1 ≠ None)) eqn:Hc.
  { apply andb_true_iff in Hc as [Hc2 Hc3%bool_decide_eq_true]. cbn.
    split_and!; [done | done | | right; right; split; congruence].
    right. split_and!; congruence. }
  destruct (at_type SEMICOLON st1) eqn:Hsemi.
  { assert (at_type EOF st1 = false) as He.
    { unfold at_type, Symbol.has_type in *.
      apply bool_decide_eq_true in Hsemi. apply bool_decide_eq_false.
      congruence. }
    read_next st2 Hrd2.
    pose proof (measure_read_lt _ _ Hrd2 He) as Hlt.
    pose proof (backend_read_symbol _ _ Hrd2) as Hb2.
    assert (advanced st st2) as Ha2 by auto with parse.
    clear Hrd2. cbn.
    split_and!; [auto with parse | congruence | by left | left].
    rewrite measure_set_parent. lia. }
  destruct (at_section_id st1) eqn:Hsec1.
  { congruence. }
  eapply ends_with_mono; [apply error_loop_spec, measure_fuel|].
  cbn. intros st' (Ha & Hb' & Hr & Hd).
  split_and!.
  - eauto using advanced_trans.
  - congruence.
  - destruct Hr as [?|(? & ? & ?)]; [by left | right].
    split_and!; congruence.
  - destruct Hd as [?|[? ?]]; [left; lia|].
    right. left. split; [done|]. right. right. congruence.
Qed.

Lemma report_spec error_type st :
  ends_with
    (λ st', advanced st st' ∧ backend st' = backend st
            ∧ (error_type = NO_ERROR ∧ st' = st
               ∨ error_type ≠ NO_ERROR ∧ recovered error_type st st'))
    (report error_type st).
Proof.
  unfold report. destruct (Z.eqb_spec error_type NO_ERROR) as [->|Hne]; cbn.
  - split_and!; [auto with parse | done | by left].
  - eapply ends_with_mono; [apply error_spec|].
    intros st' Hr. pose proof Hr as (? & ? & _). auto.
Qed.


(** *** The item parsers read on *)

Ltac items :=
  repeat case_match; simplify_eq; cbn [fst snd ends_with];
  auto 10 with parse.

(** Name the pair bound by the outermost [let] of the goal, after
    showing that its state has moved on from [st0]. *)
Ltac bind_pair st0 :=
  match goal with
  | |- context [let '(_, _) := ?E in _] =>
      let Ha := fresh "Ha" in
      assert (advanced st0 E.2) as Ha by items;
      destruct E as [? ?]; cbn [fst snd] in Ha
  end.

(** Walk through a call that reads symbols and branches, up to its
    [return] statements. *)
Ltac walk :=
  repeat match goal with
  | |- ends_with _ (read_symbol _ ≫= _) =>
      let st1 := fresh "st" in
      let Hrd := fresh "Hrd" in
      read_next st1 Hrd
  | |- ends_with _ (Ok _) => cbn [ends_with fst snd]
  | |- ends_with _ (Raise _) => exact I
  | |- ends_with _ (if ?b then _ else _) => destruct b eqn:?
  | |- ends_with _ (match ?x with _ => _ end) => destruct x eqn:?
  end.

Lemma make_device_parser_advanced device_id device_type_id st0 st :
  advanced st0 st →
  ends_with (λ r, advanced st0 r.2)
    (make_device_parser device_id device_type_id st).
Proof.
  intros Ha. unfold make_device_parser.
  read_next st1 Hrd.
  assert (advanced st0 st1) as Ha1 by auto with parse. clear Hrd.
  cbv zeta.
  bind_pair st0.
  repeat (case_bool_decide; [done|]).
  bind_pair st0.
  bind_pair st0.
  case_match.
  { bind_pair st0. walk. auto with parse. }
  case_match; [|walk; auto with parse].
  bind_pair st0. case_bool_decide; walk; auto with parse.
Qed.

Lemma device_advanced st : ends_with (λ r, advanced st r.2) (device st).
Proof.
  unfold device.
  walk; auto 10 with parse.
  eapply make_device_parser_advanced. auto 10 with parse.
Qed.

Lemma monitor_advanced st : ends_with (λ r, advanced st r.2) (monitor st).
Proof. unfold monitor. walk; auto 10 with parse. Qed.

Lemma in_signame_advanced st :
  ends_with (λ r, advanced st r.2) (in_signame st).
Proof. unfold in_signame. walk; auto 10 with parse. Qed.

Lemma out_signame_advanced st0 st :
  advanced st0 st →
  ends_with (λ r, advanced st0 r.2) (out_signame st).
Proof. intros Ha. unfold out_signame. walk; auto 10 with parse. Qed.

Lemma connection_advanced st :
  ends_with (λ r, advanced st r.2) (connection st).
Proof.
  unfold connection.
  eapply ends_with_bind; [apply in_signame_advanced|].
  intros [[e|[d p]] st1] Hi; cbn in Hi; [done|].
  destruct (negb (at_type ARROW st1)); [done|].
  read_next st2 Hrd.
  eapply ends_with_bind;
    [apply (out_signame_advanced st); auto with parse|].
  intros [[e|[d' p']] st3] Ho; cbn in Ho; [done|].
  items.
Qed.

(** *** The loops end *)

Lemma list_loop_S item n self :
  list_loop item (S n) self =
  if at_type COMMA self then
    self ← read_symbol self;
    r ← item self;
    self ← report r.1 r.2;
    if bool_decide (parent self = None) then Ok self
    else list_loop item n self
  else if at_type SEMICOLON self then read_symbol self
  else
    self ← error NO_SEMICOLON self;
    if bool_decide (parent self = None) then Ok self
    else list_loop item n self.
Proof. reflexivity. Qed.

Lemma at_type_not_EOF k st :
  k ≠ EOF → at_type k st = true → at_type EOF st = false.
Proof.
  unfold at_type, Symbol.has_type. intros Hk Ht%bool_decide_eq_true.
  apply bool_decide_eq_false. congruence.
Qed.

Lemma list_loop_spec item : reads_on item → ∀ n st,
  (measure st < n)%nat →
  ends_with (advanced st) (list_loop item n st).
Proof.
  intros Hitem n. induction n as [|n IH]; intros st Hm; [lia|].
  rewrite list_loop_S.
  destruct (at_type COMMA st) eqn:Hcomma.
  { read_next st1 Hrd.
    pose proof (measure_read_lt _ _ Hrd
                  (at_type_not_EOF COMMA st ltac:(done) Hcomma)) as Hlt.
    assert (advanced st st1) as Ha1 by auto with parse.
    clear Hrd.
    eapply ends_with_bind; [apply Hitem|].
    intros [e st2] Ha2. cbn [fst snd] in *.
    eapply ends_with_bind; [apply report_spec|].
    intros st3 (Ha3 & _). cbn beta.
    assert (advanced st st3) as Ha by eauto using advanced_trans.
    case_bool_decide; [done|].
    eapply ends_with_mono; [apply IH|eauto using advanced_trans].
    pose proof (advanced_measure _ _ Ha2).
    pose proof (advanced_measure _ _ Ha3). lia. }
  destruct (at_type SEMICOLON st).
  { eapply ends_with_mono; [apply read_symbol_ends|].
    cbn beta. intros st1 Hrd. auto with parse. }
  eapply ends_with_bind; [apply error_spec|].
  intros st1 (Ha1 & _ & _ & Hd). cbn beta.
  case_bool_decide as Hp; [done|].
  eapply ends_with_mono; [apply IH|eauto using advanced_trans].
  destruct Hd as [?|[[? _]|[? _]]]; [lia | done | congruence].
Qed.

Lemma item_list_spec item st :
  reads_on item → ends_with (advanced st) (item_list item st).
Proof.
  intros Hitem. unfold item_list.
  eapply ends_with_bind; [apply Hitem|].
  intros [e st2] Ha2. cbn [fst snd] in *.
  eapply ends_with_bind; [apply report_spec|].
  intros st3 (Ha3 & _). cbn beta.
  assert (advanced st st3) as Ha by eauto using advanced_trans.
  case_bool_decide; [done|].
  eapply ends_with_mono;
    [apply list_loop_spec, measure_fuel; done | eauto using advanced_trans].
Qed.

Lemma device_list_spec st : ends_with (advanced st) (device_list st).
Proof. apply item_list_spec. intros st'. apply device_advanced. Qed.

Lemma connection_list_spec st : ends_with (advanced st) (connection_list st).
Proof. apply item_list_spec. intros st'. apply connection_advanced. Qed.

Lemma monitor_list_spec st : ends_with (advanced st) (monitor_list st).
Proof. apply item_list_spec. intros st'. apply monitor_advanced. Qed.

Lemma end_of_file_spec st : ends_with (advanced st) (end_of_file st).
Proof.
  unfold end_of_file. destruct (negb _); [|cbn; auto with parse].
  eapply ends_with_mono; [apply error_spec|]. by intros st' (? & _).
Qed.

Lemma parse_loop_S n self :
  parse_loop (S n) self =
  if at_type EOF self then Ok self
  else if at_id Scanner.DEVICES_ID self then
    self ← read_symbol (set_parent (Some D) self);
    self ← device_list self;
    parse_loop n (set_parent None self)
  else if at_id Scanner.CONNECT_ID self then
    self ← read_symbol (set_parent (Some C) self);
    self ← connection_list self;
    parse_loop n (set_parent None self)
  else if at_id Scanner.MONITOR_ID self then
    self ← read_symbol (set_parent (Some M) self);
    self ← monitor_list self;
    parse_loop n (set_parent None self)
  else if at_id Scanner.END_ID self then
    self ← read_symbol self;
    end_of_file self
  else
    self ← error NO_INITIALISATION_KEYWORD self;
    parse_loop n (set_parent None self).
Proof. reflexivity. Qed.

Lemma at_section_id_at_id st :
  at_section_id st =
  at_id Scanner.DEVICES_ID st || at_id Scanner.CONNECT_ID st
  || at_id Scanner.MONITOR_ID st || at_id Scanner.END_ID st.
Proof.
  unfold at_section_id, at_id, py_in. cbn.
  by rewrite orb_false_r, !orb_assoc.
Qed.

Lemma parse_loop_spec n : ∀ st,
  parent st = None → (measure st < n)%nat →
  ends_with (advanced st) (parse_loop n st).
Proof.
  induction n as [|n IH]; intros st Hp Hm; [lia|].
  rewrite parse_loop_S.
  destruct (at_type EOF st) eqn:Heof; [cbn; auto with parse|].
  assert (∀ tag (list : t B → Result (t B)),
            (∀ st', ends_with (advanced st') (list st')) →
            ends_with (advanced st)
              (self ← read_symbol (set_parent (Some tag) st);
               self ← list self;
               parse_loop n (set_parent None self))) as Hsection.
  { intros tag list Hlist.
    read_next st1 Hrd.
    pose proof (measure_read_lt _ _ Hrd Heof) as Hlt.
    rewrite measure_set_parent in Hlt.
    assert (advanced st st1) as Ha1 by auto with parse.
    clear Hrd.
    eapply ends_with_bind; [apply Hlist|].
    intros st2 Ha2. cbn beta.
    eapply ends_with_mono; [apply IH|].
    - done.
    - rewrite measure_set_parent. pose proof (advanced_measure _ _ Ha2). lia.
    - intros st3 Ha3. eapply advanced_trans; [|exact Ha3]. auto with parse. }
  destruct (at_id Scanner.DEVICES_ID st) eqn:HD;
    [apply Hsection, device_list_spec|].
  destruct (at_id Scanner.CONNECT_ID st) eqn:HC;
    [apply Hsection, connection_list_spec|].
  destruct (at_id Scanner.MONITOR_ID st) eqn:HM;
    [apply Hsection, monitor_list_spec|].
  destruct (at_id Scanner.END_ID st) eqn:HE.
  { read_next st1 Hrd.
    assert (advanced st st1) as Ha1 by auto with parse.
    clear Hrd.
    eapply ends_with_mono; [apply end_of_file_spec|].
    eauto using advanced_trans. }
  eapply ends_with_bind; [apply error_spec|].
  intros st1 (Ha1 & _ & _ & Hd). cbn beta.
  eapply ends_with_mono; [apply IH|].
  - done.
  - rewrite measure_set_parent.
    destruct Hd as [?|[[_ [?|[Hs|?]]]|[_ ?]]]; [lia | done | | congruence..].
    rewrite at_section_id_at_id, HD, HC, HM, HE in Hs. done.
  - intros st3 Ha3. eapply advanced_trans; [|exact Ha3]. auto with parse.
Qed.

(** [Parser.__init__] and the first [get_symbol] return or raise. *)
Lemma start_spec sc b :
  ends_with (λ st, parent st = None ∧ error_count st = 0 ∧ output st = []
                   ∧ backend st = b
                   ∧ Scanner.get_symbol sc = (Ok (symbol st), scanner st))
    (start sc b).
Proof.
  unfold start.
  pose proof (ScannerSpec.scanned_result _ _ _ (get_symbol_scanned sc)) as Hr.
  by destruct (Scanner.get_symbol sc) as [[sym| |] sc'].
Qed.

(** The parsing loop of [parse_network] ends on every file: it returns
    or an exception escapes it.  The error count it returns is not
    negative. *)
Lemma parse_sections_spec sc b :
  ends_with (λ st, 0 ≤ error_count st) (parse_sections sc b).
Proof.
  unfold parse_sections.
  eapply ends_with_bind; [apply start_spec|].
  intros st (Hp & Hc & _). cbn beta.
  eapply ends_with_mono; [apply parse_loop_spec, measure_fuel; done|].
  intros st' Ha. pose proof (advanced_count _ _ Ha). lia.
Qed.

End ParserFacts.

(** ** Claims about the parser *)

Section ParserClaims.

Import Symbol Parser ParserSpec.
Context {B : Type} `{Backend B}.

Implicit Types self st : t B.

Ltac decide_cmp :=
  repeat match goal with
  | |- context [?a =? ?b] =>
      first [ replace (a =? b) with true by (symmetry; apply Z.eqb_eq; lia)
            | replace (a =? b) with false
                by (symmetry; apply Z.eqb_neq; lia) ]
  | |- context [?a <? ?b] =>
      first [ replace (a <? b) with true by (symmetry; apply Z.ltb_lt; lia)
            | replace (a <? b) with false
                by (symmetry; apply Z.ltb_ge; lia) ]
  end.

(** The end of [parse_network], after the parsing loop. *)
Lemma conclude_spec st :
  0 ≤ error_count st →
  let r := conclude (check_empty (check_connectivity st)) in
  (r.1 = true ↔
     error_count st = 0 ∧ check_network (backend st) = true
     ∧ is_empty st = false)
  ∧ (r.1 = true → r.2 = st)
  ∧ (r.1 = false →
       0 < error_count r.2
       ∧ ∃ printed, output r.2 = printed ++ [PrintSummary (error_count r.2)]).
Proof.
  intros Hc. unfold conclude, check_empty, check_connectivity.
  destruct (Z.eqb_spec (error_count st) 0) as [H0|H0]; cbn [andb].
  - destruct (check_network (backend st)) eqn:Hnet; cbn [negb].
    + repeat (decide_cmp; cbn [andb]).
      destruct (is_empty st) eqn:Hempty; repeat (decide_cmp; cbn).
      * split_and!; [|by intros [=]|].
        -- split; [done | intros (_ & _ & ?); congruence].
        -- intros _. split; [lia|]. by eexists.
      * split_and!; [done | done | by intros [=]].
    + repeat (decide_cmp; cbn).
      split_and!; [|by intros [=]|].
      * split; [done | intros (_ & ? & _); congruence].
      * intros _. split; [lia|]. by eexists.
  - repeat (decide_cmp; cbn).
    split_and!; [|by intros [=]|].
    + split; [done | intros (? & _); congruence].
    + intros _. split; [lia|]. by eexists.
Qed.

(** On every definition file the call of [parse_network] ends.  When
    it returns, it returns true exactly when the error count at the end
    of the parsing loop is zero, and [check_network()] is true, and
    [find_devices()] or one of the lists of [get_signal_names()] is not
    empty; otherwise it returns false, and the last thing printed is the
    summary with a positive number of errors.  When an exception escapes
    the call, it has escaped the parsing loop. *)
Lemma parse_network_result (sc : Scanner.t) (b : B) :
  match parse_network sc b with
  | Ok (result, final) =>
      ∃ parsed,
        parse_sections sc b = Ok parsed
        ∧ (result = true ↔
             error_count parsed = 0
             ∧ check_network (backend parsed) = true
             ∧ is_empty parsed = false)
        ∧ (result = true → final = parsed)
        ∧ (result = false →
             0 < error_count final
             ∧ ∃ printed,
                 output final
                 = printed ++ [PrintSummary (error_count final)])
  | Raise e => parse_sections sc b = Raise e
  | OutOfFuel => False
  end.
Proof.
  unfold parse_network. pose proof (parse_sections_spec sc b) as Hs.
  destruct (parse_sections sc b) as [parsed|e|]; cbn in Hs; [|done..].
  change (Ok parsed ≫= ?k) with (k parsed). cbv beta.
  pose proof (conclude_spec parsed Hs) as Hr. cbv zeta in Hr.
  destruct (conclude _) as [result final]. cbn [fst snd] in Hr.
  exists parsed. by split.
Qed.

(** *** Error recovery *)

#[local] Opaque read_symbol.

Lemma at_type_cursor k st : at_type k st = Symbol.has_type k (cursor st).2.
Proof. reflexivity. Qed.

Lemma at_section_id_cursor st : at_section_id st = section_id (cursor st).
Proof. reflexivity. Qed.

Lemma ahead_S n c c1 :
  next c = Ok c1 → ahead (S n) c = ahead n c1.
Proof. intros Hn. cbn. by rewrite Hn. Qed.

Lemma sync_false section p c :
  (bool_decide (p ≠ None) && Symbol.has_type COMMA c.2) = false →
  Symbol.has_type SEMICOLON c.2 = false →
  section c = false →
  Symbol.has_type EOF c.2 = false →
  sync section p c = false.
Proof. unfold sync. by intros -> -> -> ->. Qed.

Lemma first_sync_here section p c :
  sync section p c = true → first_sync section p c 0 c.
Proof. intros Hs. split_and!; [intros; lia | done | done]. Qed.

Lemma first_sync_later section p c c1 k stop :
  sync section p c = false → next c = Ok c1 →
  first_sync section p c1 k stop → first_sync section p c (S k) stop.
Proof.
  intros Hs Hn (Hbefore & Hk & Hstop).
  split_and!; [|by rewrite (ahead_S _ _ _ Hn)|done].
  intros [|j] Hj; [by exists c|].
  rewrite (ahead_S _ _ _ Hn). apply Hbefore. lia.
Qed.

Lemma loop_outcome_ext flag st1 st2 st' stop :
  parent st1 = parent st2 → error_count st1 = error_count st2 →
  output st1 = output st2 →
  loop_outcome flag st1 st' stop → loop_outcome flag st2 st' stop.
Proof. unfold loop_outcome. by intros -> -> ->. Qed.

Lemma error_loop_recovery n : ∀ flag st st',
  error_loop n flag st = Ok st' →
  (bool_decide (parent st ≠ None) && at_type COMMA st) = false →
  at_type SEMICOLON st = false →
  at_section_id st = false →
  backend st' = backend st
  ∧ ∃ k stop,
      first_sync section_id (parent st) (cursor st) k stop
      ∧ loop_outcome flag st st' stop.
Proof.
  induction n as [|n IH]; intros flag st st' Hloop Hcomma Hsemi Hsec;
    [done|].
  rewrite error_loop_S in Hloop.
  destruct (at_type EOF st) eqn:Heof.
  { pose proof (diagnostic_spec MSG_NO_END (count_error st)) as Hd.
    destruct (diagnostic _ _) as [st1| |]; [|done..].
    cbn in Hd, Hloop. destruct Hd as (text & _ & ->).
    injection Hloop as <-. split; [done|]. exists 0%nat, (cursor st).
    split.
    - apply first_sync_here. unfold sync.
      rewrite <- !at_type_cursor, Heof. apply orb_true_r.
    - unfold loop_outcome. rewrite <- !at_type_cursor, <- at_section_id_cursor.
      rewrite Hcomma, Hsemi, Hsec. cbn. eauto. }
  assert (sync section_id (parent st) (cursor st) = false) as Hns
    by (apply sync_false;
        by rewrite <- ?at_type_cursor, <- ?at_section_id_cursor).
  destruct (read_symbol st) as [st1| |] eqn:Hrd; [|done..].
  change (Ok st1 ≫= ?k) with (k st1) in Hloop. cbv beta in Hloop.
  pose proof (parent_read_symbol _ _ Hrd) as Hp.
  pose proof (backend_read_symbol _ _ Hrd) as Hb.
  pose proof (error_count_read_symbol _ _ Hrd) as Hc.
  pose proof (output_read_symbol _ _ Hrd) as Ho.
  pose proof (cursor_read_symbol _ _ Hrd) as Hcur.
  clear Hrd.
  assert (∀ k stop,
            first_sync section_id (parent st) (cursor st1) k stop →
            first_sync section_id (parent st) (cursor st) (S k) stop)
    as Hlater by (intros k stop; by apply first_sync_later).
  destruct (bool_decide (parent st1 ≠ None) && at_type COMMA st1) eqn:Hc1.
  { injection Hloop as <-. split; [done|]. exists 1%nat, (cursor st1).
    split.
    - apply Hlater, first_sync_here. unfold sync.
      by rewrite <- Hp, <- !at_type_cursor, Hc1.
    - unfold loop_outcome. rewrite <- Hp, <- !at_type_cursor, Hc1. done. }
  destruct (at_type SEMICOLON st1) eqn:Hs1.
  { destruct (read_symbol st1) as [st2| |] eqn:Hrd2; [|done..].
    change (Ok st2 ≫= ?k) with (k st2) in Hloop. cbv beta in Hloop.
    pose proof (cursor_read_symbol _ _ Hrd2) as Hcur2.
    pose proof (error_count_read_symbol _ _ Hrd2) as Hc2.
    pose proof (output_read_symbol _ _ Hrd2) as Ho2.
    pose proof (backend_read_symbol _ _ Hrd2) as Hb2.
    clear Hrd2.
    injection Hloop as <-. split; [cbn; congruence|].
    exists 1%nat, (cursor st1). split.
    - apply Hlater, first_sync_here. unfold sync.
      by rewrite <- Hp, <- !at_type_cursor, Hc1, Hs1.
    - unfold loop_outcome. rewrite <- Hp, <- !at_type_cursor, Hc1, Hs1.
      change (cursor (set_parent None st2)) with (cursor st2).
      cbn. split_and!; congruence. }
  destruct (at_section_id st1) eqn:Hsec1.
  { assert (first_sync section_id (parent st) (cursor st) 1 (cursor st1))
      as Hsync.
    { apply Hlater, first_sync_here. unfold sync.
      by rewrite <- Hp, <- !at_type_cursor,
        <- at_section_id_cursor, Hc1, Hs1, Hsec1. }
    destruct flag; cbn [negb] in Hloop.
    - injection Hloop as <-. split; [done|]. exists 1%nat, (cursor st1).
      split; [done|].
      unfold loop_outcome.
      rewrite <- Hp, <- !at_type_cursor, <- at_section_id_cursor,
        Hc1, Hs1, Hsec1. done.
    - pose proof (diagnostic_spec MSG_MISSED_SEMICOLON
                    (count_error (set_parent None st1))) as Hd.
      rewrite Hloop in Hd. cbn in Hd. destruct Hd as (text & _ & ->).
      split; [done|]. exists 1%nat, (cursor st1). split; [done|].
      unfold loop_outcome.
      rewrite <- Hp, <- !at_type_cursor, <- at_section_id_cursor,
        Hc1, Hs1, Hsec1.
      cbn. split_and!; [done | done | congruence |].
      exists text. by rewrite Ho. }
  destruct (IH flag st1 st' Hloop Hc1 Hs1 Hsec1)
    as (Hb' & k & stop & Hfirst & Hout).
  rewrite Hp in Hfirst.
  split; [congruence|]. exists (S k), stop. split; [auto|].
  eapply loop_outcome_ext; [..|exact Hout]; done.
Qed.

(** Error recovery, with the symbols at which it stops told by their
    IDs, as [error] tells them. *)
Lemma error_recovery_by_id (error_type : Z) (st : t B) :
  ends_with
    (λ st',
       backend st' = backend st
       ∧ if (error_type =? MISSED_SEMICOLON) || section_id (cursor st) then
           cursor st' = cursor st ∧ parent st' = None
           ∧ error_count st' = error_count st + 1
           ∧ ∃ text,
               output st' =
                 output st
                 ++ diagnostic_lines MSG_MISSED_SEMICOLON (symbol st) text
         else
           ∃ k stop text,
             first_sync section_id (parent st) (cursor st) k stop
             ∧ recovery_outcome section_id error_type st st' stop
                 (diagnostic_lines (message error_type st) (symbol st)
                    text))
    (error error_type st).
Proof.
  pose proof (error_spec error_type st) as Hends.
  destruct (error error_type st) as [st'| |] eqn:Herr; [|done..].
  clear Hends. cbn [ends_with]. revert Herr.
  unfold error. intros Herr. rewrite <- at_section_id_cursor.
  destruct (error_type =? MISSED_SEMICOLON) eqn:Hty; cbn [orb].
  { pose proof (diagnostic_spec MSG_MISSED_SEMICOLON
                  (count_error (set_parent None st))) as Hd.
    rewrite Herr in Hd. cbn in Hd. destruct Hd as (text & _ & ->).
    cbn. eauto 10. }
  destruct (at_section_id st) eqn:Hsec.
  { pose proof (diagnostic_spec MSG_MISSED_SEMICOLON
                  (count_error (set_parent None st))) as Hd.
    rewrite Herr in Hd. cbn in Hd. destruct Hd as (text & _ & ->).
    cbn. eauto 10. }
  cbv zeta in Herr.
  pose proof (diagnostic_spec (message error_type (count_error st))
                (count_error st)) as Hd.
  destruct (diagnostic _ _) as [st1| |]; [|done..].
  cbn in Hd. destruct Hd as (text & _ & Hst1).
  change (Ok st1 ≫= ?k) with (k st1) in Herr. cbv beta in Herr.
  assert (cursor st1 = cursor st ∧ parent st1 = parent st
          ∧ backend st1 = backend st
          ∧ error_count st1 = error_count st + 1
          ∧ output st1 =
              output st
              ++ diagnostic_lines (message error_type st) (symbol st) text)
    as (Hcur & Hp & Hb & Hc & Ho) by by subst st1.
  clear Hst1.
  assert (at_section_id st1 = false) as Hsec1
    by by rewrite at_section_id_cursor, Hcur, <- at_section_id_cursor.
  assert (∀ kd, at_type kd st1 = at_type kd st) as Hat
    by (intros kd; by rewrite !at_type_cursor, Hcur).
  destruct (at_type COMMA st1 && bool_decide (parent st1 ≠ None)) eqn:Hcomma.
  { injection Herr as <-. split; [done|]. exists 0%nat, (cursor st), text.
    rewrite andb_comm, Hp, Hat in Hcomma.
    split.
    - apply first_sync_here. unfold sync.
      by rewrite <- !at_type_cursor, Hcomma.
    - unfold recovery_outcome. by rewrite <- !at_type_cursor, Hcomma. }
  destruct (at_type SEMICOLON st1) eqn:Hsemi.
  { destruct (read_symbol st1) as [st2| |] eqn:Hrd2; [|done..].
    change (Ok st2 ≫= ?k) with (k st2) in Herr. cbv beta in Herr.
    pose proof (cursor_read_symbol _ _ Hrd2) as Hcur2.
    pose proof (error_count_read_symbol _ _ Hrd2) as Hc2.
    pose proof (output_read_symbol _ _ Hrd2) as Ho2.
    pose proof (backend_read_symbol _ _ Hrd2) as Hb2.
    clear Hrd2.
    injection Herr as <-. split; [cbn; congruence|].
    exists 0%nat, (cursor st), text.
    rewrite andb_comm, Hp, Hat in Hcomma.
    rewrite Hat in Hsemi.
    split.
    - apply first_sync_here. unfold sync.
      by rewrite <- !at_type_cursor, Hcomma, Hsemi.
    - unfold recovery_outcome. rewrite <- !at_type_cursor, Hcomma, Hsemi.
      change (cursor (set_parent None st2)) with (cursor st2).
      cbn. rewrite <- Hcur. split_and!; congruence. }
  rewrite Hsec1 in Herr. rewrite andb_comm in Hcomma.
  destruct (error_loop_recovery _ _ _ _ Herr Hcomma Hsemi Hsec1)
    as (Hb' & k & stop & Hfirst & Hout).
  rewrite Hp, Hcur in Hfirst.
  split; [congruence|]. exists k, stop, text. split; [done|].
  revert Hout. unfold loop_outcome, recovery_outcome. rewrite Hp, Hc, Ho.
  repeat case_match; try done.
  - intros (? & ? & ? & text2 & ?). split_and!; [done | done | lia |].
    exists text2. by rewrite app_assoc.
  - intros (? & ? & ? & text2 & ?). split_and!; [done | done | lia |].
    exists text2. by rewrite app_assoc.
Qed.

(** Where the IDs of the section keywords are carried by these keywords
    only, telling them by ID is telling them. *)
Lemma ids_are_keywords_here c :
  ids_are_keywords c → section_keyword c = section_id c.
Proof.
  intros Hk. unfold section_keyword.
  destruct (section_id c) eqn:Hs; [|apply andb_false_r].
  by rewrite (Hk 0%nat c eq_refl Hs).
Qed.

Lemma ids_are_keywords_ahead c n c' :
  ids_are_keywords c → ahead n c = Ok c' → ids_are_keywords c'.
Proof.
  revert c. induction n as [|n IH]; intros c Hk Ha.
  - cbn in Ha. by injection Ha as <-.
  - cbn in Ha. destruct (next c) as [c1| |] eqn:Hn; [|done..].
    apply (IH c1); [|done].
    intros m c2 Hm. apply (Hk (S m)). by rewrite (ahead_S _ _ _ Hn).
Qed.

Lemma sync_keyword p c :
  ids_are_keywords c → sync section_keyword p c = sync section_id p c.
Proof. intros Hk. unfold sync. by rewrite ids_are_keywords_here. Qed.

Lemma first_sync_keyword p c k stop :
  ids_are_keywords c →
  first_sync section_id p c k stop → first_sync section_keyword p c k stop.
Proof.
  intros Hk (Hbefore & Hstop & Hsync). split_and!; [|done|].
  - intros j Hj. destruct (Hbefore j Hj) as (c' & Ha & Hs).
    exists c'. split; [done|].
    by rewrite sync_keyword by eauto using ids_are_keywords_ahead.
  - by rewrite sync_keyword by eauto using ids_are_keywords_ahead.
Qed.

(** C3, amended. A call of [error] for a fault ends (it returns, or an
    exception of [print_error] or [get_symbol] escapes; the recovery
    loop never runs on), and when it returns it has printed one
    diagnostic for the fault and counted one error.  This is for a parser
    at a place from which every symbol that has the ID of a section
    keyword or END is that keyword.  When the fault is MISSED_SEMICOLON,
    or the symbol at hand is a section keyword or END, that diagnostic is
    "Expected a semicolon prior to this", no symbol is read and the list
    at hand is over.  Otherwise the parser reads on to the first symbol
    (the one at hand included) that is a comma while a list is being
    parsed, a semicolon, a section keyword or END, or the end of the
    file, and then: at the comma the list goes on; the semicolon is read
    and the list is over; at a section keyword or END the list is over
    and one more error, "Expected a semicolon prior to this", is reported
    at that keyword, except when the fault was NO_SEMICOLON; at the end
    of the file one more error, "Expected 'END' keyword before end of
    file.", is reported. *)
Theorem error_recovery (error_type : Z) (st : t B) :
  ids_are_keywords (cursor st) →
  ends_with
    (λ st',
       backend st' = backend st
       ∧ if (error_type =? MISSED_SEMICOLON) || section_keyword (cursor st)
         then
           cursor st' = cursor st ∧ parent st' = None
           ∧ error_count st' = error_count st + 1
           ∧ ∃ text,
               output st' =
                 output st
                 ++ diagnostic_lines MSG_MISSED_SEMICOLON (symbol st) text
         else
           ∃ k stop text,
             first_sync section_keyword (parent st) (cursor st) k stop
             ∧ recovery_outcome section_keyword error_type st st' stop
                 (diagnostic_lines (message error_type st) (symbol st)
                    text))
    (error error_type st).
Proof.
  intros Hk. eapply ends_with_mono; [apply error_recovery_by_id|].
  intros st' [Hb Hrec]. split; [done|].
  rewrite (ids_are_keywords_here _ Hk).
  destruct ((error_type =? MISSED_SEMICOLON) || section_id (cursor st));
    [done|].
  destruct Hrec as (k & stop & text & Hfirst & Hout).
  exists k, stop, text. split; [by apply first_sync_keyword|].
  assert (section_keyword stop = section_id stop) as Hstop.
  { apply ids_are_keywords_here.
    destruct Hfirst as (_ & Ha & _). eauto using ids_are_keywords_ahead. }
  revert Hout. unfold recovery_outcome. by rewrite Hstop.
Qed.

(** After the end of the file every symbol is the end of the file. *)
Lemma ahead_at_end n : ∀ c c',
  Scanner.current_character c.1 = None →
  ahead (S n) c = Ok c' → Symbol.id c'.2 = PNone.
Proof.
  induction n as [|n IH]; intros [s sym] c' Hc Ha; cbn [fst] in Hc.
  - cbn in Ha. unfold next in Ha. cbn [fst] in Ha.
    rewrite (get_symbol_at_end s Hc) in Ha. cbn in Ha. by injection Ha as <-.
  - change (ahead (S (S n)) (s, sym))
      with (next (s, sym) ≫= ahead (S n)) in Ha.
    unfold next in Ha at 1. cbn [fst] in Ha.
    rewrite (get_symbol_at_end s Hc) in Ha. cbn [mbind Result_bind] in Ha.
    eapply IH; [|exact Ha]. done.
Qed.

Lemma ids_checked_sound n : ∀ c,
  ids_checked n c = true → ids_are_keywords c.
Proof.
  induction n as [|n IH]; intros c Hchk m c' Ha Hs;
    cbn [ids_checked] in Hchk;
    apply andb_true_iff in Hchk as [Hhere Hrest].
  - destruct m as [|m].
    + cbn in Ha. injection Ha as <-. by rewrite Hs in Hhere.
    + rewrite orb_false_r in Hrest. apply bool_decide_eq_true in Hrest.
      pose proof (ahead_at_end m c c' Hrest Ha) as Hid.
      unfold section_id, py_in in Hs. rewrite Hid in Hs. done.
  - destruct m as [|m].
    + cbn in Ha. injection Ha as <-. by rewrite Hs in Hhere.
    + apply orb_true_iff in Hrest as [Hend%bool_decide_eq_true|Hnext].
      * pose proof (ahead_at_end m c c' Hend Ha) as Hid.
        unfold section_id, py_in in Hs. rewrite Hid in Hs. done.
      * cbn in Ha. destruct (next c) as [c1| |]; [|done..].
        by apply (IH c1 Hnext m c').
Qed.

End ParserClaims.

(** * Runs of the parser on concrete files *)

Section ParserRuns.

Import Symbol Parser ParserSpec.

(** C2. A file that ends without END is accepted: on
    [DEVICES S1:SWITCH 0;] the loop of [parse_network] leaves at the end
    of the file, no error is counted, nothing is printed (in particular
    not "Expected 'END' keyword before end of file.") and
    [parse_network] returns [True]. *)
Theorem file_without_END_is_accepted :
  match run "DEVICES S1:SWITCH 0;" with
  | Ok (result, final) =>
      result = true ∧ error_count final = 0 ∧ output final = []
  | _ => False
  end.
Proof. vm_compute. done. Qed.

(** C3 does not hold as stated: in [DEVICES S:SWITCH 1 B MONITOR S; END]
    the comma or semicolon after [1] is missing, recovery reads on from
    [B] and lands on the section keyword MONITOR with no semicolon seen,
    and the parser reports the one error "Expected a comma or semicolon"
    at [B] and no "Expected a semicolon prior to this" at MONITOR. *)
Lemma missing_semicolon_is_reported_once :
  match run "DEVICES S:SWITCH 1 B MONITOR S; END" with
  | Ok (result, final) =>
      result = false ∧ error_count final = 1
      ∧ ∃ text,
          output final =
            [Print "Expected a comma or semicolon"; PrintLine 1;
             Print text; Print ""; PrintSummary 1]
  | _ => False
  end.
Proof. vm_compute. split_and!; eauto. Qed.

(** Recovery at the start of the file [X Y, DEVICES], where [X]
    is no section keyword: [error] returns, having read on to DEVICES and
    counted two errors. *)
Lemma error_recovery_witness :
  let sc0 := Scanner.init (String.list_ascii_of_string "X Y, DEVICES")
               Names.init in
  let b := Model.init (Scanner.names sc0) in
  let st :=
    {| scanner := (Scanner.get_symbol sc0).2; backend := b;
       symbol := {| Symbol.type := Some NAME; Symbol.id := PInt 35;
                    Symbol.line_number := 1; Symbol.position := 1 |};
       parent := None; error_count := 0; output := [] |} in
  start sc0 b = Ok st
  ∧ ids_are_keywords (cursor st)
  ∧ match error NO_INITIALISATION_KEYWORD st with
    | Ok st' => error_count st' = 2 ∧ symbol st' ≠ symbol st
    | _ => False
    end
  ∧ ends_with
      (λ st',
         backend st' = backend st
         ∧ ∃ k stop text,
             first_sync section_keyword (parent st) (cursor st) k stop
             ∧ recovery_outcome section_keyword
                 NO_INITIALISATION_KEYWORD st st' stop
                 (diagnostic_lines (message NO_INITIALISATION_KEYWORD st)
                    (symbol st) text))
      (error NO_INITIALISATION_KEYWORD st).
Proof.
  intros sc0 b st.
  assert (ids_are_keywords (cursor st)) as Hk
    by (apply (ids_checked_sound 8); vm_compute; reflexivity).
  split_and!; [vm_compute; reflexivity | done | by vm_compute |].
  assert (section_keyword (cursor st) = false) as Hsec
    by (vm_compute; reflexivity).
  pose proof (error_recovery NO_INITIALISATION_KEYWORD st Hk) as Hrec.
  clearbody st. rewrite Hsec in Hrec. exact Hrec.
Defined.

(** C1, at the failing input. On the file
    [DEVICES G:AND 2; CONNECT G > G.;] the call of [parse_network]
    returns neither [True] nor [False]: the dot after the second [G] is
    followed by a semicolon, which has no name, and [name[0]] in
    [out_signame] raises [TypeError], which nothing catches. *)
Theorem dot_without_port_raises_TypeError :
  run "DEVICES G:AND 2; CONNECT G > G.;" = Raise TypeError.
Proof. vm_compute. reflexivity. Qed.

End ParserRuns.


(** * Further properties of the code *)

(** ** More on the names table *)

Section NamesMore.

Import Names NamesSpec.

Lemma dense_init : dense init.
Proof.
  split; cbn; [done|]. intros i. rewrite lookup_empty.
  split; [by intros [? ?] | lia].
Qed.

Lemma dense_lookup_one x self : dense self → dense (lookup_one x self).2.
Proof.
  intros [H0 Hd]. unfold lookup_one, query.
  destruct (names_id self !! x); cbn; [done|].
  split; cbn; [lia|]. intros i.
  destruct (decide (i = num_items self)) as [->|Hne].
  - rewrite lookup_insert_eq. split; [lia | eauto].
  - rewrite lookup_insert_ne by done. rewrite Hd. lia.
Qed.

Lemma dense_lookup l self : dense self → dense (lookup l self).2.
Proof.
  revert self. induction l as [|x l IH]; intros self Hd; [done|].
  cbn. pose proof (dense_lookup_one x self Hd) as H1.
  destruct (lookup_one x self) as [i self1]. cbn in H1.
  specialize (IH self1 H1). by destruct (lookup l self1).
Qed.

Lemma dense_reaches self self' : reaches self self' → dense self → dense self'.
Proof.
  induction 1 as [|s1 s2 s3 Hstep _ IH]; [done|]. intros Hd. apply IH.
  destruct Hstep; [by apply dense_lookup | done].
Qed.

(** X1. In every state of a names table reached from [Names()], the IDs
    in use are exactly the integers from 0 up to [num_items] (and
    [get_name_string] of anything else, [None] and strings included, is
    [None]); an ID that resolves to a name is the ID [query] and [lookup]
    give for that name, [lookup] then leaving the table as it is; and no
    two names share an ID. *)
Theorem ids_are_dense_and_distinct (self : t) :
  reachable self →
  (∀ v, is_Some (get_name_string v self)
        ↔ ∃ i, v = PInt i ∧ 0 ≤ i < num_items self)
  ∧ (∀ i s, get_name_string (PInt i) self = Some s →
            query s self = Some i ∧ lookup [s] self = ([i], self))
  ∧ (∀ s1 s2 i, query s1 self = Some i → query s2 self = Some i → s1 = s2).
Proof.
  intros Hr. pose proof (wf_reachable self Hr) as Hwf.
  pose proof (dense_reaches _ _ Hr dense_init) as [H0 Hd].
  split_and!.
  - intros v. split.
    + destruct v as [|i|s]; cbn; intros Hs; try by destruct Hs.
      exists i. split; [done|]. by apply Hd.
    + intros (i & -> & Hi). cbn. by apply Hd.
  - intros i s Hs. cbn in Hs. apply (wf_id_names _ Hwf) in Hs.
    split; [done|]. by apply lookup_present.
  - intros s1 s2 i H1 H2. apply (wf_names_id _ Hwf) in H1, H2. congruence.
Qed.

Lemma ids_are_dense_and_distinct_witness :
  let self := (lookup ["A"; "B"; "A"] init).2 in
  (∀ v, is_Some (get_name_string v self)
        ↔ ∃ i, v = PInt i ∧ 0 ≤ i < num_items self)
  ∧ (∀ i s, get_name_string (PInt i) self = Some s →
            query s self = Some i ∧ lookup [s] self = ([i], self))
  ∧ (∀ s1 s2 i, query s1 self = Some i → query s2 self = Some i → s1 = s2).
Proof.
  apply (ids_are_dense_and_distinct (lookup ["A"; "B"; "A"] init).2).
  unfold reachable, reaches.
  eapply rtc_l; [apply (step_lookup ["A"; "B"; "A"]) | apply rtc_refl].
Defined.

(** The table after [lookup] has the entries it had and one for every
    name looked up. *)
Lemma lookup_resolves_from l : ∀ self,
  wf self →
  Forall2 (λ s i, query s (lookup l self).2 = Some i) l (lookup l self).1.
Proof.
  induction l as [|x l IH]; intros self Hwf; [constructor|].
  cbn. destruct (lookup_interns x self) as (i & Hid & Hq).
  pose proof (wf_lookup_one x self Hwf) as H1.
  cbn in Hid, Hq. destruct (lookup_one x self) as [j self1]. cbn in *.
  injection Hid as ->.
  specialize (IH self1 H1). pose proof (query_lookup l x i self1 Hq) as Hq'.
  destruct (lookup l self1) as [ids self2]. cbn in *.
  by constructor.
Qed.

(** X2. [lookup] on a list of names, in any state reached from
    [Names()], returns one ID for each name, in the order of the list:
    the ID at each place resolves, in the table [lookup] leaves, to the
    name at that place, also when the list repeats a name or names
    that were not yet in the table. *)
Theorem lookup_list_resolves (self : t) (l : list string) :
  reachable self →
  Forall2 (λ s i, get_name_string (PInt i) (lookup l self).2 = Some s
                  ∧ query s (lookup l self).2 = Some i)
    l (lookup l self).1.
Proof.
  intros Hr. apply wf_reachable in Hr.
  pose proof (wf_lookup l self Hr) as Hwf.
  eapply Forall2_impl; [by apply lookup_resolves_from|].
  intros s i Hq. split; [|done]. cbn. by apply (wf_names_id _ Hwf).
Qed.

Lemma lookup_list_resolves_witness :
  Forall2 (λ s i,
             get_name_string (PInt i)
               (lookup ["Q"; "A"; "Q"] (lookup ["A"] init).2).2 = Some s
             ∧ query s (lookup ["Q"; "A"; "Q"] (lookup ["A"] init).2).2
               = Some i)
    ["Q"; "A"; "Q"] (lookup ["Q"; "A"; "Q"] (lookup ["A"] init).2).1.
Proof.
  apply (lookup_list_resolves (lookup ["A"] init).2 ["Q"; "A"; "Q"]).
  unfold reachable, reaches.
  eapply rtc_l; [apply (step_lookup ["A"]) | apply rtc_refl].
Defined.

Lemma lookup_fresh_from l : ∀ self,
  NoDup l → Forall (λ s, query s self = None) l →
  (lookup l self).1 = seqZ (num_items self) (Z.of_nat (length l))
  ∧ num_items (lookup l self).2 = num_items self + Z.of_nat (length l)
  ∧ error_code_count (lookup l self).2 = error_code_count self.
Proof.
  induction l as [|x l IH]; intros self Hnd Habs.
  - cbn. split; [done|]. split; [lia | done].
  - apply NoDup_cons in Hnd as [Hx Hnd].
    apply Forall_cons in Habs as [Hqx Habs].
    cbn [lookup]. unfold lookup_one. rewrite Hqx.
    set (self1 := {| error_code_count := error_code_count self;
                     id_names := _; names_id := _; num_items := _ |}).
    specialize (IH self1 Hnd).
    destruct IH as (Hids & Hn & He).
    { rewrite Forall_forall in Habs |- *. intros s Hs.
      unfold query, self1. cbn.
      rewrite lookup_insert_ne; [by apply Habs|]. by intros ->. }
    destruct (lookup l self1) as [ids self2]. cbn in *.
    rewrite Hids, Hn, He. unfold self1. cbn [num_items error_code_count].
    rewrite Nat2Z.inj_succ. split_and!; [|lia|done].
    rewrite (seqZ_cons (num_items self)) by lia.
    f_equal. f_equal; lia.
Qed.

(** X3. Names that are new to the table get the next free IDs in the
    order they are given: [lookup] of a list of names without repeats,
    none of which [query] finds, returns [num_items], [num_items + 1],
    ... and advances [num_items] by the length of the list. *)
Theorem lookup_fresh_names (self : t) (l : list string) :
  NoDup l → Forall (λ s, query s self = None) l →
  (lookup l self).1 = seqZ (num_items self) (Z.of_nat (length l))
  ∧ num_items (lookup l self).2 = num_items self + Z.of_nat (length l).
Proof.
  intros Hnd Habs.
  destruct (lookup_fresh_from l self Hnd Habs) as (? & ? & _). done.
Qed.

Lemma lookup_fresh_names_witness :
  (lookup ["G1"; "G2"] (lookup ["SW"] init).2).1
  = seqZ (num_items (lookup ["SW"] init).2) (Z.of_nat (length ["G1"; "G2"]))
  ∧ num_items (lookup ["G1"; "G2"] (lookup ["SW"] init).2).2
    = num_items (lookup ["SW"] init).2 + Z.of_nat (length ["G1"; "G2"]).
Proof.
  apply (lookup_fresh_names (lookup ["SW"] init).2 ["G1"; "G2"]).
  - refine (bool_decide_unpack (NoDup ["G1"; "G2"]) _). by vm_compute.
  - repeat constructor.
Defined.

Lemma count_lookup l self :
  error_code_count (lookup l self).2 = error_code_count self.
Proof.
  revert self. induction l as [|x l IH]; intros self; [done|].
  cbn. assert (error_code_count (lookup_one x self).2
               = error_code_count self) as H1.
  { unfold lookup_one. by destruct (query x self). }
  destruct (lookup_one x self) as [i self1]. cbn in H1.
  specialize (IH self1). destruct (lookup l self1). cbn in *. congruence.
Qed.

Lemma count_step_nonneg self self' :
  step_nonneg self self' → error_code_count self ≤ error_code_count self'.
Proof.
  destruct 1 as [l self|n self Hn]; [rewrite count_lookup|cbn]; lia.
Qed.

Lemma count_rtc_nonneg self self' :
  rtc step_nonneg self self' → error_code_count self ≤ error_code_count self'.
Proof.
  induction 1 as [|s1 s2 s3 Hstep _ IH]; [lia|].
  apply count_step_nonneg in Hstep. lia.
Qed.

(** X4. The error codes are unique: [unique_error_codes(n)] returns the
    [n] integers from the current count on, and, whatever names are looked
    up and whatever non-negative numbers of codes are requested in
    between, every code a later call returns is greater than every code
    of this one. *)
Theorem unique_error_codes_are_unique (self later : t) (n m : Z) :
  rtc step_nonneg (unique_error_codes n self).2 later →
  (unique_error_codes n self).1 = seqZ (error_code_count self) n
  ∧ ∀ c c', c ∈ (unique_error_codes n self).1 →
            c' ∈ (unique_error_codes m later).1 → c < c'.
Proof.
  intros Hl. apply count_rtc_nonneg in Hl. cbn in *.
  split; [f_equal; lia|].
  intros c c'. rewrite !elem_of_seqZ. lia.
Qed.

Lemma unique_error_codes_are_unique_witness :
  (unique_error_codes 33 init).1 = seqZ (error_code_count init) 33
  ∧ ∀ c c', c ∈ (unique_error_codes 33 init).1 →
            c' ∈ (unique_error_codes 4
                    (unique_error_codes 5
                       (lookup ["CLK"] (unique_error_codes 33 init).2).2).2).1 →
            c < c'.
Proof.
  apply (unique_error_codes_are_unique init
           (unique_error_codes 5
              (lookup ["CLK"] (unique_error_codes 33 init).2).2).2 33 4).
  eapply rtc_l; [apply (nonneg_lookup ["CLK"])|].
  eapply rtc_l; [apply (nonneg_codes 5); lia | apply rtc_refl].
Defined.

End NamesMore.

(** ** More on the scanner *)

Section ScannerMore.

Import Scanner ScannerSpec ScannerRuns.

Lemma get_name_loop_S n acc s :
  get_name_loop (S n) acc s =
  match current_character s with
  | Some c =>
      if isalnum c
      then get_name_loop n (acc +:+ String c EmptyString) (advance s)
      else (acc, s)
  | None => (acc, s)
  end.
Proof. reflexivity. Qed.

(** The name loop reads exactly the maximal run of letters and digits at
    the cursor. *)
Lemma get_name_loop_run cs : ∀ fuel acc s c rest,
  current_character s = Some c → isalnum c = true →
  FILE s = cs ++ rest →
  Forall (λ c, isalnum c = true) cs →
  (∀ c, head rest = Some c → isalnum c = false) →
  (length cs + 2 ≤ fuel)%nat →
  get_name_loop fuel acc s =
    (acc +:+ string_of_chars (c :: cs), Nat.iter (S (length cs)) advance s).
Proof.
  induction cs as [|c' cs IH]; intros fuel acc s c rest Hc Ha HF Hcs Hrest Hfuel.
  - destruct fuel as [|[|fuel]]; [cbn in Hfuel; lia..|].
    rewrite get_name_loop_S, Hc, Ha, get_name_loop_S. cbn.
    cbn in HF. rewrite HF.
    destruct (head rest) as [x|] eqn:Hh; [|done].
    by rewrite (Hrest x).
  - destruct fuel as [|fuel]; [cbn in Hfuel; lia|].
    rewrite get_name_loop_S, Hc, Ha.
    apply Forall_cons in Hcs as [Ha' Hcs].
    rewrite (IH fuel _ (advance s) c' rest);
      [| by cbn; rewrite HF | done | by cbn; rewrite HF | done | done
       | cbn in Hfuel; lia].
    rewrite append_snoc. f_equal. cbn [length].
    symmetry. apply Nat.iter_succ_r.
Qed.

Lemma get_name_run s c cs rest :
  current_character s = Some c → isalnum c = true →
  FILE s = cs ++ rest →
  Forall (λ c, isalnum c = true) cs →
  (∀ c, head rest = Some c → isalnum c = false) →
  get_name s =
    (string_of_chars (c :: cs), Nat.iter (S (length cs)) advance s).
Proof.
  intros Hc Ha HF Hcs Hrest. unfold get_name.
  rewrite (get_name_loop_run cs _ _ s c rest); try done.
  unfold budget. rewrite HF, length_app. lia.
Qed.

(** What a run of [advance] leaves alone, and the text left after it. *)
Lemma iter_advance_frame n s : frame s (Nat.iter n advance s).
Proof.
  induction n as [|n IH]; [apply frame_refl|].
  cbn. eapply frame_trans; [exact IH | apply frame_advance].
Qed.

Lemma iter_advance_place n s :
  line_number (Nat.iter n advance s) = line_number s
  ∧ position (Nat.iter n advance s) = position s + Z.of_nat n.
Proof.
  induction n as [|n [IH1 IH2]]; [cbn; split; [done|lia]|].
  rewrite Nat2Z.inj_succ, Nat.iter_succ.
  change (line_number (advance ?x)) with (line_number x).
  change (position (advance ?x)) with (position x + 1).
  rewrite IH1, IH2. split; [done|lia].
Qed.

Lemma pending_iter_advance cs : ∀ s c rest,
  current_character s = Some c → FILE s = cs ++ rest →
  pending (Nat.iter (S (length cs)) advance s) = rest.
Proof.
  induction cs as [|c' cs IH]; intros s c rest Hc HF.
  - change (Nat.iter _ advance s) with (advance s).
    by rewrite (pending_advance s c Hc).
  - cbn [length]. rewrite Nat.iter_succ_r.
    apply (IH (advance s) c' rest); cbn; by rewrite HF.
Qed.

(** X5. When the scanner, having skipped blanks and comments, is at a
    letter, [get_symbol] reads the whole run of letters and digits that
    starts there and nothing more, and returns a symbol placed at the
    letter, of kind KEYWORD if the run is one of the keywords and NAME
    otherwise, whose id is the ID under which the names table (after the
    call) holds the run; the run also becomes the scanner's
    [name_string]. *)
Theorem get_symbol_identifier s sym1 s1 c cs rest :
  strip s = Proceed sym1 s1 →
  Names.reachable (names s) →
  current_character s1 = Some c → isalpha c = true →
  FILE s1 = cs ++ rest →
  Forall (λ c, isalnum c = true) cs →
  (∀ c', head rest = Some c' → isalnum c' = false) →
  let text := string_of_chars (c :: cs) in
  let s' := (get_symbol s).2 in
  ∃ sym,
    (get_symbol s).1 = Ok sym
    ∧ Symbol.type sym =
        Some (if bool_decide (text ∈ keywords_list)
              then Symbol.KEYWORD else Symbol.NAME)
    ∧ (∃ i, Symbol.id sym = PInt i
            ∧ Names.get_name_string (PInt i) (names s') = Some text)
    ∧ Symbol.line_number sym = line_number s1
    ∧ Symbol.position sym = position s1
    ∧ names s' = (Names.lookup [text] (names s)).2
    ∧ name_string s' = text
    ∧ pending s' = rest.
Proof.
  intros Hstrip Hr Hc Halpha HF Hcs Hrest text s'.
  pose proof (strip_frame s) as Hf. rewrite Hstrip in Hf.
  destruct Hf as (Hf & _).
  subst s'. unfold get_symbol. rewrite Hstrip.
  unfold tokenise. rewrite Hc, Halpha.
  rewrite (get_name_run s1 c cs rest) by auto using isalpha_isalnum.
  fold text.
  set (s2 := Nat.iter (S (length cs)) advance s1).
  assert (names s2 = names s) as Hn.
  { unfold s2. rewrite (frame_names _ _ (iter_advance_frame _ s1)).
    apply (frame_names _ _ Hf). }
  change (names (set_name_string text s2)) with (names s2). rewrite Hn.
  destruct (lookup_interns text (names s)) as (i & Hid & Hq).
  pose proof (wf_lookup [text] (names s) (wf_reachable _ Hr)) as Hwf.
  destruct (Names.lookup [text] (names s)) as [ids nm]. cbn in Hid, Hq, Hwf.
  subst ids. cbn. eexists. split; [done|]. cbn.
  split_and!; try done.
  - exists i. split; [done|]. by apply (Names.wf_names_id _ Hwf).
  - apply (pending_iter_advance cs s1 c rest Hc HF).
Qed.

Lemma names_init contents nm :
  names (init contents nm) = (Names.lookup keywords_list nm).2.
Proof. unfold init. by destruct (Names.lookup keywords_list nm). Qed.

Lemma init_names_reachable contents nm :
  Names.reachable nm → Names.reachable (names (init contents nm)).
Proof.
  intros Hr. rewrite names_init. unfold Names.reachable, Names.reaches.
  eapply rtc_r; [exact Hr | apply Names.step_lookup].
Qed.

Lemma strip_at_token s :
  at_char "/" (skip_spaces s) = false → at_char "#" (skip_spaces s) = false →
  at_char NL (skip_spaces s) = false →
  strip s = Proceed Symbol.init (skip_spaces s).
Proof. intros H1 H2 H3. unfold strip, budget. by apply strip_loop_proceed. Qed.

Lemma get_symbol_identifier_witness :
  let s := init (String.list_ascii_of_string " G1,") Names.init in
  let text := string_of_chars ["G"; "1"]%char in
  let s' := (get_symbol s).2 in
  ∃ sym,
    (get_symbol s).1 = Ok sym
    ∧ Symbol.type sym =
        Some (if bool_decide (text ∈ keywords_list)
              then Symbol.KEYWORD else Symbol.NAME)
    ∧ (∃ i, Symbol.id sym = PInt i
            ∧ Names.get_name_string (PInt i) (names s') = Some text)
    ∧ Symbol.line_number sym = line_number (skip_spaces s)
    ∧ Symbol.position sym = position (skip_spaces s)
    ∧ names s' = (Names.lookup [text] (names s)).2
    ∧ name_string s' = text
    ∧ pending s' = [","]%char.
Proof.
  intros s.
  apply (get_symbol_identifier s Symbol.init (skip_spaces s)
           "G" ["1"]%char [","]%char).
  - apply strip_at_token; vm_compute; reflexivity.
  - apply init_names_reachable, rtc_refl.
  - vm_compute. reflexivity.
  - vm_compute. reflexivity.
  - vm_compute. reflexivity.
  - repeat constructor.
  - intros c [= <-]. vm_compute. reflexivity.
Defined.

(** The value of a decimal numeral, digit by digit. *)
Lemma int_of_digits_from_foldl l : ∀ acc,
  int_of_digits_from acc (string_of_chars l)
  = foldl (λ n c, 10 * n + (Z.of_nat (nat_of_ascii c) - 48)) acc l.
Proof. induction l as [|c l IH]; intros acc; [done|]. cbn. apply IH. Qed.

Lemma list_ascii_of_string_of_chars l :
  String.list_ascii_of_string (string_of_chars l) = l.
Proof. apply String.list_ascii_of_string_of_list_ascii. Qed.

(** [int] of a run of digits: its value when the digits are decimal and
    no more than [int_max_str_digits], and [ValueError] otherwise. *)
Lemma int_run d ds :
  int (string_of_chars (d :: ds))
  = if forallb isdecimal (d :: ds)
       && (Z.of_nat (length (d :: ds)) <=? int_max_str_digits)
    then Ok (foldl (λ n c, 10 * n + (Z.of_nat (nat_of_ascii c) - 48)) 0
               (d :: ds))
    else Raise ValueError.
Proof.
  unfold int. rewrite list_ascii_of_string_of_chars, length_string_of_chars.
  rewrite bool_decide_eq_false_2 by done. cbn [negb andb].
  unfold int_of_digits. by rewrite int_of_digits_from_foldl.
Qed.

(** X6. When the scanner, having skipped blanks and comments, is at a
    digit and the last name scanned is not "SWITCH", [get_symbol] reads
    exactly the run of characters that [str.isdigit] accepts and that
    starts there.  When the last name scanned is "SIGGEN" it returns a
    NUMBER placed at the first digit whose id is the run itself, as a
    string (so leading zeros are kept).  Otherwise it returns a NUMBER
    whose id is the decimal value of the run, when all digits of the run
    are decimal and they are no more than 4300; when the run holds a
    superscript digit or is longer, [int] raises [ValueError] and no
    symbol is returned. *)
Theorem get_symbol_number s sym1 s1 d ds rest :
  strip s = Proceed sym1 s1 →
  name_string s ≠ "SWITCH" →
  current_character s1 = Some d → isdigit d = true →
  FILE s1 = ds ++ rest →
  Forall (λ c, isdigit c = true) ds →
  (∀ c, head rest = Some c → isdigit c = false) →
  get_symbol s =
    (let number (id : pyval) : Result Symbol.t :=
       Ok {| Symbol.type := Some Symbol.NUMBER; Symbol.id := id;
             Symbol.line_number := line_number s1;
             Symbol.position := position s1 |} in
     if bool_decide (name_string s = "SIGGEN")
     then number (PStr (string_of_chars (d :: ds)))
     else if forallb isdecimal (d :: ds)
             && (Z.of_nat (length (d :: ds)) <=? 4300)
     then
       number
         (PInt (foldl (λ n c, 10 * n + (Z.of_nat (nat_of_ascii c) - 48)) 0
                  (d :: ds)))
     else Raise ValueError,
     Nat.iter (length (d :: ds)) advance s1).
Proof.
  intros Hstrip Hname Hc Hd HF Hds Hrest.
  pose proof (strip_frame s) as Hf. unfold get_symbol.
  rewrite Hstrip in *. destruct Hf as (Hf & _).
  unfold tokenise. rewrite Hc, (isdigit_not_alpha d Hd), Hd.
  rewrite (frame_name_string _ _ Hf).
  unfold get_waveform, get_number.
  rewrite (get_digits_run s1 d ds rest) by done.
  case_bool_decide; [done|].
  rewrite bool_decide_eq_false_2 by done.
  rewrite int_run. unfold int_max_str_digits. cbv zeta.
  by destruct (forallb isdecimal (d :: ds) && _).
Qed.

Lemma get_symbol_number_witness :
  let waveform :=
    (get_symbol
       (init (String.list_ascii_of_string "SIGGEN 0110;") Names.init)).2 in
  let period :=
    (get_symbol
       (init (String.list_ascii_of_string "CLOCK 120,") Names.init)).2 in
  get_symbol waveform =
    (Ok {| Symbol.type := Some Symbol.NUMBER; Symbol.id := PStr "0110";
           Symbol.line_number := line_number (skip_spaces waveform);
           Symbol.position := position (skip_spaces waveform) |},
     Nat.iter 4 advance (skip_spaces waveform))
  ∧ get_symbol period =
      (Ok {| Symbol.type := Some Symbol.NUMBER; Symbol.id := PInt 120;
             Symbol.line_number := line_number (skip_spaces period);
             Symbol.position := position (skip_spaces period) |},
       Nat.iter 3 advance (skip_spaces period)).
Proof.
  intros waveform period. split.
  - assert (name_string waveform = "SIGGEN") as Hn
      by (vm_compute; reflexivity).
    rewrite (get_symbol_number waveform Symbol.init (skip_spaces waveform)
               "0" ["1"; "1"; "0"]%char [";"]%char).
    + rewrite Hn. reflexivity.
    + apply strip_at_token; vm_compute; reflexivity.
    + rewrite Hn. intros [=].
    + vm_compute. reflexivity.
    + vm_compute. reflexivity.
    + vm_compute. reflexivity.
    + repeat constructor.
    + intros c [= <-]. vm_compute. reflexivity.
  - assert (name_string period = "CLOCK") as Hn
      by (vm_compute; reflexivity).
    rewrite (get_symbol_number period Symbol.init (skip_spaces period)
               "1" ["2"; "0"]%char [","]%char).
    + rewrite Hn. reflexivity.
    + apply strip_at_token; vm_compute; reflexivity.
    + rewrite Hn. intros [=].
    + vm_compute. reflexivity.
    + vm_compute. reflexivity.
    + vm_compute. reflexivity.
    + repeat constructor.
    + intros c [= <-]. vm_compute. reflexivity.
Defined.

End ScannerMore.

Section ScannerTracking.
Import Scanner ScannerSpec ScannerRuns.

Lemma newlines_app l1 l2 : newlines (l1 ++ l2) = newlines l1 + newlines l2.
Proof. unfold newlines. rewrite filter_app, length_app. lia. Qed.

Lemma newlines_nonneg l : 0 ≤ newlines l.
Proof. unfold newlines. lia. Qed.

Lemma newlines_cons c l :
  newlines (c :: l) = (if bool_decide (c = NL) then 1 else 0) + newlines l.
Proof.
  unfold newlines. rewrite filter_cons.
  case_bool_decide; destruct (decide _); try done; cbn [length]; lia.
Qed.

Lemma reads_refl s : reads s s.
Proof. exists []. split; [done|]. unfold newlines. cbn. lia. Qed.

Lemma reads_trans s1 s2 s3 : reads s1 s2 → reads s2 s3 → reads s1 s3.
Proof.
  intros (k1 & H1 & L1) (k2 & H2 & L2). exists (k1 ++ k2).
  rewrite newlines_app, <- app_assoc, <- H2. split; [done|lia].
Qed.

Lemma at_end_empty_advance s : at_end_empty (advance s).
Proof. unfold at_end_empty. cbn. by destruct (FILE s). Qed.

Lemma reads_advance s c :
  current_character s = Some c → c ≠ NL → reads s (advance s).
Proof.
  intros Hc Hnl. exists [c]. rewrite (pending_advance s c Hc).
  unfold pending. rewrite Hc. split; [done|].
  rewrite newlines_cons, bool_decide_eq_false_2 by done.
  unfold newlines. cbn. lia.
Qed.

Lemma reads_advance_at_end s :
  current_character s = None → at_end_empty s → reads s (advance s).
Proof.
  intros Hc He. exists []. unfold pending. cbn. rewrite Hc, (He Hc).
  split; [done|]. unfold newlines. cbn. lia.
Qed.

Lemma reads_newline s p :
  at_char NL s = true →
  reads s (advance (set_cursor (line_number s + 1) p s)).
Proof.
  intros Hc. apply at_char_Some in Hc. exists [NL].
  rewrite (pending_advance (set_cursor _ _ s) NL Hc).
  unfold pending. rewrite Hc. split; [done|].
  rewrite newlines_cons, bool_decide_eq_true_2 by done.
  unfold newlines. cbn. lia.
Qed.

Lemma reads_set_cursor s p : reads s (set_cursor (line_number s) p s).
Proof. exists []. split; [done|]. unfold newlines. cbn. lia. Qed.

Lemma isalnum_not_NL c : isalnum c = true → c ≠ NL.
Proof. by intros H ->. Qed.

Lemma isdigit_not_NL c : isdigit c = true → c ≠ NL.
Proof. by intros H ->. Qed.

Lemma tracked_refl s : tracked s s.
Proof. intros He. split; [done | apply reads_refl]. Qed.

Lemma tracked_trans s1 s2 s3 : tracked s1 s2 → tracked s2 s3 → tracked s1 s3.
Proof.
  intros H1 H2 He. destruct (H1 He) as [He2 R1].
  destruct (H2 He2) as [He3 R2]. split; [done|]. by eapply reads_trans.
Qed.

Lemma tracked_advance s c :
  current_character s = Some c → c ≠ NL → tracked s (advance s).
Proof.
  intros Hc Hnl _. split; [apply at_end_empty_advance|].
  by eapply reads_advance.
Qed.

Lemma tracked_advance_at_end s :
  current_character s = None → tracked s (advance s).
Proof.
  intros Hc He. split; [apply at_end_empty_advance|].
  by apply reads_advance_at_end.
Qed.

Lemma tracked_newline s p :
  at_char NL s = true →
  tracked s (advance (set_cursor (line_number s + 1) p s)).
Proof.
  intros Hc _. split; [apply at_end_empty_advance|]. by apply reads_newline.
Qed.

Lemma tracked_set_cursor s p : tracked s (set_cursor (line_number s) p s).
Proof. intros He. split; [done | apply reads_set_cursor]. Qed.

Lemma skip_spaces_loop_tracked fuel : ∀ s, tracked s (skip_spaces_loop fuel s).
Proof.
  induction fuel as [|fuel IH]; intros s; [apply tracked_refl|].
  rewrite skip_spaces_loop_S.
  destruct (at_char " " s || at_char TAB s) eqn:Hb; [|apply tracked_refl].
  assert (∃ c, current_character s = Some c ∧ c ≠ NL) as (c & Hc & Hnl).
  { apply orb_true_iff in Hb as [Hb|Hb]; apply at_char_Some in Hb;
      eexists; (split; [exact Hb | done]). }
  eapply tracked_trans; [by eapply tracked_advance|].
  cbv zeta. destruct (at_char TAB (advance s)); [|apply IH].
  eapply tracked_trans; [apply tracked_set_cursor | apply IH].
Qed.

Lemma skip_spaces_tracked s : tracked s (skip_spaces s).
Proof. apply skip_spaces_loop_tracked. Qed.

Lemma get_name_loop_tracked fuel : ∀ acc s,
  tracked s (get_name_loop fuel acc s).2.
Proof.
  induction fuel as [|fuel IH]; intros acc s; [apply tracked_refl|].
  rewrite get_name_loop_S.
  destruct (current_character s) as [c|] eqn:Hc; [|apply tracked_refl].
  destruct (isalnum c) eqn:Ha; [|apply tracked_refl].
  eapply tracked_trans; [|apply IH].
  eapply tracked_advance; [done | by apply isalnum_not_NL].
Qed.

Lemma get_digits_loop_tracked fuel : ∀ acc s,
  tracked s (get_digits_loop fuel acc s).2.
Proof.
  induction fuel as [|fuel IH]; intros acc s; [apply tracked_refl|].
  rewrite get_digits_loop_S.
  destruct (current_character s) as [c|] eqn:Hc; [|apply tracked_refl].
  destruct (isdigit c) eqn:Ha; [|apply tracked_refl].
  eapply tracked_trans; [|apply IH].
  eapply tracked_advance; [done | by apply isdigit_not_NL].
Qed.

(** One iteration of a comment loop, at a character or at the end of the
    file. *)
Lemma tracked_comment_step s :
  tracked s
    (advance (if at_char NL s then set_cursor (line_number s + 1) 0 s
              else s)).
Proof.
  destruct (at_char NL s) eqn:Hnl; [by apply tracked_newline|].
  destruct (current_character s) as [c|] eqn:Hc.
  - eapply tracked_advance; [done|]. intros ->.
    apply at_char_Some in Hc. congruence.
  - by apply tracked_advance_at_end.
Qed.

Lemma block_comment_loop_tracked fuel : ∀ flag s,
  match block_comment_loop fuel flag s with
  | inl s' => tracked s s'
  | inr s' =>
      tracked s s' ∧ (at_end_empty s → current_character s' = None)
  end.
Proof.
  induction fuel as [|fuel IH]; intros flag s; [apply tracked_refl|].
  rewrite block_comment_loop_S.
  destruct (at_char "/" s && negb flag); [apply tracked_refl|].
  cbv zeta. pose proof (tracked_comment_step s) as Hstep.
  set (s1 := if at_char NL s then _ else s) in *.
  assert (current_character s1 = current_character s
          ∧ FILE s1 = FILE s) as [Hc1 HF1]
    by (subst s1; by destruct (at_char NL s)).
  destruct (current_character s1) as [c|] eqn:Hc.
  - specialize (IH (negb (at_char "*" s1)) (advance s1)).
    destruct (block_comment_loop _ _ _) as [s'|s'].
    + by eapply tracked_trans.
    + destruct IH as [IH Hend]. split; [by eapply tracked_trans|].
      intros He. apply Hend. by apply Hstep.
  - split; [done|]. intros He. cbn. rewrite HF1, He; [done | congruence].
Qed.

Lemma line_comment_loop_tracked fuel : ∀ s,
  match line_comment_loop fuel s with
  | inl s' => tracked s s'
  | inr s' =>
      tracked s s' ∧ (at_end_empty s → current_character s' = None)
  end.
Proof.
  induction fuel as [|fuel IH]; intros s; [apply tracked_refl|].
  rewrite line_comment_loop_S.
  destruct (at_char NL s) eqn:Hnl; [apply tracked_refl|].
  pose proof (tracked_comment_step s) as Hstep. rewrite Hnl in Hstep.
  destruct (current_character s) as [c|] eqn:Hc.
  - specialize (IH (advance s)).
    destruct (line_comment_loop _ _) as [s'|s'].
    + by eapply tracked_trans.
    + destruct IH as [IH Hend]. split; [by eapply tracked_trans|].
      intros He. apply Hend. by apply Hstep.
  - split; [done|]. intros He. cbn. by rewrite He.
Qed.


Lemma reads_line s s' : reads s s' → line_number s ≤ line_number s'.
Proof. intros (k & _ & ->). pose proof (newlines_nonneg k). lia. Qed.

(** The symbol of the comment-stripping loop is placed where the loop
    was, and a symbol of kind EOF is returned at the end of the file
    only. *)
Lemma strip_loop_tracked fuel : ∀ sym s,
  at_end_empty s → Symbol.type sym = None →
  match strip_loop fuel sym s with
  | Proceed sym' s' =>
      at_end_empty s' ∧ reads s s'
      ∧ ∀ lo, lo ≤ Symbol.line_number sym → lo ≤ line_number s →
              lo ≤ Symbol.line_number sym'
  | Returned sym' s' =>
      at_end_empty s' ∧ reads s s'
      ∧ (∀ lo, lo ≤ Symbol.line_number sym → lo ≤ line_number s →
               lo ≤ Symbol.line_number sym')
      ∧ (Symbol.type sym' = Some Symbol.EOF → current_character s' = None)
  end.
Proof.
  induction fuel as [|fuel IH]; intros sym s He Hty.
  { cbn. split_and!; [done | apply reads_refl | auto]. }
  rewrite strip_loop_S. cbv zeta.
  destruct (at_char "/" s) eqn:Hslash.
  { apply at_char_Some in Hslash.
    assert (tracked s (advance s)) as H1 by by eapply tracked_advance.
    destruct (at_char "*" (advance s)) eqn:Hstar.
    - apply at_char_Some in Hstar.
      assert (tracked s (advance (advance s))) as H2
        by (eapply tracked_trans; [exact H1 | by eapply tracked_advance]).
      pose proof (block_comment_loop_tracked
                    (budget (advance (advance s))) true
                    (advance (advance s))) as Hb.
      pose proof (block_comment_loop_done
                    (budget (advance (advance s))) true
                    (advance (advance s))) as Hd.
      destruct (block_comment_loop _ _ _) as [s1|s1].
      + specialize (Hd s1 (budget_mu _) eq_refl). apply at_char_Some in Hd.
        assert (tracked s (skip_spaces (advance s1))) as H3.
        { eapply tracked_trans; [exact H2|].
          eapply tracked_trans; [exact Hb|].
          eapply tracked_trans; [by eapply tracked_advance|].
          apply skip_spaces_tracked. }
        destruct (H3 He) as [He3 R3].
        specialize (IH (Symbol.set_place (line_number s) (position s) sym)
                      (skip_spaces (advance s1)) He3 Hty).
        pose proof (reads_line _ _ R3) as Hl.
        destruct (strip_loop _ _ _) as [sym' s'|sym' s'].
        * destruct IH as (? & R & Hlo & ?).
          split_and!; [done | by eapply reads_trans | | done].
          intros lo _ Hs. apply Hlo; [unfold Symbol.set_place; cbn [Symbol.line_number]|]; lia.
        * destruct IH as (? & R & Hlo).
          split_and!; [done | by eapply reads_trans |].
          intros lo _ Hs. apply Hlo; [unfold Symbol.set_place; cbn [Symbol.line_number]|]; lia.
      + destruct Hb as [Hb Hend].
        assert (tracked s s1) as H3 by by eapply tracked_trans.
        destruct (H3 He) as [He3 R3]. destruct (H2 He) as [He2 _].
        split_and!; [done | done | by intros lo _ Hs | auto].
    - destruct (H1 He) as [He1 R1].
      split_and!; [done | done | by intros lo _ Hs |].
      cbn. rewrite Hty. done. }
  destruct (at_char "#" s) eqn:Hhash.
  { pose proof (line_comment_loop_tracked (budget s) s) as Hb.
    destruct (line_comment_loop _ _) as [s1|s1].
    - assert (tracked s (skip_spaces s1)) as H3
        by (eapply tracked_trans; [exact Hb | apply skip_spaces_tracked]).
      destruct (H3 He) as [He3 R3].
      specialize (IH sym (skip_spaces s1) He3 Hty).
      pose proof (reads_line _ _ R3) as Hl.
      destruct (strip_loop _ _ _) as [sym' s'|sym' s'].
      + destruct IH as (? & R & Hlo & ?).
        split_and!; [done | by eapply reads_trans | | done].
        intros lo ? Hs. apply Hlo; lia.
      + destruct IH as (? & R & Hlo).
        split_and!; [done | by eapply reads_trans |].
        intros lo ? Hs. apply Hlo; lia.
    - destruct Hb as [Hb Hend]. destruct (Hb He) as [He3 R3].
      split_and!; [done | done | by intros lo ? Hs | auto]. }
  destruct (at_char NL s) eqn:Hnl.
  { assert (tracked s (skip_spaces
                         (advance (set_cursor (line_number s + 1) 0 s))))
      as H3
      by (eapply tracked_trans;
          [by apply tracked_newline | apply skip_spaces_tracked]).
    destruct (H3 He) as [He3 R3].
    specialize (IH sym _ He3 Hty).
    pose proof (reads_line _ _ R3) as Hl.
    destruct (strip_loop _ _ _) as [sym' s'|sym' s'].
    - destruct IH as (? & R & Hlo & ?).
      split_and!; [done | by eapply reads_trans | | done].
      intros lo ? Hs. apply Hlo; lia.
    - destruct IH as (? & R & Hlo).
      split_and!; [done | by eapply reads_trans |].
      intros lo ? Hs. apply Hlo; lia. }
  split_and!; [done | apply reads_refl | auto].
Qed.

Lemma punctuation_not_EOF c : punctuation c ≠ Some Symbol.EOF.
Proof. unfold punctuation. by repeat case_bool_decide. Qed.

Lemma reads_same s s' :
  pending s' = pending s → line_number s' = line_number s → reads s s'.
Proof.
  intros Hp Hl. exists []. rewrite Hp, Hl. split; [done|].
  unfold newlines. cbn. lia.
Qed.

(** The second part of [get_symbol] places the symbol where the scanner
    is, and returns the kind EOF at the end of the file only. *)
Lemma tokenise_tracked sym s :
  at_end_empty s → at_char NL s = false → Symbol.type sym = None →
  at_end_empty (tokenise sym s).2
  ∧ reads s (tokenise sym s).2
  ∧ (∀ sym', (tokenise sym s).1 = Ok sym' →
             Symbol.line_number sym' = line_number s)
  ∧ (Symbol.type <$> (tokenise sym s).1 = Ok (Some Symbol.EOF) ↔
     current_character s = None)
  ∧ (current_character s = None → current_character (tokenise sym s).2 = None).
Proof.
  intros He Hnl Hty. unfold tokenise.
  destruct (current_character s) as [c|] eqn:Hc; cycle 1.
  { cbn. split_and!; try done; [by apply reads_same | by intros ? [= <-]]. }
  assert (c ≠ NL) as Hc_nl.
  { intros ->. apply at_char_Some in Hc. congruence. }
  destruct (isalpha c) eqn:Halpha.
  { pose proof (get_name_loop_tracked (budget s) "" s He) as [He1 R1].
    fold (get_name s) in He1, R1.
    destruct (get_name s) as [name_str s1]. cbn in He1, R1.
    destruct (Names.lookup _ _) as [ids nm]. cbn.
    split_and!; [done | done | by intros ? [= <-] | | done].
    split; [|done]. by case_bool_decide. }
  destruct (isdigit c) eqn:Hdigit.
  { pose proof (get_digits_loop_tracked (budget s) "" s He) as [He1 R1].
    fold (get_digits s) in He1, R1.
    unfold get_waveform, get_bit, get_number.
    destruct (get_digits s) as [num_str s1]. cbn in He1, R1.
    repeat case_bool_decide; try destruct (1 <? _); cbn [fst snd];
      try destruct (int num_str) as [n| |]; cbn;
      (split_and!; [done | done | by intros ? [= <-] | by split | done]). }
  pose proof (reads_advance s c Hc Hc_nl) as R1.
  pose proof (at_end_empty_advance s) as He1.
  pose proof (punctuation_not_EOF c) as Hp.
  destruct (punctuation c) as [k|]; cbn;
    (split_and!;
       [done | done | by intros ? [= <-] | split; [|done] | done]).
  - intros [= ->]. done.
  - by rewrite Hty.
Qed.

(** What a call of [get_symbol] does to the text: it reads on, counting
    the newlines; the symbol has a line number no smaller than those it
    starts from; and once the kind EOF is returned the scanner is at the
    end of the file. *)
Lemma get_symbol_tracked s :
  at_end_empty s →
  at_end_empty (get_symbol s).2
  ∧ reads s (get_symbol s).2
  ∧ (∀ sym lo, (get_symbol s).1 = Ok sym → lo ≤ 1 → lo ≤ line_number s →
               lo ≤ Symbol.line_number sym)
  ∧ (Symbol.type <$> (get_symbol s).1 = Ok (Some Symbol.EOF) →
     current_character (get_symbol s).2 = None).
Proof.
  intros He. unfold get_symbol.
  pose proof (strip_done s) as Hd. unfold strip in *.
  destruct (skip_spaces_tracked s He) as [He1 R1].
  pose proof (strip_loop_tracked (budget (skip_spaces s)) Symbol.init
                (skip_spaces s) He1 eq_refl) as H.
  pose proof (strip_loop_spec (budget (skip_spaces s)) Symbol.init
                (skip_spaces s)) as Hs.
  pose proof (reads_line _ _ R1) as Hl1.
  destruct (strip_loop _ _ _) as [sym' s'|sym' s'].
  - destruct H as (He2 & R2 & Hlo & Hend). cbn.
    split_and!; [done | by eapply reads_trans | | ].
    + intros sym lo [= <-] H1 H2. apply Hlo; [exact H1 | lia].
    + intros [= Hty]. by apply Hend.
  - destruct H as (He2 & R2 & Hlo).
    destruct (Hd sym' s' eq_refl) as (_ & _ & Hnl & _).
    destruct Hs as (_ & Hty & _). cbn in Hty.
    destruct (tokenise_tracked sym' s' He2 Hnl Hty)
      as (He3 & R3 & Hline & Heof & Hend).
    pose proof (reads_line _ _ R2) as Hl2.
    split_and!; [done | | | ].
    + eapply reads_trans; [exact R1|]. by eapply reads_trans.
    + intros sym lo Hsym H1 H2. rewrite (Hline sym Hsym). lia.
    + intros Hty'. apply Hend. by apply Heof.
Qed.

Lemma init_tracked contents names :
  at_end_empty (init contents names)
  ∧ pending (init contents names) = contents
  ∧ line_number (init contents names) = 1
  ∧ lines (init contents names) = initialise_lines contents.
Proof.
  unfold init. destruct (Names.lookup _ _) as [ids nm].
  unfold at_end_empty, pending. cbn. by destruct contents.
Qed.

(** What holds in every state of a scanner. *)
Lemma scanning_invariant contents names s :
  scanning contents names s →
  at_end_empty s ∧ reads (init contents names) s
  ∧ closed_at_end s ∧ stale_read s = false
  ∧ lines s = initialise_lines contents.
Proof.
  unfold scanning. revert s. apply rtc_ind_r.
  - destruct (init_tracked contents names) as (He & _ & _ & Hl).
    destruct (init_closed_at_end contents names) as [Hc Hst].
    split_and!; [done | apply reads_refl | done..].
  - intros s1 s2 _ Hcall IH.
    destruct IH as (He & R & Hc & Hst & Hl). destruct Hcall.
    destruct (get_symbol_tracked s He) as (He' & R' & _).
    destruct (get_symbol_no_stale_read s Hc Hst) as [Hc' Hst'].
    pose proof (scanned_lines _ _ _ (get_symbol_scanned s)) as Hl'.
    split_and!; [done | by eapply reads_trans | done | done | congruence].
Qed.

(** X7. However often [get_symbol] is called on the scanner of a file,
    also after the end of the file, it never reads from the file once it
    has closed it (the [ValueError] of such a read cannot happen), and
    the file is closed only when the scanner is at its end. *)
Theorem scanner_never_reads_closed_file contents names s :
  scanning contents names s →
  stale_read s = false
  ∧ (closed s = true → current_character s = None).
Proof.
  intros Hs. destruct (scanning_invariant _ _ _ Hs) as (_ & _ & Hc & Hst & _).
  done.
Qed.

Lemma scanner_never_reads_closed_file_witness :
  let s0 := init (String.list_ascii_of_string "A") Names.init in
  let s := (get_symbol (get_symbol (get_symbol s0).2).2).2 in
  closed s = true
  ∧ stale_read s = false
  ∧ (closed s = true → current_character s = None).
Proof.
  intros s0 s. split; [vm_compute; reflexivity|].
  apply (scanner_never_reads_closed_file
           (String.list_ascii_of_string "A") Names.init s).
  unfold scanning. fold s0.
  eapply rtc_l; [apply call_get_symbol|].
  eapply rtc_l; [apply call_get_symbol|].
  eapply rtc_l; [apply call_get_symbol|]. apply rtc_refl.
Defined.

(** X8. The end of the file is final: once a call of [get_symbol] has
    returned a symbol of kind EOF (at the top level or inside a comment),
    every later call returns the symbol of kind EOF, without id, at the
    place where the scanner stopped, and leaves the scanner as it is with
    its file closed. *)
Theorem end_of_file_is_final contents names s :
  scanning contents names s →
  Symbol.type <$> (get_symbol s).1 = Ok (Some Symbol.EOF) →
  ∀ n, get_symbol (Nat.iter n (λ x, (get_symbol x).2) (get_symbol s).2)
       = (Ok (eof_symbol (get_symbol s).2), close (get_symbol s).2).
Proof.
  intros Hs Hty. destruct (scanning_invariant _ _ _ Hs) as (He & _).
  destruct (get_symbol_tracked s He) as (_ & _ & _ & Hend).
  specialize (Hend Hty). set (s1 := (get_symbol s).2) in *.
  induction n as [|n IH]; [by apply get_symbol_at_end|].
  rewrite Nat.iter_succ, IH. cbn [snd].
  by rewrite (get_symbol_at_end (close s1)).
Qed.

Lemma end_of_file_is_final_witness :
  let s := (get_symbol (init (String.list_ascii_of_string "A # c")
                          Names.init)).2 in
  closed (get_symbol s).2 = false
  ∧ ∀ n, get_symbol (Nat.iter n (λ x, (get_symbol x).2) (get_symbol s).2)
         = (Ok (eof_symbol (get_symbol s).2), close (get_symbol s).2).
Proof.
  intros s. split; [vm_compute; reflexivity|].
  apply (end_of_file_is_final (String.list_ascii_of_string "A # c")
           Names.init s).
  - unfold scanning. eapply rtc_l; [apply call_get_symbol | apply rtc_refl].
  - vm_compute. reflexivity.
Defined.

End ScannerTracking.

Section ScannerLines.
Import Scanner ScannerSpec ScannerRuns.

(** Where the comment-stripping loop leaves the scanner, and the line
    number the symbol formed there gets. *)
Lemma proceed_place contents names s sym1 s1 :
  scanning contents names s →
  strip s = Proceed sym1 s1 →
  ∃ before,
    contents = before ++ pending s1
    ∧ (∀ sym, (get_symbol s).1 = Ok sym →
              Symbol.line_number sym = 1 + newlines before)
    ∧ (Symbol.type <$> (get_symbol s).1 = Ok (Some Symbol.EOF) ↔
       current_character s1 = None).
Proof.
  intros Hs Hstrip.
  destruct (scanning_invariant _ _ _ Hs) as (He & (k0 & Hk0 & Hl0) & _).
  destruct (init_tracked contents names) as (_ & Hp & Hl & _).
  rewrite Hp in Hk0. rewrite Hl in Hl0.
  pose proof (strip_done s sym1 s1 Hstrip) as (_ & _ & D3 & _).
  pose proof (strip_frame s) as Hf. rewrite Hstrip in Hf.
  destruct Hf as (_ & Hty & _).
  unfold get_symbol. rewrite Hstrip. unfold strip in Hstrip.
  destruct (skip_spaces_tracked s He) as [He1 (k1 & Hk1 & Hl1)].
  pose proof (strip_loop_tracked (budget (skip_spaces s)) Symbol.init
                (skip_spaces s) He1 eq_refl) as H.
  rewrite Hstrip in H. destruct H as (He2 & (k2 & Hk2 & Hl2) & _).
  destruct (tokenise_tracked sym1 s1 He2 D3 Hty)
    as (_ & _ & Hline & Heof & _).
  exists (k0 ++ k1 ++ k2). split_and!; [| |done].
  - rewrite Hk0, Hk1, Hk2. by rewrite <- !app_assoc.
  - intros sym Hsym. rewrite (Hline sym Hsym), !newlines_app. lia.
Qed.

(** X9. The line number of a symbol is one more than the number of
    newline characters of the file before the character at which the
    symbol is formed, wherever those newlines are (between symbols,
    inside line comments or block comments); that character is no blank
    and starts no comment. *)
Theorem symbol_line_number contents names s sym1 s1 :
  scanning contents names s →
  strip s = Proceed sym1 s1 →
  ∃ before,
    contents = before ++ pending s1
    ∧ (∀ sym, (get_symbol s).1 = Ok sym →
              Symbol.line_number sym = 1 + newlines before)
    ∧ ∀ c, head (pending s1) = Some c →
           c ∉ [" "; TAB; NL; "#"; "/"]%char.
Proof.
  intros Hs Hstrip.
  destruct (proceed_place _ _ _ _ _ Hs Hstrip) as (before & H1 & H2 & _).
  exists before. split_and!; [done..|].
  pose proof (strip_done s sym1 s1 Hstrip) as (D1 & D2 & D3 & D4 & D5).
  intros c Hc. unfold pending in Hc.
  destruct (current_character s1) as [c'|] eqn:Hc'; [|done].
  cbn in Hc. injection Hc as ->.
  rewrite !(at_char_eq _ c s1 Hc') in *.
  repeat match goal with
         | H : bool_decide _ = false |- _ =>
             apply bool_decide_eq_false in H
         end.
  rewrite !elem_of_cons, elem_of_nil.
  intros [->|[->|[->|[->|[->|[]]]]]]; done.
Qed.

Lemma symbol_line_number_witness :
  let contents := [NL; "A"; " "; "B"]%char in
  let s := (get_symbol (init contents Names.init)).2 in
  Symbol.line_number <$> (get_symbol s).1 = Ok 2
  ∧ ∃ before,
    contents = before ++ pending (skip_spaces s)
    ∧ (∀ sym, (get_symbol s).1 = Ok sym →
              Symbol.line_number sym = 1 + newlines before)
    ∧ ∀ c, head (pending (skip_spaces s)) = Some c →
           c ∉ [" "; TAB; NL; "#"; "/"]%char.
Proof.
  intros contents s. split; [vm_compute; reflexivity|].
  apply (symbol_line_number contents Names.init s Symbol.init
           (skip_spaces s)).
  - unfold scanning. eapply rtc_l; [apply call_get_symbol | apply rtc_refl].
  - apply strip_at_token; vm_compute; reflexivity.
Defined.

(** *** The stored lines *)

Lemma append_not_empty (line : string) (c : ascii) :
  line +:+ String c EmptyString ≠ EmptyString.
Proof. by destruct line. Qed.

Lemma split_lines_not_nil l : ∀ line,
  line ≠ EmptyString → split_lines line l ≠ [].
Proof.
  induction l as [|c l IH]; intros line Hline; cbn.
  - by rewrite bool_decide_eq_false_2.
  - case_bool_decide; [done|]. apply IH, append_not_empty.
Qed.

(** A character of the text is on one of the stored lines: the line
    after as many lines as there are newlines before it. *)
Lemma split_lines_holds before c rest : ∀ line,
  newlines before < Z.of_nat (length (split_lines line (before ++ c :: rest))).
Proof.
  induction before as [|x before IH]; intros line.
  - cbn [app split_lines]. unfold newlines. cbn.
    case_bool_decide; [cbn; lia|].
    pose proof (split_lines_not_nil rest _ (append_not_empty line c)).
    destruct (split_lines _ rest); [done | cbn; lia].
  - cbn [app split_lines]. rewrite newlines_cons.
    case_bool_decide.
    + specialize (IH ""). cbn [length]. rewrite Nat2Z.inj_succ. lia.
    + specialize (IH (line +:+ String x EmptyString)). lia.
Qed.

Lemma print_error_in_range sym s :
  1 ≤ Symbol.line_number sym ≤ Z.of_nat (length (lines s)) →
  ∃ line,
    lines s !! Z.to_nat (Symbol.line_number sym - 1) = Some line
    ∧ print_error sym s =
        Ok (line +:+ (if Symbol.line_number sym =? Z.of_nat (length (lines s))
                      then String NL EmptyString else "")
                 +:+ spaces (Symbol.position sym - 1) +:+ "^").
Proof.
  intros [H1 H2]. unfold print_error.
  set (n := Z.of_nat (length (lines s))) in *.
  set (ln := Symbol.line_number sym) in *.
  destruct (py_index_in_range (lines s) (ln - 1)) as (line & Hl & Hi);
    [unfold n in *; lia|].
  exists line. split; [done|]. rewrite Hi.
  replace (1 <=? ln) with true by (symmetry; apply Z.leb_le; lia).
  destruct (Z.eqb_spec ln n) as [Heq|Hn].
  - replace (ln <=? n - 1) with false by (symmetry; apply Z.leb_gt; lia).
    done.
  - replace (ln <=? n - 1) with true by (symmetry; apply Z.leb_le; lia).
    done.
Qed.

Lemma print_error_returns sym s :
  1 ≤ Symbol.line_number sym → ∃ text, print_error sym s = Ok text.
Proof.
  intros H1.
  destruct (decide (Symbol.line_number sym ≤ Z.of_nat (length (lines s))))
    as [H2|H2].
  - destruct (print_error_in_range sym s) as (line & _ & ->); eauto.
  - unfold print_error.
    replace (Symbol.line_number sym <=? Z.of_nat (length (lines s)) - 1)
      with false by (symmetry; apply Z.leb_gt; lia).
    replace (Symbol.line_number sym =? Z.of_nat (length (lines s)))
      with false by (symmetry; apply Z.eqb_neq; lia).
    rewrite andb_false_r. eauto.
Qed.

(** X10. [print_error] never raises for a symbol that [get_symbol]
    has returned, whatever the state of the scanner of the same file it
    is called in; and for a symbol of any kind but EOF it finds the line
    of the symbol among the stored lines and returns that line, then a
    newline if it is the last line, then (position - 1) spaces and a
    caret. *)
Theorem print_error_of_scanned_symbol contents names s s2 sym :
  scanning contents names s →
  scanning contents names s2 →
  (get_symbol s).1 = Ok sym →
  (∃ text, print_error sym s2 = Ok text)
  ∧ ∀ k, Symbol.type sym = Some k → k ≠ Symbol.EOF →
         ∃ line,
           lines s2 !! Z.to_nat (Symbol.line_number sym - 1) = Some line
           ∧ print_error sym s2 =
               Ok (line
                   +:+ (if Symbol.line_number sym
                           =? Z.of_nat (length (lines s2))
                        then String NL EmptyString else "")
                   +:+ spaces (Symbol.position sym - 1) +:+ "^").
Proof.
  intros Hs Hs2 Hsym.
  destruct (scanning_invariant _ _ _ Hs) as (He & R & _).
  destruct (scanning_invariant _ _ _ Hs2) as (_ & _ & _ & _ & Hlines).
  destruct (init_tracked contents names) as (_ & _ & Hl & _).
  apply reads_line in R. rewrite Hl in R.
  destruct (get_symbol_tracked s He) as (_ & _ & Hlo & _).
  specialize (Hlo sym 1 Hsym ltac:(lia) R).
  split; [by apply print_error_returns|].
  intros k Hk Hne. apply print_error_in_range. split; [done|].
  pose proof (strip_frame s) as Hf.
  destruct (strip s) as [sym' s'|sym1 s1] eqn:Hstrip.
  { unfold get_symbol in Hsym. rewrite Hstrip in Hsym. cbn in Hsym.
    injection Hsym as ->.
    destruct Hf as (_ & _ & [Hty|[Hty _]]); rewrite Hty in Hk;
      [by injection Hk as <- | done]. }
  destruct (proceed_place _ _ _ _ _ Hs Hstrip) as (before & Hc & Hline & Heof).
  rewrite (Hline sym Hsym), Hlines. unfold pending in Hc.
  destruct (current_character s1) as [c|].
  - unfold initialise_lines. rewrite Hc.
    pose proof (split_lines_holds before c (FILE s1) ""). lia.
  - destruct Heof as [_ Heof]. specialize (Heof eq_refl).
    rewrite Hsym in Heof. cbn in Heof. congruence.
Qed.

Lemma print_error_of_scanned_symbol_witness :
  let contents := String.list_ascii_of_string "A B" in
  let s := init contents Names.init in
  let s2 := (get_symbol s).2 in
  let sym :=
    {| Symbol.type := Some Symbol.NAME; Symbol.id := PInt 35;
       Symbol.line_number := 1; Symbol.position := 1 |} in
  (get_symbol s).1 = Ok sym
  ∧ (∃ text, print_error sym s2 = Ok text)
  ∧ ∀ k, Symbol.type sym = Some k → k ≠ Symbol.EOF →
         ∃ line,
           lines s2 !! Z.to_nat (Symbol.line_number sym - 1) = Some line
           ∧ print_error sym s2 =
               Ok (line
                   +:+ (if Symbol.line_number sym
                           =? Z.of_nat (length (lines s2))
                        then String NL EmptyString else "")
                   +:+ spaces (Symbol.position sym - 1) +:+ "^").
Proof.
  intros contents s s2 sym.
  assert ((get_symbol s).1 = Ok sym) as Hsym by (vm_compute; reflexivity).
  split; [done|].
  apply (print_error_of_scanned_symbol contents Names.init s s2 sym).
  - apply rtc_refl.
  - unfold scanning. eapply rtc_l; [apply call_get_symbol | apply rtc_refl].
  - done.
Defined.

Lemma split_lines_closed body : ∀ line,
  Z.of_nat (length (split_lines line (body ++ [NL]))) = newlines (body ++ [NL]).
Proof.
  induction body as [|x body IH]; intros line.
  - cbn [app split_lines]. rewrite !bool_decide_eq_true_2 by done.
    rewrite newlines_cons, bool_decide_eq_true_2 by done.
    unfold newlines. cbn. lia.
  - cbn [app split_lines]. rewrite newlines_cons.
    case_bool_decide.
    + cbn [length]. rewrite Nat2Z.inj_succ, IH. lia.
    + rewrite IH. lia.
Qed.

Lemma split_lines_open body c : ∀ line,
  c ≠ NL →
  Z.of_nat (length (split_lines line (body ++ [c])))
  = newlines (body ++ [c]) + 1.
Proof.
  induction body as [|x body IH]; intros line Hc.
  - cbn [app split_lines]. rewrite bool_decide_eq_false_2 by done.
    rewrite bool_decide_eq_false_2 by apply append_not_empty.
    rewrite newlines_cons, bool_decide_eq_false_2 by done.
    unfold newlines. cbn. lia.
  - cbn [app split_lines]. rewrite newlines_cons.
    case_bool_decide.
    + cbn [length]. rewrite Nat2Z.inj_succ, IH by done. lia.
    + rewrite IH by done. lia.
Qed.

(** X11. For the symbol of kind EOF that [get_symbol] returns at the
    top level, [print_error] has no line to show when the file is empty or
    ends with a newline, and returns "Line number out of range."; in any
    other file it returns the last line, a newline, (position - 1)
    spaces and a caret. *)
Theorem print_error_at_end_of_file contents names s s2 sym1 s1 :
  scanning contents names s →
  scanning contents names s2 →
  strip s = Proceed sym1 s1 →
  current_character s1 = None →
  ∃ sym,
    (get_symbol s).1 = Ok sym
    ∧ Symbol.type sym = Some Symbol.EOF
    ∧ if bool_decide (contents = [] ∨ last contents = Some NL) then
        print_error sym s2 = Ok "Line number out of range."
      else
        ∃ line,
          last (lines s2) = Some line
          ∧ print_error sym s2 =
              Ok (line +:+ String NL EmptyString
                       +:+ spaces (Symbol.position sym - 1) +:+ "^").
Proof.
  intros Hs Hs2 Hstrip Hend.
  destruct (scanning_invariant _ _ _ Hs2) as (_ & _ & _ & _ & Hlines).
  destruct (proceed_place _ _ _ _ _ Hs Hstrip) as (before & Hc & Hline & Heof).
  destruct Heof as [_ Heof]. specialize (Heof Hend).
  apply fmap_Ok in Heof as (sym & Hsym & Hty).
  specialize (Hline sym Hsym).
  exists sym. split_and!; [done..|].
  unfold pending in Hc. rewrite Hend, app_nil_r in Hc. subst before.
  assert (∀ n, Z.of_nat (length (lines s2)) = n →
               n = newlines contents →
               print_error sym s2 = Ok "Line number out of range.") as Hout.
  { intros n Hn ->. unfold print_error. rewrite Hn, Hline.
    replace (1 + newlines contents <=? newlines contents - 1)
      with false by (symmetry; apply Z.leb_gt; lia).
    replace (1 + newlines contents =? newlines contents)
      with false by (symmetry; apply Z.eqb_neq; lia).
    by rewrite andb_false_r. }
  case_bool_decide as Hcase.
  - destruct Hcase as [->|Hlast].
    + eapply Hout; [done|]. by rewrite Hlines.
    + apply last_Some in Hlast as [body ->].
      eapply Hout; [done|]. rewrite Hlines. apply split_lines_closed.
  - destruct (last contents) as [c|] eqn:Hlast; cycle 1.
    { apply last_None in Hlast. tauto. }
    assert (c ≠ NL) as Hne by (intros ->; tauto).
    apply last_Some in Hlast as [body ->].
    assert (Z.of_nat (length (lines s2)) = Symbol.line_number sym) as Hn.
    { rewrite Hlines, Hline. unfold initialise_lines.
      rewrite split_lines_open by done. lia. }
    destruct (print_error_in_range sym s2) as (line & Hl & Hp).
    { pose proof (newlines_nonneg (body ++ [c])). lia. }
    rewrite <- Hn, Z.eqb_refl in Hp.
    exists line. split; [|done].
    rewrite last_lookup. rewrite <- Hl. f_equal. lia.
Qed.

Lemma print_error_at_end_of_file_witness :
  let contents := String.list_ascii_of_string "END" ++ [NL] in
  let s := (get_symbol (get_symbol (init contents Names.init)).2).2 in
  ∃ sym,
    (get_symbol s).1 = Ok sym
    ∧ Symbol.type sym = Some Symbol.EOF
    ∧ if bool_decide (contents = [] ∨ last contents = Some NL) then
        print_error sym s = Ok "Line number out of range."
      else
        ∃ line,
          last (lines s) = Some line
          ∧ print_error sym s =
              Ok (line +:+ String NL EmptyString
                       +:+ spaces (Symbol.position sym - 1) +:+ "^").
Proof.
  intros contents s.
  assert (scanning contents Names.init s) as Hs.
  { unfold scanning, s.
    eapply rtc_l; [apply call_get_symbol|].
    eapply rtc_l; [apply call_get_symbol | apply rtc_refl]. }
  apply (print_error_at_end_of_file contents Names.init s s Symbol.init
           (skip_spaces s) Hs Hs).
  - apply strip_at_token; vm_compute; reflexivity.
  - vm_compute. reflexivity.
Defined.

Lemma list_ascii_of_string_app (s1 s2 : string) :
  String.list_ascii_of_string (s1 +:+ s2)
  = String.list_ascii_of_string s1 ++ String.list_ascii_of_string s2.
Proof. induction s1 as [|a s1 IH]; [done|]. cbn. by rewrite <- IH. Qed.

(** The lines [split_lines] makes of a text, when [line] is the part of
    the current line already read: together they are [line] and the
    text, each ends at its newline except perhaps the last one, and none
    is empty. *)
Lemma split_lines_spec l : ∀ line,
  NL ∉ String.list_ascii_of_string line →
  concat (String.list_ascii_of_string <$> split_lines line l)
  = String.list_ascii_of_string line ++ l
  ∧ ∀ i text, split_lines line l !! i = Some text →
      ∃ body, (NL ∉ body)
        ∧ (String.list_ascii_of_string text = body ++ [NL]
           ∨ (String.list_ascii_of_string text = body ∧ body ≠ []
              ∧ S i = length (split_lines line l))).
Proof.
  induction l as [|c l IH]; intros line Hline.
  - cbn [split_lines]. case_bool_decide as Hempty.
    + subst line. split; [done|]. intros i text. by rewrite lookup_nil.
    + split; [cbn; by rewrite !app_nil_r|].
      intros [|i] text; [|by rewrite lookup_cons, lookup_nil].
      intros [= <-]. exists (String.list_ascii_of_string line).
      split; [done|]. right. split_and!; [done | | done].
      destruct line; [done | by cbn].
  - cbn [split_lines]. case_bool_decide as Hc.
    + subst c. destruct (IH "") as [IH1 IH2]; [cbn; apply not_elem_of_nil|].
      split.
      * rewrite fmap_cons. cbn [concat]. rewrite IH1.
        rewrite list_ascii_of_string_app. cbn. by rewrite <- app_assoc.
      * intros [|i] text; cbn.
        -- intros [= <-]. exists (String.list_ascii_of_string line).
           split; [done|]. left. by rewrite list_ascii_of_string_app.
        -- intros Hi. destruct (IH2 i text Hi) as (body & Hb & Hcase).
           exists body. split; [done|].
           destruct Hcase as [?|(? & ? & ?)]; [by left|].
           right. split_and!; [done..|]. by f_equal.
    + destruct (IH (line +:+ String c EmptyString)) as [IH1 IH2].
      { rewrite list_ascii_of_string_app, elem_of_app. cbn.
        rewrite elem_of_cons, elem_of_nil. intros [?|[?|[]]]; [done | congruence]. }
      split; [|done].
      rewrite IH1, list_ascii_of_string_app. cbn. by rewrite <- app_assoc.
Qed.

(** X12. The lines that [initialise_lines] stores are the text of the
    file cut after every newline: joined together they give the file
    back; each of them is a (possibly empty) text without newline followed
    by its newline, except that the last one may lack the newline, and is
    then not empty. *)
Theorem initialise_lines_keeps_the_text (contents : list ascii) :
  concat (String.list_ascii_of_string <$> initialise_lines contents)
  = contents
  ∧ ∀ i text, initialise_lines contents !! i = Some text →
      ∃ body, (NL ∉ body)
        ∧ (String.list_ascii_of_string text = body ++ [NL]
           ∨ (String.list_ascii_of_string text = body ∧ body ≠ []
              ∧ S i = length (initialise_lines contents))).
Proof. apply (split_lines_spec contents ""). cbn. apply not_elem_of_nil. Qed.

End ScannerLines.

Section ScannerKeywords.
Import Scanner ScannerSpec ScannerRuns.

Lemma tokenise_names sym s :
  Names.reaches (names s) (names (tokenise sym s).2).
Proof.
  unfold tokenise, Names.reaches.
  destruct (current_character s) as [c|]; [|apply rtc_refl].
  destruct (isalpha c).
  { pose proof (get_name_loop_frame (budget s) "" s) as Hf.
    fold (get_name s) in Hf. destruct (get_name s) as [name_str s1].
    apply frame_names in Hf. cbn in Hf.
    change (names (set_name_string name_str s1)) with (names s1).
    rewrite Hf.
    pose proof (Names.step_lookup [name_str] (names s)) as Hstep.
    destruct (Names.lookup _ _) as [ids nm]. cbn in *.
    by apply rtc_once. }
  destruct (isdigit c).
  { pose proof (get_digits_loop_frame (budget s) "" s) as Hf.
    fold (get_digits s) in Hf. unfold get_waveform, get_bit, get_number.
    destruct (get_digits s) as [num_str s1].
    apply frame_names in Hf. cbn in Hf.
    repeat case_bool_decide; try destruct (1 <? _); cbn; rewrite Hf;
      apply rtc_refl. }
  destruct (punctuation c); apply rtc_refl.
Qed.

Lemma get_symbol_names s :
  Names.reaches (names s) (names (get_symbol s).2).
Proof.
  unfold get_symbol. pose proof (strip_frame s) as Hf.
  destruct (strip s) as [sym' s'|sym' s'].
  - destruct Hf as (Hf & _). apply frame_names in Hf. cbn. rewrite Hf.
    apply rtc_refl.
  - destruct Hf as (Hf & _). apply frame_names in Hf.
    pose proof (tokenise_names sym' s') as Ht. by rewrite Hf in Ht.
Qed.

Lemma init_keywords_interned contents nm :
  Names.reachable nm → keywords_interned (init contents nm).
Proof.
  intros Hr. unfold keywords_interned.
  pose proof (lookup_resolves_from keywords_list nm (wf_reachable _ Hr)) as H.
  unfold init. by destruct (Names.lookup keywords_list nm).
Qed.

(** X13. In every state of the scanner of a file (whose names table
    came from [Names()] by calls of its methods) the keyword IDs
    [DEVICES_ID], ..., [SIGGEN_ID] still stand for their keywords in the
    names table: [get_name_string] of the ID gives the keyword and
    [query] of the keyword gives the ID, however many names the scanner
    has added; and the IDs are pairwise different. *)
Theorem keyword_ids_stay_valid contents nm s :
  Names.reachable nm →
  scanning contents nm s →
  Names.reachable (names s)
  ∧ Forall2 (λ w i, Names.get_name_string (PInt i) (names s) = Some w
                    ∧ Names.query w (names s) = Some i)
      keywords_list (keyword_ids s)
  ∧ NoDup (keyword_ids s).
Proof.
  intros Hr Hs.
  assert (Names.reachable (names s) ∧ keywords_interned s) as [Hr' Hk].
  { revert s Hs. apply rtc_ind_r.
    - split; [by apply init_names_reachable
             | by apply init_keywords_interned].
    - intros s1 s2 _ Hcall [IH1 IH2]. destruct Hcall.
      pose proof (get_symbol_names s) as Hn. split.
      + unfold Names.reachable, Names.reaches in *. by etrans.
      + unfold keywords_interned in *.
        rewrite (scanned_keyword_ids _ _ _ (get_symbol_scanned s)).
        eapply Forall2_impl; [exact IH2|]. cbn. intros w i.
        by apply query_reaches. }
  pose proof (wf_reachable _ Hr') as Hwf.
  assert (Forall2 (λ w i, Names.get_name_string (PInt i) (names s) = Some w
                          ∧ Names.query w (names s) = Some i)
            keywords_list (keyword_ids s)) as HF.
  { eapply Forall2_impl; [exact Hk|]. cbn. intros w i Hq.
    split; [|done]. by apply (Names.wf_names_id _ Hwf). }
  split_and!; [done..|].
  apply NoDup_alt. intros i j x Hi Hj.
  destruct (Forall2_lookup_r _ _ _ _ _ HF Hi) as (w1 & Hw1 & Hg1 & _).
  destruct (Forall2_lookup_r _ _ _ _ _ HF Hj) as (w2 & Hw2 & Hg2 & _).
  assert (w1 = w2) as -> by congruence.
  assert (NoDup keywords_list) as Hnd
    by (refine (bool_decide_unpack (NoDup keywords_list) _); by vm_compute).
  by apply (NoDup_lookup _ _ _ _ Hnd Hw1 Hw2).
Qed.

Lemma keyword_ids_stay_valid_witness :
  let s := (get_symbol (init (String.list_ascii_of_string "G1") Names.init)).2 in
  Names.reachable (names s)
  ∧ Forall2 (λ w i, Names.get_name_string (PInt i) (names s) = Some w
                    ∧ Names.query w (names s) = Some i)
      keywords_list (keyword_ids s)
  ∧ NoDup (keyword_ids s).
Proof.
  intros s.
  apply (keyword_ids_stay_valid (String.list_ascii_of_string "G1")
           Names.init s).
  - apply rtc_refl.
  - unfold scanning. eapply rtc_l; [apply call_get_symbol | apply rtc_refl].
Defined.

End ScannerKeywords.

Section ScannerProgress.
Import Scanner ScannerSpec ScannerRuns.

Lemma mu_pending s : at_end_empty s → mu s = length (pending s).
Proof.
  intros He. unfold mu, pending, at_end_empty in *.
  destruct (current_character s); cbn; [lia|]. rewrite He by done. cbn. lia.
Qed.

(** X17. The scanner never goes back in the text and never stands still:
    what is left to read after a call of [get_symbol] is an end piece of
    what was left before it, and, unless the symbol returned is of kind
    EOF, a shorter one (at least one character has been read). *)
Theorem get_symbol_reads_on contents nm s :
  scanning contents nm s →
  ∃ skipped,
    pending s = skipped ++ pending (get_symbol s).2
    ∧ (Symbol.type <$> (get_symbol s).1 ≠ Ok (Some Symbol.EOF) →
       skipped ≠ []).
Proof.
  intros Hs. destruct (scanning_invariant _ _ _ Hs) as (He & _).
  destruct (get_symbol_tracked s He) as (He' & (k & Hk & _) & _).
  exists k. split; [done|]. intros Hty ->.
  destruct (scanned_progress _ _ _ (get_symbol_scanned s))
    as [(sym & Hsym & Heof)|Hlt].
  { apply Hty, fmap_Ok. eauto. }
  rewrite (mu_pending s He), (mu_pending _ He'), Hk in Hlt. cbn in Hlt. lia.
Qed.

Lemma get_symbol_reads_on_witness :
  let s := init (String.list_ascii_of_string " # c") Names.init in
  ∃ skipped,
    pending s = skipped ++ pending (get_symbol s).2
    ∧ (Symbol.type <$> (get_symbol s).1 ≠ Ok (Some Symbol.EOF) →
       skipped ≠ []).
Proof.
  intros s.
  apply (get_symbol_reads_on (String.list_ascii_of_string " # c")
           Names.init s).
  apply rtc_refl.
Defined.

End ScannerProgress.

Section ScannerPositions.
Import Scanner ScannerSpec ScannerRuns ScannerColumns.

Lemma column_from_app l1 l2 p :
  column_from p (l1 ++ l2) = column_from (column_from p l1) l2.
Proof. revert p. induction l1 as [|c l1 IH]; intros p; [done|]. cbn. apply IH. Qed.

Lemma rp_refl s : reads_position s s.
Proof. by exists []. Qed.

Lemma rp_trans s1 s2 s3 :
  reads_position s1 s2 → reads_position s2 s3 → reads_position s1 s3.
Proof.
  intros (k1 & H1 & P1) (k2 & H2 & P2). exists (k1 ++ k2).
  rewrite <- app_assoc, <- H2. split; [done|]. intros Hne.
  rewrite column_from_app, <- P1, <- P2; [done..|].
  rewrite H2. by destruct k2.
Qed.

Lemma rp_same s s' :
  pending s' = pending s → position s' = position s → reads_position s s'.
Proof. intros Hp Hl. exists []. by rewrite Hp, Hl. Qed.

Lemma rp_advance s c :
  current_character s = Some c → c ≠ NL → reads_position s (advance s).
Proof.
  intros Hc Hnl. exists [c]. rewrite (pending_advance s c Hc).
  unfold pending. rewrite Hc. split; [done|]. intros _. cbn.
  by rewrite bool_decide_eq_false_2.
Qed.

Lemma rp_newline s l :
  at_char NL s = true → reads_position s (advance (set_cursor l 0 s)).
Proof.
  intros Hc. apply at_char_Some in Hc. exists [NL].
  rewrite (pending_advance (set_cursor _ _ s) NL Hc).
  unfold pending. rewrite Hc. split; [done|]. intros _. cbn.
  by rewrite bool_decide_eq_true_2.
Qed.

(** The text still to be read has no tab. *)
Lemma no_tab_later s s' :
  TAB ∉ pending s → reads_position s s' → TAB ∉ pending s'.
Proof.
  intros Ht (k & Hk & _). rewrite Hk in Ht.
  intros Hin. apply Ht, elem_of_app. by right.
Qed.

Lemma no_tab_at s : TAB ∉ pending s → at_char TAB s = false.
Proof.
  intros Ht. apply bool_decide_eq_false. intros Hc. apply Ht.
  unfold pending. rewrite Hc. apply elem_of_cons. by left.
Qed.

Lemma skip_spaces_loop_rp fuel : ∀ s,
  TAB ∉ pending s → reads_position s (skip_spaces_loop fuel s).
Proof.
  induction fuel as [|fuel IH]; intros s Ht; [apply rp_refl|].
  rewrite skip_spaces_loop_S.
  destruct (at_char " " s || at_char TAB s) eqn:Hb; [|apply rp_refl].
  assert (∃ c, current_character s = Some c ∧ c ≠ NL) as (c & Hc & Hnl).
  { apply orb_true_iff in Hb as [Hb|Hb]; apply at_char_Some in Hb;
      eexists; (split; [exact Hb | done]). }
  pose proof (rp_advance s c Hc Hnl) as R1.
  pose proof (no_tab_later _ _ Ht R1) as Ht1.
  cbv zeta. rewrite (no_tab_at _ Ht1).
  eapply rp_trans; [exact R1 | by apply IH].
Qed.

Lemma skip_spaces_rp s : TAB ∉ pending s → reads_position s (skip_spaces s).
Proof. apply skip_spaces_loop_rp. Qed.

Lemma get_name_loop_rp fuel : ∀ acc s,
  reads_position s (get_name_loop fuel acc s).2.
Proof.
  induction fuel as [|fuel IH]; intros acc s; [apply rp_refl|].
  rewrite get_name_loop_S.
  destruct (current_character s) as [c|] eqn:Hc; [|apply rp_refl].
  destruct (isalnum c) eqn:Ha; [|apply rp_refl].
  eapply rp_trans; [|apply IH].
  eapply rp_advance; [done | by apply isalnum_not_NL].
Qed.

Lemma get_digits_loop_rp fuel : ∀ acc s,
  reads_position s (get_digits_loop fuel acc s).2.
Proof.
  induction fuel as [|fuel IH]; intros acc s; [apply rp_refl|].
  rewrite get_digits_loop_S.
  destruct (current_character s) as [c|] eqn:Hc; [|apply rp_refl].
  destruct (isdigit c) eqn:Ha; [|apply rp_refl].
  eapply rp_trans; [|apply IH].
  eapply rp_advance; [done | by apply isdigit_not_NL].
Qed.

(** At the end of the file nothing is claimed of the position. *)
Lemma rp_at_end s s' :
  reads s s' → current_character s' = None → reads_position s s'.
Proof.
  intros (k & Hk & _) Hc. exists k. split; [done|].
  unfold pending. by rewrite Hc.
Qed.

Lemma rp_comment_step s c :
  current_character s = Some c →
  reads_position s
    (advance (if at_char NL s then set_cursor (line_number s + 1) 0 s
              else s)).
Proof.
  intros Hc. destruct (at_char NL s) eqn:Hnl; [by apply rp_newline|].
  eapply rp_advance; [done|]. intros ->.
  apply at_char_Some in Hc. congruence.
Qed.

Lemma block_comment_loop_rp fuel : ∀ flag s s',
  block_comment_loop fuel flag s = inl s' → reads_position s s'.
Proof.
  induction fuel as [|fuel IH]; intros flag s s'; [intros [= <-]; apply rp_refl|].
  rewrite block_comment_loop_S.
  destruct (at_char "/" s && negb flag); [intros [= <-]; apply rp_refl|].
  cbv zeta.
  destruct (current_character s) as [c|] eqn:Hc.
  - pose proof (rp_comment_step s c Hc) as Hstep.
    set (s1 := if at_char NL s then _ else s) in *.
    assert (current_character s1 = Some c) as Hc1
      by (subst s1; by destruct (at_char NL s)).
    rewrite Hc1. intros Hl. eapply rp_trans; [exact Hstep | by eapply IH].
  - replace (at_char NL s) with false
      by (symmetry; by apply at_char_None).
    by rewrite Hc.
Qed.

Lemma line_comment_loop_rp fuel : ∀ s s',
  line_comment_loop fuel s = inl s' → reads_position s s'.
Proof.
  induction fuel as [|fuel IH]; intros s s'; [intros [= <-]; apply rp_refl|].
  rewrite line_comment_loop_S.
  destruct (at_char NL s) eqn:Hnl; [intros [= <-]; apply rp_refl|].
  destruct (current_character s) as [c|] eqn:Hc; [|done].
  intros Hl. pose proof (rp_comment_step s c Hc) as Hstep.
  rewrite Hnl in Hstep. eapply rp_trans; [exact Hstep | by eapply IH].
Qed.

Lemma strip_loop_rp fuel : ∀ sym s,
  at_end_empty s → TAB ∉ pending s → Symbol.type sym = None →
  match strip_loop fuel sym s with
  | Proceed sym' s' | Returned sym' s' => reads_position s s'
  end.
Proof.
  induction fuel as [|fuel IH]; intros sym s He Ht Hty; [apply rp_refl|].
  pose proof (strip_loop_tracked (S fuel) sym s He Hty) as Htr.
  rewrite strip_loop_S in *. cbv zeta in *.
  destruct (at_char "/" s) eqn:Hslash.
  { apply at_char_Some in Hslash.
    assert (reads_position s (advance s)) as R1 by by eapply rp_advance.
    assert (tracked s (advance s)) as T1 by by eapply tracked_advance.
    destruct (at_char "*" (advance s)) eqn:Hstar; [|done].
    apply at_char_Some in Hstar.
    assert (reads_position s (advance (advance s))) as R2
      by (eapply rp_trans; [exact R1 | by eapply rp_advance]).
    assert (tracked s (advance (advance s))) as T2
      by (eapply tracked_trans; [exact T1 | by eapply tracked_advance]).
    pose proof (block_comment_loop_rp
                  (budget (advance (advance s))) true
                  (advance (advance s))) as Hb.
    pose proof (block_comment_loop_tracked
                  (budget (advance (advance s))) true
                  (advance (advance s))) as Hbt.
    pose proof (block_comment_loop_done
                  (budget (advance (advance s))) true
                  (advance (advance s))) as Hd.
    destruct (block_comment_loop _ _ _) as [s1|s1].
    - specialize (Hd s1 (budget_mu _) eq_refl). apply at_char_Some in Hd.
      specialize (Hb s1 eq_refl).
      assert (reads_position s (advance s1)) as R3.
      { eapply rp_trans; [exact R2|]. eapply rp_trans; [exact Hb|].
        by eapply rp_advance. }
      assert (tracked s (skip_spaces (advance s1))) as T3.
      { eapply tracked_trans; [exact T2|].
        eapply tracked_trans; [exact Hbt|].
        eapply tracked_trans; [by eapply tracked_advance|].
        apply skip_spaces_tracked. }
      pose proof (no_tab_later _ _ Ht R3) as Ht3.
      assert (reads_position s (skip_spaces (advance s1))) as R4
        by (eapply rp_trans; [exact R3 | by apply skip_spaces_rp]).
      specialize (IH (Symbol.set_place (line_number s) (position s) sym)
                    (skip_spaces (advance s1)) (proj1 (T3 He))
                    (no_tab_later _ _ Ht R4) Hty).
      destruct (strip_loop _ _ _) as [sym' s'|sym' s'];
        by eapply rp_trans.
    - destruct Htr as (_ & R & _ & Hend).
      apply rp_at_end; [done | by apply Hend]. }
  destruct (at_char "#" s) eqn:Hhash.
  { pose proof (line_comment_loop_rp (budget s) s) as Hb.
    pose proof (line_comment_loop_tracked (budget s) s) as Hbt.
    destruct (line_comment_loop _ _) as [s1|s1].
    - specialize (Hb s1 eq_refl).
      assert (tracked s (skip_spaces s1)) as T3
        by (eapply tracked_trans; [exact Hbt | apply skip_spaces_tracked]).
      assert (reads_position s (skip_spaces s1)) as R4.
      { eapply rp_trans; [exact Hb|].
        apply skip_spaces_rp. by eapply no_tab_later. }
      specialize (IH sym (skip_spaces s1) (proj1 (T3 He))
                    (no_tab_later _ _ Ht R4) Hty).
      destruct (strip_loop _ _ _) as [sym' s'|sym' s'];
        by eapply rp_trans.
    - destruct Htr as (_ & R & _ & Hend).
      apply rp_at_end; [done | by apply Hend]. }
  destruct (at_char NL s) eqn:Hnl; [|apply rp_refl].
  assert (reads_position s (advance (set_cursor (line_number s + 1) 0 s)))
    as R1 by by apply rp_newline.
  assert (tracked s (skip_spaces
                       (advance (set_cursor (line_number s + 1) 0 s))))
    as T3
    by (eapply tracked_trans;
        [by apply tracked_newline | apply skip_spaces_tracked]).
  assert (reads_position s
            (skip_spaces (advance (set_cursor (line_number s + 1) 0 s))))
    as R4.
  { eapply rp_trans; [exact R1|]. apply skip_spaces_rp.
    by eapply no_tab_later. }
  specialize (IH sym _ (proj1 (T3 He)) (no_tab_later _ _ Ht R4) Hty).
  destruct (strip_loop _ _ _) as [sym' s'|sym' s']; by eapply rp_trans.
Qed.

Lemma tokenise_rp sym s :
  at_char NL s = false →
  reads_position s (tokenise sym s).2
  ∧ ∀ sym', (tokenise sym s).1 = Ok sym' → Symbol.position sym' = position s.
Proof.
  intros Hnl. unfold tokenise.
  destruct (current_character s) as [c|] eqn:Hc; cycle 1.
  { cbn. split; [by apply rp_same | by intros ? [= <-]]. }
  assert (c ≠ NL) as Hc_nl.
  { intros ->. apply at_char_Some in Hc. congruence. }
  destruct (isalpha c) eqn:Halpha.
  { pose proof (get_name_loop_rp (budget s) "" s) as R1.
    fold (get_name s) in R1.
    destruct (get_name s) as [name_str s1]. cbn in R1.
    destruct (Names.lookup _ _) as [ids nm]. cbn.
    split; [|by intros ? [= <-]].
    eapply rp_trans; [exact R1 | by apply rp_same]. }
  destruct (isdigit c) eqn:Hdigit.
  { pose proof (get_digits_loop_rp (budget s) "" s) as R1.
    fold (get_digits s) in R1.
    unfold get_waveform, get_bit, get_number.
    destruct (get_digits s) as [num_str s1]. cbn in R1.
    repeat case_bool_decide; try destruct (1 <? _); cbn [fst snd];
      try destruct (int num_str) as [n| |]; cbn;
      (split; [done | by intros ? [= <-]]). }
  pose proof (rp_advance s c Hc Hc_nl) as R1.
  destruct (punctuation c) as [k|]; cbn;
    (split; [done | by intros ? [= <-]]).
Qed.

Lemma get_symbol_rp s :
  at_end_empty s → TAB ∉ pending s →
  reads_position s (get_symbol s).2.
Proof.
  intros He Ht. unfold get_symbol.
  pose proof (strip_done s) as Hd.
  pose proof (strip_frame s) as Hf. unfold strip in *.
  pose proof (skip_spaces_rp s Ht) as R1.
  destruct (skip_spaces_tracked s He) as [He1 _].
  pose proof (strip_loop_rp (budget (skip_spaces s)) Symbol.init
                (skip_spaces s) He1 (no_tab_later _ _ Ht R1) eq_refl) as H.
  destruct (strip_loop _ _ _) as [sym' s'|sym' s'].
  - cbn. by eapply rp_trans.
  - destruct (Hd sym' s' eq_refl) as (_ & _ & Hnl & _).
    destruct (tokenise_rp sym' s' Hnl) as [R3 _].
    eapply rp_trans; [exact R1|]. by eapply rp_trans.
Qed.

Lemma scanning_position contents nm s :
  scanning contents nm s → TAB ∉ contents →
  (TAB ∉ pending s) ∧ reads_position (init contents nm) s.
Proof.
  intros Hs Ht.
  destruct (init_tracked contents nm) as (_ & Hp & _).
  revert s Hs. apply rtc_ind_r.
  - split; [by rewrite Hp | apply rp_refl].
  - intros s1 s2 Hs1 Hcall [Ht1 R1]. destruct Hcall.
    destruct (scanning_invariant _ _ _ Hs1) as (He & _).
    pose proof (get_symbol_rp s He Ht1) as R2.
    split; [by eapply no_tab_later | by eapply rp_trans].
Qed.

(** The position after a text: one more than the number of characters
    since its last newline. *)
Lemma column_from_split before :
  ∃ line_start on_line,
    before = line_start ++ on_line
    ∧ (line_start = [] ∨ last line_start = Some NL)
    ∧ (NL ∉ on_line)
    ∧ column_from 1 before = 1 + Z.of_nat (length on_line).
Proof.
  induction before as [|c before IH] using rev_ind.
  - exists [], []. split_and!; [done | by left | apply not_elem_of_nil | done].
  - destruct IH as (ls & ol & -> & Hls & Hol & Hcol).
    rewrite column_from_app, Hcol. cbn.
    destruct (decide (c = NL)) as [->|Hc].
    + exists ((ls ++ ol) ++ [NL]), [].
      rewrite bool_decide_eq_true_2 by done.
      split_and!; [by rewrite app_nil_r | right; apply last_snoc
                  | apply not_elem_of_nil | done].
    + exists ls, (ol ++ [c]).
      rewrite bool_decide_eq_false_2 by done.
      split_and!; [by rewrite app_assoc | done | |].
      * rewrite elem_of_app, elem_of_cons, elem_of_nil.
        intros [?|[?|[]]]; [done | congruence].
      * rewrite length_app. cbn. lia.
Qed.

(** X16. On a file without tabs the position of a symbol is the column
    of its first character: one more than the number of characters
    between the start of the line of the symbol and that character.
    This holds for every symbol that starts at a character of the text,
    whatever blanks, newlines and comments come before it. *)
Theorem symbol_position contents nm s sym1 s1 :
  scanning contents nm s →
  TAB ∉ contents →
  strip s = Proceed sym1 s1 →
  current_character s1 ≠ None →
  ∃ line_start on_line,
    contents = line_start ++ on_line ++ pending s1
    ∧ (line_start = [] ∨ last line_start = Some NL)
    ∧ (NL ∉ on_line)
    ∧ ∀ sym, (get_symbol s).1 = Ok sym →
             Symbol.position sym = 1 + Z.of_nat (length on_line).
Proof.
  intros Hs Ht Hstrip Hc.
  destruct (scanning_invariant _ _ _ Hs) as (He & _).
  destruct (scanning_position _ _ _ Hs Ht) as (Hts & (k0 & Hk0 & P0)).
  destruct (init_tracked contents nm) as (_ & Hp & _).
  assert (position (init contents nm) = 1) as Hpos
    by (unfold init; by destruct (Names.lookup _ _)).
  rewrite Hp in Hk0. rewrite Hpos in P0.
  pose proof (strip_done s sym1 s1 Hstrip) as (_ & _ & D3 & _).
  unfold get_symbol. rewrite Hstrip. unfold strip in Hstrip.
  pose proof (skip_spaces_rp s Hts) as R1.
  destruct (skip_spaces_tracked s He) as [He1 _].
  pose proof (strip_loop_rp (budget (skip_spaces s)) Symbol.init
                (skip_spaces s) He1 (no_tab_later _ _ Hts R1) eq_refl) as H.
  rewrite Hstrip in H.
  destruct (rp_trans _ _ _ R1 H) as (k1 & Hk1 & P1).
  destruct (tokenise_rp sym1 s1 D3) as [_ Hposition].
  assert (pending s1 ≠ []) as Hne.
  { unfold pending. by destruct (current_character s1). }
  assert (pending s ≠ []) as Hne0 by (rewrite Hk1; by destruct k1).
  destruct (column_from_split (k0 ++ k1))
    as (ls & ol & Hsplit & Hls & Hol & Hcol).
  exists ls, ol. split_and!; [|done..|].
  - rewrite app_assoc, <- Hsplit, <- app_assoc, <- Hk1. done.
  - intros sym Hsym.
    rewrite (Hposition sym Hsym), (P1 Hne), (P0 Hne0), <- column_from_app.
    done.
Qed.

Lemma symbol_position_witness :
  let contents := [NL; "A"; " "; "B"]%char in
  let s := (get_symbol (init contents Names.init)).2 in
  Symbol.position <$> (get_symbol s).1 = Ok 3
  ∧ ∃ line_start on_line,
    contents = line_start ++ on_line ++ pending (skip_spaces s)
    ∧ (line_start = [] ∨ last line_start = Some NL)
    ∧ (NL ∉ on_line)
    ∧ ∀ sym, (get_symbol s).1 = Ok sym →
             Symbol.position sym = 1 + Z.of_nat (length on_line).
Proof.
  intros contents s. split; [vm_compute; reflexivity|].
  apply (symbol_position contents Names.init s Symbol.init (skip_spaces s)).
  - unfold scanning. eapply rtc_l; [apply call_get_symbol | apply rtc_refl].
  - unfold contents. rewrite !elem_of_cons, elem_of_nil.
    intros [?|[?|[?|[?|[]]]]]; done.
  - apply strip_at_token; vm_compute; reflexivity.
  - vm_compute. done.
Defined.

End ScannerPositions.

Section ScannerFillerFacts.
Import Scanner ScannerSpec ScannerRuns ScannerFiller.

Lemma filler_app l1 l2 : filler l1 → filler l2 → filler (l1 ++ l2).
Proof.
  induction 1 as [|c l Hc _ IH|body l Hb _ IH|body l Hb _ IH]; intros H2;
    [done| |rewrite <- ?app_comm_cons, <- app_assoc..].
  - cbn. by constructor; [|apply IH].
  - cbn. by constructor; [|apply IH].
  - cbn. by constructor; [|apply IH].
Qed.

Lemma pending_current s c : current_character s = Some c →
  pending s = c :: pending (advance s).
Proof. intros Hc. rewrite (pending_advance s c Hc). unfold pending. by rewrite Hc. Qed.

Lemma skip_spaces_loop_filler fuel : ∀ s,
  ∃ k, pending s = k ++ pending (skip_spaces_loop fuel s) ∧ filler k.
Proof.
  induction fuel as [|fuel IH]; intros s;
    [exists []; split; [done | constructor]|].
  rewrite skip_spaces_loop_S.
  destruct (at_char " " s || at_char TAB s) eqn:Hb;
    [|exists []; split; [done | constructor]].
  assert (∃ c, current_character s = Some c ∧ (c = " "%char ∨ c = TAB ∨ c = NL))
    as (c & Hc & Hblank).
  { apply orb_true_iff in Hb as [Hb|Hb]; apply at_char_Some in Hb;
      eexists; (split; [exact Hb | auto]). }
  cbv zeta.
  set (s1 := if at_char TAB (advance s) then _ else advance s).
  assert (pending s1 = pending (advance s)) as Hp
    by (subst s1; by destruct (at_char TAB (advance s))).
  destruct (IH s1) as (k & Hk & Hf).
  exists (c :: k). rewrite (pending_current s c Hc), <- Hp, Hk.
  split; [done | by constructor].
Qed.

Lemma skip_spaces_filler s :
  ∃ k, pending s = k ++ pending (skip_spaces s) ∧ filler k.
Proof. apply skip_spaces_loop_filler. Qed.

(** The loop over a line comment reads up to the next newline. *)
Lemma line_comment_loop_body fuel : ∀ s s',
  line_comment_loop fuel s = inl s' → (mu s < fuel)%nat →
  ∃ body, pending s = body ++ pending s' ∧ NL ∉ body.
Proof.
  induction fuel as [|fuel IH]; intros s s' Hl Hm; [lia|].
  rewrite line_comment_loop_S in Hl.
  destruct (at_char NL s) eqn:Hnl.
  { injection Hl as <-. exists []. split; [done | apply not_elem_of_nil]. }
  destruct (current_character s) as [c|] eqn:Hc; [|done].
  pose proof (mu_advance s c Hc) as Hlt.
  destruct (IH (advance s) s' Hl ltac:(lia)) as (body & Hb & Hn).
  exists (c :: body). rewrite (pending_current s c Hc), Hb.
  split; [done|]. rewrite not_elem_of_cons. split; [|done].
  intros <-. apply at_char_Some in Hc. congruence.
Qed.

(** The loop over a block comment reads up to the first slash that
    follows a star. *)
Lemma block_comment_loop_body fuel : ∀ flag s s',
  block_comment_loop fuel flag s = inl s' → (mu s < fuel)%nat →
  ∃ consumed,
    pending s = consumed ++ pending s'
    ∧ closes (negb flag) consumed = false
    ∧ (consumed = [] → flag = false)
    ∧ (∀ body c, consumed = body ++ [c] → c = "*"%char).
Proof.
  induction fuel as [|fuel IH]; intros flag s s' Hl Hm; [lia|].
  rewrite block_comment_loop_S in Hl.
  destruct (at_char "/" s && negb flag) eqn:Hexit.
  { injection Hl as <-. exists [].
    apply andb_true_iff in Hexit as [_ Hflag%negb_true_iff].
    split_and!; [done | done | done |]. intros body c Hnil.
    by destruct body. }
  cbv zeta in Hl.
  set (s1 := if at_char NL s then _ else s) in *.
  assert (current_character s1 = current_character s ∧ FILE s1 = FILE s
          ∧ mu s1 = mu s) as (Hc1 & HF1 & Hm1)
    by (subst s1; by destruct (at_char NL s)).
  destruct (current_character s1) as [c|] eqn:Hc; [|done].
  symmetry in Hc1.
  pose proof (mu_advance s1 c Hc) as Hlt.
  destruct (IH _ _ _ Hl ltac:(lia)) as (consumed & Hk & Hcl & Hnil & Hlast).
  exists (c :: consumed).
  assert (pending s = c :: pending (advance s1)) as Hp.
  { rewrite (pending_advance s1 c Hc), HF1. unfold pending. by rewrite Hc1. }
  rewrite (at_char_eq _ c s1 Hc), negb_involutive in Hcl.
  rewrite (at_char_eq _ c s1 Hc) in Hnil.
  rewrite (at_char_eq _ c s Hc1) in Hexit.
  split_and!.
  - by rewrite Hp, Hk.
  - cbn. rewrite andb_comm, Hexit. done.
  - done.
  - intros body c' Heq. destruct body as [|b body].
    + cbn in Heq. injection Heq as Hcc Hcons. subst c' consumed.
      specialize (Hnil eq_refl). apply negb_false_iff in Hnil.
      by apply bool_decide_eq_true in Hnil.
    + cbn in Heq. injection Heq as _ Heq. by eapply Hlast.
Qed.

Lemma unterminated_init body c :
  unterminated (body ++ [c]) → unterminated body.
Proof.
  intros Hu pre post ->. apply (Hu pre (post ++ [c])).
  by rewrite <- !app_assoc.
Qed.

Lemma block_comment_body s s' :
  block_comment_loop (budget s) true s = inl s' →
  ∃ body, pending s = body ++ "*"%char :: pending s' ∧ unterminated body.
Proof.
  intros Hl.
  destruct (block_comment_loop_body _ _ _ _ Hl (budget_mu s))
    as (consumed & Hk & Hcl & Hnil & Hlast).
  destruct consumed as [|c0 consumed] using rev_ind;
    [by specialize (Hnil eq_refl)|].
  clear IHconsumed. rewrite (Hlast _ _ eq_refl) in *.
  exists consumed. split; [by rewrite Hk, <- app_assoc|].
  apply (unterminated_init _ "*"), closes_unterminated. done.
Qed.

Lemma skipped_filler_prefix s s2 pre r :
  pending s = pre ++ pending s2 →
  (∀ l, filler l → filler (pre ++ l)) →
  skipped_filler s2 r → skipped_filler s r.
Proof.
  intros Hp Hpre. destruct r as [sym' s'|sym' s']; cbn.
  - intros [(k & Hk & Hf)|?]; [left|by right].
    exists (pre ++ k). rewrite Hp, Hk, <- app_assoc. auto.
  - intros (k & Hk & Hf). exists (pre ++ k).
    rewrite Hp, Hk, <- app_assoc. auto.
Qed.

Lemma strip_loop_filler fuel : ∀ sym s,
  (mu s < fuel)%nat → skipped_filler s (strip_loop fuel sym s).
Proof.
  induction fuel as [fuel IH] using lt_wf_ind. intros sym s Hm.
  destruct fuel as [|fuel]; [lia|].
  rewrite strip_loop_S. cbv zeta.
  destruct (at_char "/" s) eqn:Hslash.
  { apply at_char_Some in Hslash. pose proof (mu_advance s _ Hslash) as Hlt.
    pose proof (pending_current s _ Hslash) as Hp1.
    destruct (at_char "*" (advance s)) eqn:Hstar; cycle 1.
    { cbn. left. exists []. split; [done | constructor]. }
    apply at_char_Some in Hstar.
    pose proof (pending_current _ _ Hstar) as Hp2.
    pose proof (block_comment_loop_frame
      (budget (advance (advance s))) true (advance (advance s))) as Hb.
    pose proof (block_comment_loop_done
      (budget (advance (advance s))) true (advance (advance s))) as Hd.
    pose proof (block_comment_body (advance (advance s))) as Hbody.
    pose proof (strip_loop_spec (S fuel) sym s) as Hspec.
    rewrite strip_loop_S in Hspec. cbv zeta in Hspec.
    rewrite (proj2 (at_char_Some _ _) Hslash) in Hspec.
    rewrite (proj2 (at_char_Some _ _) Hstar) in Hspec.
    destruct (block_comment_loop _ _ _) as [s1|s1]; [|by right].
    specialize (Hd s1 (budget_mu _) eq_refl). apply at_char_Some in Hd.
    destruct (Hbody s1 eq_refl) as (body & Hp3 & Hu).
    pose proof (pending_current _ _ Hd) as Hp4.
    destruct (skip_spaces_filler (advance s1)) as (k1 & Hk1 & Hf1).
    assert (frame (advance s) (skip_spaces (advance s1))) as Hf.
    { eapply frame_trans; [apply frame_advance|].
      eapply frame_trans; [exact Hb|].
      eapply frame_trans; [apply frame_advance | apply skip_spaces_frame]. }
    eapply (skipped_filler_prefix _ _
              ("/"%char :: "*"%char :: body ++ "*"%char :: "/"%char :: k1));
      [| |apply IH; pose proof (frame_mu _ _ Hf); lia].
    - rewrite Hp1, Hp2, Hp3, Hp4, Hk1. cbn. rewrite <- !app_assoc. done.
    - intros l Hl. cbn. rewrite <- app_assoc. cbn.
      constructor; [done | by apply filler_app]. }
  destruct (at_char "#" s) eqn:Hhash.
  { pose proof (line_comment_loop_body (budget s) s) as Hbody.
    pose proof (line_comment_loop_done (budget s) s) as Hd.
    destruct (line_comment_loop _ _) as [s1|s1] eqn:Hloop; [|by right].
    pose proof (line_comment_progress _ _ Hhash Hloop) as Hlt.
    specialize (Hd s1 (budget_mu _) eq_refl).
    destruct (Hbody s1 eq_refl (budget_mu _)) as (body & Hp & Hn).
    apply at_char_Some in Hhash.
    pose proof Hd as Hnl. apply at_char_Some in Hnl.
    assert (∃ body', body = "#"%char :: body') as [body' ->].
    { destruct body as [|b body].
      - cbn in Hp. unfold pending in Hp. rewrite Hhash, Hnl in Hp. done.
      - unfold pending in Hp. rewrite Hhash in Hp. cbn in Hp.
        injection Hp as <- _. by eexists. }
    apply not_elem_of_cons in Hn as [_ Hn].
    rewrite skip_spaces_id
      by (rewrite !(at_char_eq _ NL s1 Hnl); by apply bool_decide_eq_false).
    destruct fuel as [|fuel]; [lia|].
    rewrite strip_loop_S. cbv zeta.
    rewrite !(at_char_eq _ NL s1 Hnl).
    rewrite (bool_decide_eq_false_2 (NL = "/"%char)) by done.
    rewrite (bool_decide_eq_false_2 (NL = "#"%char)) by done.
    rewrite (bool_decide_eq_true_2 (NL = NL)) by done.
    set (s2 := advance (set_cursor (line_number s1 + 1) 0 s1)).
    assert (pending s1 = NL :: pending s2) as Hp2
      by apply (pending_current (set_cursor (line_number s1 + 1) 0 s1) NL Hnl).
    destruct (skip_spaces_filler s2) as (k1 & Hk1 & Hf1).
    pose proof (mu_advance (set_cursor (line_number s1 + 1) 0 s1) NL Hnl)
      as Hlt2.
    change (mu (set_cursor _ _ s1)) with (mu s1) in Hlt2. fold s2 in Hlt2.
    pose proof (frame_mu _ _ (skip_spaces_frame s2)) as Hle.
    eapply (skipped_filler_prefix _ _ ("#"%char :: body' ++ NL :: k1));
      [| |apply IH; lia].
    - rewrite Hp, Hp2, Hk1. cbn. rewrite <- !app_assoc. done.
    - intros l Hl. cbn. rewrite <- app_assoc. cbn.
      constructor; [done | by apply filler_app]. }
  destruct (at_char NL s) eqn:Hnl; cycle 1.
  { cbn. exists []. split; [done | constructor]. }
  apply at_char_Some in Hnl.
  set (s2 := advance (set_cursor (line_number s + 1) 0 s)).
  assert (pending s = NL :: pending s2) as Hp2
    by apply (pending_current (set_cursor (line_number s + 1) 0 s) NL Hnl).
  destruct (skip_spaces_filler s2) as (k1 & Hk1 & Hf1).
  pose proof (mu_advance (set_cursor (line_number s + 1) 0 s) NL Hnl) as Hlt2.
  change (mu (set_cursor _ _ s)) with (mu s) in Hlt2. fold s2 in Hlt2.
  pose proof (frame_mu _ _ (skip_spaces_frame s2)) as Hle.
  eapply (skipped_filler_prefix _ _ (NL :: k1)); [| |apply IH; lia].
  - by rewrite Hp2, Hk1.
  - intros l Hl. cbn. constructor; [auto | by apply filler_app].
Qed.

(** X18. What [get_symbol] skips before it forms a symbol is filler and
    nothing else: when the comment-stripping loop is left at the
    character where the symbol is formed, or returns at a slash that
    opens no comment, the text read up to there is a sequence of blanks,
    tabs, newlines, line comments up to their newline and block comments
    closed at their first star-slash. *)
Theorem skipped_text_is_filler s :
  skipped_filler s (strip s).
Proof.
  unfold strip. destruct (skip_spaces_filler s) as (k & Hk & Hf).
  eapply (skipped_filler_prefix _ _ k);
    [exact Hk | intros l Hl; by apply filler_app | ].
  apply strip_loop_filler, budget_mu.
Qed.

End ScannerFillerFacts.

(** ** Symbols after blanks, newlines and comments *)

Section ScannerSkips.
Import Scanner ScannerSpec ScannerRuns ScannerFiller.

Lemma no_blank_ahead_app l1 l2 :
  no_blank_ahead l1 → no_blank_ahead l2 → no_blank_ahead (l1 ++ l2).
Proof. intros H1 H2. by destruct l1. Qed.

Lemma no_blank_at s :
  no_blank_ahead (pending s) →
  at_char " " s = false ∧ at_char TAB s = false.
Proof.
  unfold pending, at_char. intros Hn.
  destruct (current_character s) as [c|]; [|done].
  destruct (Hn c eq_refl).
  split; apply bool_decide_eq_false; congruence.
Qed.

Lemma skip_spaces_loop_stops fuel s :
  at_char " " s = false → at_char TAB s = false →
  skip_spaces_loop fuel s = s.
Proof.
  intros H1 H2. destruct fuel; [done|].
  by rewrite skip_spaces_loop_S, H1, H2.
Qed.

Lemma pending_head s c l : pending s = c :: l →
  current_character s = Some c ∧ pending (advance s) = l.
Proof.
  unfold pending at 1. intros Hp.
  destruct (current_character s) as [c'|] eqn:Hc; [|done].
  injection Hp as -> HF. split; [done|].
  by rewrite (pending_advance s c Hc).
Qed.

(** [skip_spaces] reads the blanks and tabs ahead, and no more. *)
Lemma skip_spaces_loop_reaches bs : ∀ fuel s rest,
  Forall (λ c, c = " "%char ∨ c = TAB) bs →
  pending s = bs ++ rest → no_blank_ahead rest →
  (length bs < fuel)%nat →
  pending (skip_spaces_loop fuel s) = rest.
Proof.
  induction bs as [|b bs IH]; intros fuel s rest Hbs Hp Hrest Hfuel.
  - cbn in Hp. rewrite <- Hp in Hrest.
    destruct (no_blank_at s Hrest) as [H1 H2].
    by rewrite skip_spaces_loop_stops.
  - destruct fuel as [|fuel]; [lia|].
    apply Forall_cons in Hbs as [Hb Hbs].
    destruct (pending_head s b _ Hp) as [Hc Hp1].
    rewrite skip_spaces_loop_S.
    assert (at_char " " s || at_char TAB s = true) as ->.
    { rewrite !(at_char_eq _ b s Hc).
      destruct Hb as [->| ->]; [done | apply orb_true_r]. }
    apply IH; [done | | done | cbn in Hfuel; lia].
    by destruct (at_char TAB (advance s)).
Qed.

Lemma skip_spaces_reaches bs s rest :
  Forall (λ c, c = " "%char ∨ c = TAB) bs →
  pending s = bs ++ rest → no_blank_ahead rest →
  pending (skip_spaces s) = rest.
Proof.
  intros Hbs Hp Hrest. apply (skip_spaces_loop_reaches bs); try done.
  unfold budget. unfold pending in Hp.
  destruct (current_character s); [|destruct bs; [cbn; lia | done]].
  apply (f_equal length) in Hp. rewrite length_app in Hp. cbn in Hp. lia.
Qed.

(** A filler is a run of blanks and tabs and then a filler that starts
    with none. *)
Lemma filler_blanks k :
  filler k →
  ∃ bs k', k = bs ++ k' ∧ Forall (λ c, c = " "%char ∨ c = TAB) bs
           ∧ filler k' ∧ no_blank_ahead k' ∧ (length k' ≤ length k)%nat.
Proof.
  induction 1 as [|c l Hc Hl IH|body l Hb Hl _|body l Hb Hl _].
  - exists [], []. split_and!; [done | done | constructor | done | done].
  - destruct (decide (c = NL)) as [->|Hnl].
    + exists [], (NL :: l).
      split_and!; [done | done | by constructor | | done].
      by intros c [= <-].
    + destruct IH as (bs & k' & -> & Hbs & Hk' & Hn & Hlen).
      exists (c :: bs), k'.
      split_and!; [done | | done | done | cbn; lia].
      constructor; [|done]. destruct Hc as [?|[?|?]]; auto. done.
  - eexists [], _. split_and!; [done | done | by constructor | | done].
    by intros c [= <-].
  - eexists [], _. split_and!; [done | done | by constructor | | done].
    by intros c [= <-].
Qed.

(** [skip_spaces] in front of a filler. *)
Lemma skip_spaces_filler_reaches k s rest :
  filler k → pending s = k ++ rest → no_blank_ahead rest →
  ∃ k', pending (skip_spaces s) = k' ++ rest ∧ filler k'
        ∧ no_blank_ahead k' ∧ (length k' ≤ length k)%nat.
Proof.
  intros Hk Hp Hrest.
  destruct (filler_blanks k Hk) as (bs & k' & -> & Hbs & Hk' & Hn & Hlen).
  exists k'. split_and!; [|done..].
  apply (skip_spaces_reaches bs); [done | by rewrite <- app_assoc in Hp|].
  by apply no_blank_ahead_app.
Qed.

(** The loop over a line comment stops at the first newline. *)
Lemma line_comment_loop_reaches body : ∀ fuel s post,
  pending s = body ++ NL :: post → NL ∉ body →
  (length body < fuel)%nat →
  ∃ s', line_comment_loop fuel s = inl s' ∧ pending s' = NL :: post.
Proof.
  induction body as [|c body IH]; intros fuel s post Hp Hn Hfuel;
    (destruct fuel as [|fuel]; [lia|]); rewrite line_comment_loop_S.
  - destruct (pending_head s NL _ Hp) as [Hc _].
    rewrite (proj2 (at_char_Some _ _) Hc). by exists s.
  - destruct (pending_head s c _ Hp) as [Hc Hp1].
    apply not_elem_of_cons in Hn as [Hne Hn].
    rewrite (at_char_eq _ c s Hc), bool_decide_eq_false_2 by done.
    rewrite Hc. apply IH; [done | done | cbn in Hfuel; lia].
Qed.

(** The loop over a block comment stops at the first slash that
    follows a star. *)
Lemma block_comment_loop_reaches consumed : ∀ fuel flag s post,
  pending s = consumed ++ "/"%char :: post →
  closes (negb flag) consumed = false →
  (consumed = [] → flag = false) →
  (∀ body c, consumed = body ++ [c] → c = "*"%char) →
  (length consumed < fuel)%nat →
  ∃ s', block_comment_loop fuel flag s = inl s'
        ∧ pending s' = "/"%char :: post.
Proof.
  induction consumed as [|c consumed IH];
    intros fuel flag s post Hp Hcl Hnil Hlast Hfuel;
    (destruct fuel as [|fuel]; [lia|]); rewrite block_comment_loop_S.
  - destruct (pending_head s "/" _ Hp) as [Hc _].
    rewrite (proj2 (at_char_Some _ _) Hc), (Hnil eq_refl). by exists s.
  - destruct (pending_head s c _ Hp) as [Hc Hp1].
    cbn in Hcl. apply orb_false_iff in Hcl as [Hexit Hcl].
    rewrite (at_char_eq _ c s Hc), andb_comm, Hexit. cbv zeta.
    set (s1 := if at_char NL s then _ else s).
    assert (current_character s1 = Some c
            ∧ pending (advance s1) = pending (advance s)) as [Hc1 Hp2].
    { subst s1. by destruct (at_char NL s). }
    rewrite Hc1. apply IH.
    + by rewrite Hp2.
    + by rewrite (at_char_eq _ c s1 Hc1), negb_involutive.
    + intros ->. rewrite (at_char_eq _ c s1 Hc1).
      by rewrite (Hlast [] c eq_refl).
    + intros body c' ->. by apply (Hlast (c :: body) c').
    + cbn in Hfuel. lia.
Qed.

Lemma unterminated_star body :
  unterminated body → unterminated (body ++ ["*"%char]).
Proof.
  intros Hu pre post Heq.
  destruct post as [|x post _] using rev_ind.
  - rewrite app_nil_r in Heq.
    change (pre ++ ["*"; "/"]%char) with (pre ++ ["*"%char] ++ ["/"%char])
      in Heq.
    rewrite app_assoc in Heq. by apply app_inj_tail in Heq as [_ ?].
  - change (pre ++ ["*"; "/"]%char ++ post ++ [x])
      with (pre ++ (["*"; "/"]%char ++ post) ++ [x]) in Heq.
    rewrite app_assoc in Heq. apply app_inj_tail in Heq as [Heq _].
    by apply (Hu pre post).
Qed.

Lemma block_comment_reaches body s post :
  pending s = body ++ "*"%char :: "/"%char :: post →
  unterminated body →
  ∃ s', block_comment_loop (budget s) true s = inl s'
        ∧ pending s' = "/"%char :: post.
Proof.
  intros Hp Hu.
  apply (block_comment_loop_reaches (body ++ ["*"%char])).
  - by rewrite <- app_assoc.
  - by apply unterminated_closes, unterminated_star.
  - by destruct body.
  - intros body' c Heq. by apply app_inj_tail in Heq as [_ <-].
  - unfold budget. unfold pending in Hp.
    destruct (current_character s); [|by destruct body].
    apply (f_equal length) in Hp. rewrite !length_app in *. cbn in *. lia.
Qed.

Lemma budget_pending s : (length (pending s) < budget s)%nat.
Proof. unfold budget, pending. destruct (current_character s); cbn; lia. Qed.

(** Where the comment-stripping loop is after a filler: when the text
    ahead is a filler [k] and then [rest], the loop gets to a state
    [s'] in which [rest] is ahead, with the places and the other fields
    of the scanner as the loops over blanks and comments leave them. *)
Lemma strip_loop_reaches n : ∀ k fuel sym s rest,
  (length k ≤ n)%nat → filler k → no_blank_ahead k →
  pending s = k ++ rest → no_blank_ahead rest →
  (length k < fuel)%nat →
  ∃ fuel' sym' s',
    strip_loop fuel sym s = strip_loop fuel' sym' s'
    ∧ pending s' = rest ∧ (0 < fuel')%nat
    ∧ frame s s' ∧ same_content sym sym'.
Proof.
  induction n as [|n IH]; intros k fuel sym s rest Hn Hk Hhead Hp Hrest Hf.
  { destruct k; [|cbn in Hn; lia].
    exists fuel, sym, s. split_and!; [done | done | lia | apply frame_refl|].
    by split. }
  (* what is read after an item of the filler *)
  assert (∀ f sym1 s1 l,
            (length l ≤ n)%nat → (length l < f)%nat → filler l →
            pending s1 = l ++ rest → frame s s1 → same_content sym sym1 →
            ∃ fuel' sym' s',
              strip_loop f sym1 (skip_spaces s1) = strip_loop fuel' sym' s'
              ∧ pending s' = rest ∧ (0 < fuel')%nat
              ∧ frame s s' ∧ same_content sym sym') as Hnext.
  { intros f sym1 s1 l Hl Hlf Hfl Hp1 Hf1 [Hty1 Hid1].
    destruct (skip_spaces_filler_reaches l s1 rest Hfl Hp1 Hrest)
      as (l' & Hp' & Hfl' & Hn' & Hlen).
    destruct (IH l' f sym1 (skip_spaces s1) rest) as (f' & sym' & s' & H);
      [lia | done | done | done | done | lia|].
    destruct H as (Heq & Hpr & Hpos & Hfr & [Hty Hid]).
    exists f', sym', s'. split_and!; [done | done | done | |].
    - eapply frame_trans; [exact Hf1|].
      eapply frame_trans; [apply skip_spaces_frame | exact Hfr].
    - split; congruence. }
  destruct Hk as [|c l Hc Hl|body l Hb Hl|body l Hb Hl].
  - exists fuel, sym, s. split_and!; [done | done | lia | apply frame_refl|].
    by split.
  - (* a newline *)
    assert (c = NL) as ->.
    { destruct (Hhead c eq_refl). destruct Hc as [?|[?|?]]; done. }
    destruct fuel as [|fuel]; [lia|].
    destruct (pending_head s NL _ Hp) as [Hc' Hp1].
    rewrite strip_loop_S. cbv zeta.
    rewrite !(at_char_eq _ NL s Hc').
    rewrite (bool_decide_eq_false_2 (NL = "/"%char)) by done.
    rewrite (bool_decide_eq_false_2 (NL = "#"%char)) by done.
    rewrite (bool_decide_eq_true_2 (NL = NL)) by done.
    apply (Hnext _ _ _ l); [cbn in Hn; lia | cbn in Hf; lia | done | | |].
    + exact Hp1.
    + apply frame_advance', frame_set_cursor', frame_refl.
    + by split.
  - (* a line comment *)
    destruct fuel as [|fuel]; [lia|].
    destruct (pending_head s "#" _ Hp) as [Hc' Hp1].
    rewrite strip_loop_S. cbv zeta.
    rewrite !(at_char_eq _ "#" s Hc').
    rewrite (bool_decide_eq_false_2 ("#"%char = "/"%char)) by done.
    rewrite (bool_decide_eq_true_2 ("#"%char = "#"%char)) by done.
    destruct (line_comment_loop_reaches ("#"%char :: body) (budget s) s
                (l ++ rest)) as (s1 & Hloop & Hp2).
    { rewrite Hp. cbn. by rewrite <- app_assoc. }
    { rewrite not_elem_of_cons. by split. }
    { pose proof (budget_pending s) as Hbud. rewrite Hp in Hbud.
      cbn in Hbud. rewrite !length_app in Hbud. cbn in *. lia. }
    pose proof (line_comment_loop_frame (budget s) s) as Hfr.
    rewrite Hloop in *.
    destruct (pending_head s1 NL _ Hp2) as [Hc1 _].
    rewrite skip_spaces_id
      by (rewrite !(at_char_eq _ NL s1 Hc1); by apply bool_decide_eq_false).
    destruct (IH (NL :: l) fuel sym s1 rest) as (f' & sym' & s' & H).
    + cbn in *. rewrite length_app in Hn. cbn in Hn. lia.
    + constructor; [auto | done].
    + by intros c [= <-].
    + done.
    + done.
    + cbn in *. rewrite length_app in Hf. cbn in Hf. lia.
    + destruct H as (Heq & Hpr & Hpos & Hfr' & Hsame).
      exists f', sym', s'. split_and!; [done | done | done | | done].
      by eapply frame_trans.
  - (* a block comment *)
    destruct fuel as [|fuel]; [lia|].
    destruct (pending_head s "/"
                ("*"%char :: (body ++ "*"%char :: "/"%char :: l) ++ rest) Hp)
      as [Hc' Hp1].
    destruct (pending_head _ "*" _ Hp1) as [Hc2 Hp2].
    rewrite strip_loop_S. cbv zeta.
    rewrite (proj2 (at_char_Some _ _) Hc'), (proj2 (at_char_Some _ _) Hc2).
    destruct (block_comment_reaches body (advance (advance s)) (l ++ rest))
      as (s1 & Hloop & Hp3).
    { rewrite Hp2. by rewrite <- app_assoc. }
    { done. }
    pose proof (block_comment_loop_frame (budget (advance (advance s))) true
                  (advance (advance s))) as Hfr.
    rewrite Hloop in *.
    destruct (pending_head s1 "/" _ Hp3) as [Hc3 Hp4].
    apply (Hnext _ _ _ l).
    + cbn in Hn. rewrite length_app in Hn. cbn in Hn. lia.
    + cbn in Hf. rewrite length_app in Hf. cbn in Hf. lia.
    + done.
    + done.
    + eapply frame_trans; [apply frame_advance|].
      eapply frame_trans; [apply frame_advance|].
      eapply frame_trans; [exact Hfr | apply frame_advance].
    + by split.
Qed.

(** Where [get_symbol] is after the blanks, newlines and comments that
    are ahead. *)
Lemma strip_reaches s k rest :
  pending s = k ++ rest → filler k → no_blank_ahead rest →
  ∃ fuel sym' at_rest,
    strip s = strip_loop (S fuel) sym' at_rest
    ∧ pending at_rest = rest ∧ frame s at_rest
    ∧ Symbol.type sym' = None ∧ Symbol.id sym' = PNone.
Proof.
  intros Hp Hk Hrest. unfold strip.
  destruct (skip_spaces_filler_reaches k s rest Hk Hp Hrest)
    as (k' & Hp' & Hk' & Hn' & Hlen).
  destruct (strip_loop_reaches (length k') k' (budget (skip_spaces s))
              Symbol.init (skip_spaces s) rest)
    as (fuel & sym' & s' & Heq & Hpr & Hpos & Hfr & [Hty Hid]);
    [done..| |].
  { pose proof (budget_pending (skip_spaces s)) as Hb.
    rewrite Hp', length_app in Hb. lia. }
  destruct fuel as [|fuel]; [lia|].
  exists fuel, sym', s'. split_and!; [done | done | | done | done].
  eapply frame_trans; [apply skip_spaces_frame | exact Hfr].
Qed.

(** C5, amended. When, after blanks, newlines and comments, the next
    character is none of a letter, a digit, a punctuation mark, the
    start of a comment, white space or the end of the file, [get_symbol]
    reads that one character and returns a symbol whose type is [None]
    (none of the nine kinds), placed where the scanner was at the
    character; it does not try again.  A slash that is not followed by a
    star does the same, wherever it stands: the slash is read and a
    symbol without a kind is returned. *)
Theorem get_symbol_invalid_character :
  (∀ s skipped c rest,
      pending s = skipped ++ c :: rest → filler skipped →
      c ∉ [" "; TAB; NL; "#"; "/"]%char →
      isalpha c = false → isdigit c = false → punctuation c = None →
      ∃ at_c,
        pending at_c = c :: rest
        ∧ get_symbol s =
            (Ok {| Symbol.type := None; Symbol.id := PNone;
                   Symbol.line_number := line_number at_c;
                   Symbol.position := position at_c |}, advance at_c))
  ∧ (∀ s skipped rest,
      pending s = skipped ++ "/"%char :: rest → filler skipped →
      head rest ≠ Some "*"%char →
      ∃ at_slash,
        pending at_slash = "/"%char :: rest
        ∧ get_symbol s =
            (Ok {| Symbol.type := None; Symbol.id := PNone;
                   Symbol.line_number := line_number at_slash;
                   Symbol.position := position at_slash |},
             advance at_slash)).
Proof.
  split.
  - intros s skipped c rest Hp Hk Hc Ha Hd Hpu.
    rewrite !not_elem_of_cons in Hc.
    destruct Hc as (C1 & C2 & C3 & C4 & C5 & _).
    destruct (strip_reaches s skipped (c :: rest) Hp Hk)
      as (fuel & sym' & s1 & Hstrip & Hp1 & _ & Hty & Hid).
    { by intros ? [= <-]. }
    destruct (pending_head s1 c _ Hp1) as [Hc1 _].
    rewrite strip_loop_proceed in Hstrip
      by (rewrite (at_char_eq _ c s1 Hc1); by apply bool_decide_eq_false).
    exists s1. split; [done|].
    by apply (get_symbol_other_character s sym' s1 c).
  - intros s skipped rest Hp Hk Hstar.
    destruct (strip_reaches s skipped ("/"%char :: rest) Hp Hk)
      as (fuel & sym' & s1 & Hstrip & Hp1 & _ & Hty & Hid).
    { by intros ? [= <-]. }
    destruct (pending_head s1 "/" _ Hp1) as [Hc1 Hp2].
    exists s1. split; [done|].
    unfold get_symbol. rewrite Hstrip, strip_loop_S. cbv zeta.
    rewrite (proj2 (at_char_Some _ _) Hc1).
    assert (at_char "*" (advance s1) = false) as ->.
    { apply bool_decide_eq_false. intros Hc2. apply Hstar.
      unfold pending in Hp2. rewrite Hc2 in Hp2. by rewrite <- Hp2. }
    unfold Symbol.set_place. cbn. by rewrite Hty, Hid.
Qed.

Lemma get_symbol_invalid_character_witness :
  let bracket := init (String.list_ascii_of_string " [A") Names.init in
  let slash := init [NL; "#"; "c"; NL; " "; "/"; "x"]%char Names.init in
  (∃ at_c,
     pending at_c = ["["; "A"]%char
     ∧ get_symbol bracket =
         (Ok {| Symbol.type := None; Symbol.id := PNone;
                Symbol.line_number := line_number at_c;
                Symbol.position := position at_c |}, advance at_c))
  ∧ (∃ at_slash,
       pending at_slash = ["/"; "x"]%char
       ∧ get_symbol slash =
           (Ok {| Symbol.type := None; Symbol.id := PNone;
                  Symbol.line_number := line_number at_slash;
                  Symbol.position := position at_slash |},
            advance at_slash)).
Proof.
  intros bracket slash. split.
  - apply (proj1 get_symbol_invalid_character bracket [" "%char] "["%char
             ["A"%char]).
    + vm_compute. reflexivity.
    + constructor; [auto | constructor].
    + rewrite !elem_of_cons, elem_of_nil.
      intros [?|[?|[?|[?|[?|[]]]]]]; done.
    + vm_compute. reflexivity.
    + vm_compute. reflexivity.
    + vm_compute. reflexivity.
  - apply (proj2 get_symbol_invalid_character slash
             [NL; "#"; "c"; NL; " "]%char ["x"%char]).
    + vm_compute. reflexivity.
    + apply filler_blank; [auto|].
      apply (filler_line ["c"%char] [" "%char]).
      * rewrite elem_of_cons, elem_of_nil. intros [?|[]]; done.
      * constructor; [auto | constructor].
    + done.
Defined.

(** C8. When, after blanks, newlines and comments, a slash and a star
    open a comment that is never closed, [get_symbol] returns a symbol
    of kind EOF (placed where the scanner was at the slash, without an
    id).  Nothing records an error: the call returns normally and leaves
    the names, the last name string, the stored lines and the state of
    the file handle as they were. *)
Theorem get_symbol_unterminated_comment s skipped body :
  pending s = skipped ++ "/"%char :: "*"%char :: body →
  filler skipped →
  unterminated body →
  ∃ at_slash s',
    pending at_slash = "/"%char :: "*"%char :: body
    ∧ get_symbol s =
        (Ok {| Symbol.type := Some Symbol.EOF; Symbol.id := PNone;
               Symbol.line_number := line_number at_slash;
               Symbol.position := position at_slash |}, s')
    ∧ frame s s'.
Proof.
  intros Hp Hk Hu.
  destruct (strip_reaches s skipped ("/"%char :: "*"%char :: body) Hp Hk)
    as (fuel & sym' & s1 & Hstrip & Hp1 & Hf1 & Hty & Hid).
  { by intros ? [= <-]. }
  destruct (pending_head s1 "/" _ Hp1) as [Hc1 Hp2].
  destruct (pending_head _ "*" _ Hp2) as [Hc2 Hp3].
  destruct (block_comment_loop_unterminated
              (budget (advance (advance s1))) true (advance (advance s1)))
    as [s' Hloop].
  { rewrite Hp3. by apply unterminated_closes. }
  { apply budget_pending. }
  pose proof (block_comment_loop_frame (budget (advance (advance s1))) true
                (advance (advance s1))) as Hf.
  rewrite Hloop in Hf.
  exists s1, s'. split_and!; [done | |].
  - unfold get_symbol. rewrite Hstrip, strip_loop_S. cbv zeta.
    rewrite (proj2 (at_char_Some _ _) Hc1), (proj2 (at_char_Some _ _) Hc2).
    rewrite Hloop. unfold Symbol.set_type, Symbol.set_place. cbn.
    by rewrite Hid.
  - eapply frame_trans; [exact Hf1|].
    eapply frame_trans; [apply frame_advance|].
    eapply frame_trans; [apply frame_advance | exact Hf].
Qed.

Lemma get_symbol_unterminated_comment_witness :
  let s :=
    (get_symbol
       (get_symbol
          (init (String.list_ascii_of_string "A;" ++ [NL]
                 ++ String.list_ascii_of_string "/* c * / d")
             Names.init)).2).2 in
  ∃ at_slash s',
    pending at_slash = String.list_ascii_of_string "/* c * / d"
    ∧ get_symbol s =
        (Ok {| Symbol.type := Some Symbol.EOF; Symbol.id := PNone;
               Symbol.line_number := line_number at_slash;
               Symbol.position := position at_slash |}, s')
    ∧ frame s s'.
Proof.
  intros s.
  apply (get_symbol_unterminated_comment s [NL]
           (String.list_ascii_of_string " c * / d")).
  - vm_compute. reflexivity.
  - constructor; [auto | constructor].
  - apply closes_unterminated. vm_compute. reflexivity.
Defined.

End ScannerSkips.

(** ** More on the parser *)

Section ScannerNames.
Import Scanner ScannerSpec ScannerRuns NamesSpec.

Lemma no_empty_name_lookup_one x nm :
  x ≠ EmptyString → no_empty_name nm →
  no_empty_name (Names.lookup_one x nm).2.
Proof.
  intros Hx Hn. unfold Names.lookup_one.
  destruct (Names.query x nm); cbn; [done|].
  intros i. cbn. rewrite lookup_insert. case_decide; [congruence | apply Hn].
Qed.

Lemma get_name_loop_not_empty fuel : ∀ acc s,
  acc ≠ EmptyString → (get_name_loop fuel acc s).1 ≠ EmptyString.
Proof.
  induction fuel as [|fuel IH]; intros acc s Hacc; [done|].
  rewrite get_name_loop_S.
  destruct (current_character s) as [c|]; [|done].
  destruct (isalnum c); [|done]. apply IH, append_not_empty.
Qed.

Lemma get_name_not_empty s c :
  current_character s = Some c → isalnum c = true →
  (get_name s).1 ≠ EmptyString.
Proof.
  intros Hc Ha. unfold get_name, budget.
  rewrite get_name_loop_S, Hc, Ha.
  apply get_name_loop_not_empty, append_not_empty.
Qed.

Lemma get_symbol_no_empty_name s :
  no_empty_name (names s) → no_empty_name (names (get_symbol s).2).
Proof.
  intros Hn. unfold get_symbol. pose proof (strip_frame s) as Hf.
  destruct (strip s) as [sym' s'|sym' s'].
  { destruct Hf as (Hf & _). apply frame_names in Hf. cbn. by rewrite Hf. }
  destruct Hf as (Hf & _). apply frame_names in Hf. rewrite <- Hf in Hn.
  clear Hf. unfold tokenise.
  destruct (current_character s') as [c|] eqn:Hc; [|done].
  destruct (isalpha c) eqn:Halpha.
  { pose proof (get_name_loop_frame (budget s') "" s') as Hf.
    pose proof (get_name_not_empty s' c Hc (isalpha_isalnum c Halpha)) as Hne.
    fold (get_name s') in Hf. destruct (get_name s') as [name_str s1].
    apply frame_names in Hf. cbn in Hf, Hne.
    change (names (set_name_string name_str s1)) with (names s1).
    rewrite Hf.
    pose proof (no_empty_name_lookup_one name_str (names s') Hne Hn) as H1.
    cbn [Names.lookup]. destruct (Names.lookup_one _ _) as [i nm1]. done. }
  destruct (isdigit c).
  { pose proof (get_digits_loop_frame (budget s') "" s') as Hf.
    fold (get_digits s') in Hf. unfold get_waveform, get_bit, get_number.
    destruct (get_digits s') as [num_str s1].
    apply frame_names in Hf. cbn in Hf.
    repeat case_bool_decide; try destruct (1 <? _); cbn; by rewrite Hf. }
  by destruct (punctuation c).
Qed.

End ScannerNames.

Section ParserAudit.
Import Symbol Parser ParserSpec ParserRuns.
Context {B : Type} `{Backend B}.
Variables (contents : list ascii) (nm : Names.t).

Implicit Types st : t B.

#[local] Abbreviation kept := (ParserRuns.kept contents nm).
#[local] Abbreviation on_file := (ParserRuns.on_file contents nm).
#[local] Abbreviation outcome := (ParserRuns.outcome contents nm).

Lemma reported_refl st : reported st st.
Proof. exists []. cbn. rewrite app_nil_r. split; [done|lia]. Qed.

Lemma reported_trans st1 st2 st3 :
  reported st1 st2 → reported st2 st3 → reported st1 st3.
Proof.
  intros (d1 & O1 & E1) (d2 & O2 & E2). exists (d1 ++ d2).
  rewrite O2, O1, E2, E1, fmap_app, concat_app, length_app, app_assoc.
  split; [done|lia].
Qed.

Lemma kept_refl st : kept st st.
Proof. split; [apply reported_refl | done]. Qed.

Lemma kept_trans st1 st2 st3 : kept st1 st2 → kept st2 st3 → kept st1 st3.
Proof.
  intros [Q1 I1] [Q2 I2]. split; [by eapply reported_trans | auto].
Qed.

Lemma kept_fields st st' :
  scanner st' = scanner st → symbol st' = symbol st →
  error_count st' = error_count st → output st' = output st →
  kept st st'.
Proof.
  intros Hs Hy Hc Ho. split.
  - exists []. cbn. rewrite app_nil_r. split; [done|lia].
  - unfold ParserRuns.on_file. by rewrite Hs, Hy.
Qed.

Lemma kept_set_parent p st0 st : kept st0 st → kept st0 (set_parent p st).
Proof. intros Hk. eapply kept_trans; [exact Hk|]. by apply kept_fields. Qed.

Lemma kept_set_backend b st0 st : kept st0 st → kept st0 (set_backend b st).
Proof. intros Hk. eapply kept_trans; [exact Hk|]. by apply kept_fields. Qed.

(** The one exception that escapes [get_symbol] is the [ValueError] of
    [int]. *)
Lemma get_symbol_raises s e :
  (Scanner.get_symbol s).1 = Raise e → e = ValueError.
Proof.
  unfold Scanner.get_symbol.
  destruct (Scanner.strip s) as [sym s1|sym s1]; [done|].
  unfold Scanner.tokenise, Scanner.get_waveform, Scanner.get_bit,
    Scanner.get_number.
  destruct (Scanner.current_character s1) as [c|]; [|done].
  destruct (isalpha c).
  { destruct (Scanner.get_name s1). by destruct (Names.lookup _ _). }
  destruct (isdigit c); [|by destruct (Scanner.punctuation c)].
  destruct (Scanner.get_digits s1) as [num_str s2].
  assert (∀ (k : Z → Symbol.t),
            (n ← int num_str; Ok (k n)) = Raise e → e = ValueError)
    as Hint.
  { intros k. unfold int. case_match; cbn; congruence. }
  repeat case_bool_decide; [done| |by apply Hint].
  destruct (1 <? _); [done | by apply Hint].
Qed.

Lemma on_file_print_error st :
  on_file st →
  ∃ text, Scanner.print_error (symbol st) (scanner st) = Ok text.
Proof.
  intros (_ & (s0 & Hs0 & Hsym) & _). apply print_error_returns.
  destruct (scanning_invariant _ _ _ Hs0) as (He & R & _).
  destruct (init_tracked contents nm) as (_ & _ & Hl & _).
  apply reads_line in R. rewrite Hl in R.
  destruct (get_symbol_tracked s0 He) as (_ & _ & Hlo & _).
  by apply (Hlo _ _ Hsym).
Qed.

Lemma outcome_bind {A C : Type} (proj : A → t B) (proj' : C → t B) st
  (r : Result A) (k : A → Result C) :
  outcome proj st r →
  (∀ a, kept st (proj a) → outcome proj' st (k a)) →
  outcome proj' st (r ≫= k).
Proof. destruct r; cbn; auto. Qed.

Lemma outcome_mono {A : Type} (proj proj' : A → t B) st (r : Result A) :
  outcome proj st r →
  (∀ a, kept st (proj a) → kept st (proj' a)) →
  outcome proj' st r.
Proof. destruct r; cbn; auto. Qed.

(** A call made later, in a state that [kept] relates to [st0]. *)
Lemma outcome_later {A : Type} (proj : A → t B) st0 st (r : Result A) :
  kept st0 st → outcome proj st r → outcome proj st0 r.
Proof.
  intros Hk. destruct r; cbn; [|by destruct Hk; auto|done].
  intros Hk'. by eapply kept_trans.
Qed.

(** A symbol is read: the parser stays on the file, and the only
    exception is that of [get_symbol]. *)
Lemma read_symbol_kept st0 st :
  kept st0 st → outcome (λ x, x) st0 (read_symbol st).
Proof.
  intros Hk. apply (outcome_later _ st0 st); [done|]. clear Hk.
  unfold read_symbol.
  pose proof (get_symbol_no_empty_name (scanner st)) as Hn.
  pose proof (ScannerRuns.call_get_symbol (scanner st)) as Hcall.
  pose proof (get_symbol_raises (scanner st)) as Hraise.
  destruct (Scanner.get_symbol (scanner st)) as [[sym|e|] sc] eqn:Hg;
    cbn in *; [|right; by apply Hraise|done].
  split; [exists []; cbn; rewrite app_nil_r; split; [done|lia]|].
  intros (Hs & _ & Hne). unfold ParserRuns.on_file. cbn in *.
  split_and!; [by eapply rtc_r | | by apply Hn].
  exists (scanner st). by rewrite Hg.
Qed.

(** An error is counted and its diagnostic printed. *)
Lemma diagnostic_kept msg st0 st :
  kept st0 st → outcome (λ x, x) st0 (diagnostic msg (count_error st)).
Proof.
  intros Hk. apply (outcome_later _ st0 st); [done|]. clear Hk.
  unfold diagnostic.
  pose proof (on_file_print_error st) as Hp.
  change (symbol (count_error st)) with (symbol st).
  change (scanner (count_error st)) with (scanner st).
  destruct (Scanner.print_error _ _) as [text|e|]; cbn; [| |done].
  - split; [|done].
    exists [(msg, Symbol.line_number (symbol st), text)]. cbn.
    split; [done|lia].
  - intros Ho. destruct (Hp Ho) as [? [=]].
Qed.

#[local] Opaque read_symbol.

Lemma error_loop_kept n : ∀ flag st0 st,
  kept st0 st → outcome (λ x, x) st0 (error_loop n flag st).
Proof.
  induction n as [|n IH]; intros flag st0 st Hk; [done|].
  rewrite error_loop_S.
  destruct (at_type EOF st).
  { eapply outcome_bind; [by apply diagnostic_kept|].
    intros st' Hk'. cbn. by apply kept_set_parent. }
  eapply outcome_bind; [by apply read_symbol_kept|].
  intros st1 Hk1. cbn beta.
  destruct (bool_decide (parent st1 ≠ None) && at_type COMMA st1); [done|].
  destruct (at_type SEMICOLON st1).
  { eapply outcome_bind; [by apply read_symbol_kept|].
    intros st2 Hk2. cbn. by apply kept_set_parent. }
  destruct (at_section_id st1); [|by apply IH].
  destruct (negb flag); [|by apply kept_set_parent].
  by apply diagnostic_kept, kept_set_parent.
Qed.

Lemma error_kept error_type st0 st :
  kept st0 st → outcome (λ x, x) st0 (error error_type st).
Proof.
  intros Hk. unfold error.
  destruct (error_type =? MISSED_SEMICOLON);
    [by apply diagnostic_kept, kept_set_parent|].
  destruct (at_section_id st);
    [by apply diagnostic_kept, kept_set_parent|].
  cbv zeta.
  eapply outcome_bind; [by apply diagnostic_kept|].
  intros st1 Hk1. cbn beta.
  destruct (at_type COMMA st1 && bool_decide (parent st1 ≠ None)); [done|].
  destruct (at_type SEMICOLON st1).
  { eapply outcome_bind; [by apply read_symbol_kept|].
    intros st2 Hk2. cbn. by apply kept_set_parent. }
  destruct (at_section_id st1); [by apply kept_set_parent|].
  by apply error_loop_kept.
Qed.


Lemma report_kept error_type st0 st :
  kept st0 st → outcome (λ x, x) st0 (report error_type st).
Proof.
  intros Hk. unfold report.
  destruct (negb _); [by apply error_kept | done].
Qed.

Lemma end_of_file_kept st0 st :
  kept st0 st → outcome (λ x, x) st0 (end_of_file st).
Proof.
  intros Hk. unfold end_of_file.
  destruct (negb _); [by apply error_kept | done].
Qed.

Create HintDb audit.
#[local] Hint Resolve kept_refl kept_set_parent kept_set_backend : audit.

Ltac parts :=
  repeat case_match; simplify_eq; cbn [fst snd ParserRuns.outcome];
  auto 10 with audit.

(** Name the pair bound by the outermost [let] of the goal, after
    showing that [kept] relates [st0] to its state. *)
Ltac bind_kept st0 :=
  match goal with
  | |- context [let '(_, _) := ?E in _] =>
      let Hk := fresh "Hk" in
      assert (kept st0 E.2) as Hk by parts;
      destruct E as [? ?]; cbn [fst snd] in Hk
  end.

(** Walk through a call that reads symbols and branches, up to its
    [return] statements. *)
Ltac audit :=
  repeat match goal with
  | |- ParserRuns.outcome _ _ _ _ (read_symbol _ ≫= _) =>
      eapply outcome_bind;
        [apply read_symbol_kept; auto 10 with audit|];
      intros ? ?; cbn beta
  | |- ParserRuns.outcome _ _ _ _ (Ok _) =>
      cbn [ParserRuns.outcome fst snd]
  | |- ParserRuns.outcome _ _ _ _ (if ?b then _ else _) =>
      destruct b eqn:?
  | |- ParserRuns.outcome _ _ _ _ (match ?x with _ => _ end) =>
      destruct x eqn:?
  end.

Lemma make_device_parser_kept device_id device_type_id st0 st :
  kept st0 st →
  outcome snd st0 (make_device_parser device_id device_type_id st).
Proof.
  intros Hk0. unfold make_device_parser.
  eapply outcome_bind; [by apply read_symbol_kept|].
  intros st1 Hk1. cbn beta. cbv zeta.
  bind_kept st0.
  repeat (case_bool_decide; [done|]).
  bind_kept st0.
  bind_kept st0.
  case_match.
  { bind_kept st0. audit. auto with audit. }
  case_match; [|audit; auto with audit].
  bind_kept st0. case_bool_decide; audit; auto with audit.
Qed.

Lemma device_kept st : outcome snd st (device st).
Proof.
  unfold device.
  audit; auto 10 with audit.
  apply make_device_parser_kept. auto 10 with audit.
Qed.

Lemma monitor_kept st : outcome snd st (monitor st).
Proof. unfold monitor. audit; auto 10 with audit. Qed.

Lemma in_signame_kept st : outcome snd st (in_signame st).
Proof. unfold in_signame. audit; auto 10 with audit. Qed.

Lemma on_file_name st :
  on_file st →
  Names.get_name_string (Symbol.id (symbol st)) (Scanner.names (scanner st))
  ≠ Some EmptyString.
Proof.
  intros (_ & _ & Hne). unfold Names.get_name_string.
  destruct (Symbol.id (symbol st)); [done | apply Hne | done].
Qed.

Lemma out_signame_kept st0 st :
  kept st0 st → outcome snd st0 (out_signame st).
Proof.
  intros Hk. unfold out_signame.
  destruct (at_type NAME st); [|done].
  destruct (get_device _ _) as [dev|]; [|done].
  destruct (is_source_kind _); [done|]. cbv zeta.
  eapply outcome_bind; [by apply read_symbol_kept|].
  intros st1 Hk1. cbn beta.
  destruct (at_type DOT st1); [|done].
  eapply outcome_bind; [by apply read_symbol_kept|].
  intros st2 Hk2. cbn beta.
  destruct (negb _); [|audit; auto with audit].
  destruct (_ =? devices_D_TYPE); [by destruct (is_dtype_output _ _)|].
  destruct (_ =? devices_XOR); [done|].
  pose proof (on_file_name st2) as Hname.
  destruct (Names.get_name_string _ _) as [[|c name]|]; cbn.
  - intros Ho. destruct Hk2 as [_ Ho2]. by destruct (Hname (Ho2 Ho)).
  - by destruct (negb _).
  - by left.
Qed.

Lemma connection_kept st : outcome snd st (connection st).
Proof.
  unfold connection.
  eapply outcome_bind; [apply in_signame_kept|].
  intros [[e|[d p]] st1] Hi; cbn [snd] in Hi; [done|].
  destruct (negb (at_type ARROW st1)); [done|].
  eapply outcome_bind; [by apply read_symbol_kept|].
  intros st2 Hk2. cbn beta.
  eapply outcome_bind; [by apply out_signame_kept|].
  intros [[e|[d' p']] st3] Ho; cbn [snd] in Ho; [done|].
  parts.
Qed.

Lemma item_then_report (item : t B → Result (Z * t B)) st0 st
  (k : t B → Result (t B)) :
  (∀ st', outcome snd st' (item st')) →
  kept st0 st →
  (∀ st', kept st0 st' → outcome (λ x, x) st0 (k st')) →
  outcome (λ x, x) st0 (r ← item st; self ← report r.1 r.2; k self).
Proof.
  intros Hitem Hk Hrest.
  eapply outcome_bind.
  { eapply outcome_later; [exact Hk | apply Hitem]. }
  intros [e st2] Hk2. cbn [fst snd] in *.
  eapply outcome_bind; [by apply report_kept|].
  intros st3 Hk3. by apply Hrest.
Qed.

Lemma list_loop_kept item :
  (∀ st, outcome snd st (item st)) →
  ∀ n st0 st, kept st0 st → outcome (λ x, x) st0 (list_loop item n st).
Proof.
  intros Hitem n. induction n as [|n IH]; intros st0 st Hk; [done|].
  rewrite list_loop_S.
  destruct (at_type COMMA st).
  { eapply outcome_bind; [by apply read_symbol_kept|].
    intros st1 Hk1. cbn beta.
    apply item_then_report; [done | done |].
    intros st' Hk'. case_bool_decide; [done | by apply IH]. }
  destruct (at_type SEMICOLON st); [by apply read_symbol_kept|].
  eapply outcome_bind; [by apply error_kept|].
  intros st1 Hk1. cbn beta. case_bool_decide; [done | by apply IH].
Qed.

Lemma item_list_kept item st0 st :
  (∀ st, outcome snd st (item st)) →
  kept st0 st → outcome (λ x, x) st0 (item_list item st).
Proof.
  intros Hitem Hk. unfold item_list.
  apply item_then_report; [done..|].
  intros st' Hk'. case_bool_decide; [done | by apply list_loop_kept].
Qed.

Lemma parse_loop_kept n : ∀ st0 st,
  kept st0 st → outcome (λ x, x) st0 (parse_loop n st).
Proof.
  induction n as [|n IH]; intros st0 st Hk; [done|].
  rewrite parse_loop_S.
  destruct (at_type EOF st); [done|].
  assert (∀ tag item,
            (∀ st, outcome snd st (item st)) →
            outcome (λ x, x) st0
              (self ← read_symbol (set_parent (Some tag) st);
               self ← item_list item self;
               parse_loop n (set_parent None self))) as Hsection.
  { intros tag item Hitem.
    eapply outcome_bind; [apply read_symbol_kept; auto with audit|].
    intros st1 Hk1. cbn beta.
    eapply outcome_bind; [by apply item_list_kept|].
    intros st2 Hk2. cbn beta. apply IH. auto with audit. }
  destruct (at_id Scanner.DEVICES_ID st).
  { apply Hsection. intros st'. apply device_kept. }
  destruct (at_id Scanner.CONNECT_ID st).
  { apply Hsection. intros st'. apply connection_kept. }
  destruct (at_id Scanner.MONITOR_ID st).
  { apply Hsection. intros st'. apply monitor_kept. }
  destruct (at_id Scanner.END_ID st).
  { eapply outcome_bind; [by apply read_symbol_kept|].
    intros st1 Hk1. cbn beta. by apply end_of_file_kept. }
  eapply outcome_bind; [by apply error_kept|].
  intros st1 Hk1. cbn beta. apply IH. auto with audit.
Qed.


Lemma no_empty_name_lookup l : ∀ names,
  Forall (λ x, x ≠ EmptyString) l → NamesSpec.no_empty_name names →
  NamesSpec.no_empty_name (Names.lookup l names).2.
Proof.
  induction l as [|x l IH]; intros names Hl Hn; [done|].
  apply Forall_cons in Hl as [Hx Hl]. cbn.
  pose proof (no_empty_name_lookup_one x names Hx Hn) as H1.
  destruct (Names.lookup_one x names) as [i names1]. cbn in H1.
  specialize (IH names1 Hl H1). by destruct (Names.lookup l names1).
Qed.

Lemma on_file_start (b : B) st :
  NamesSpec.no_empty_name nm →
  start (Scanner.init contents nm) b = Ok st → on_file st.
Proof.
  intros Hn. unfold start.
  pose proof (get_symbol_no_empty_name (Scanner.init contents nm)) as Hne.
  pose proof (ScannerRuns.call_get_symbol (Scanner.init contents nm)) as Hc.
  destruct (Scanner.get_symbol _) as [[sym| |] sc] eqn:Hg; [|done..].
  intros [= <-].
  unfold ParserRuns.on_file. cbn in *. split_and!.
  - unfold ScannerRuns.scanning. by apply rtc_once.
  - exists (Scanner.init contents nm). split; [apply rtc_refl|].
    by rewrite Hg.
  - apply Hne. rewrite names_init. apply no_empty_name_lookup; [|done].
    by repeat constructor.
Qed.

(** The first symbol is read: the only exception is that of
    [get_symbol]. *)
Lemma start_raises (sc : Scanner.t) (b : B) e :
  start sc b = Raise e → e = ValueError.
Proof.
  unfold start. pose proof (get_symbol_raises sc) as Hr.
  destruct (Scanner.get_symbol sc) as [[sym| |] sc']; cbn; [done| |done].
  intros [= <-]. by apply Hr.
Qed.

Lemma parse_sections_kept (sc : Scanner.t) (b : B) st :
  start sc b = Ok st → outcome (λ x, x) st (parse_sections sc b).
Proof.
  intros Hst. unfold parse_sections. rewrite Hst.
  apply parse_loop_kept, kept_refl.
Qed.

End ParserAudit.

Section ParserAuditClaims.
Import Symbol Parser ParserSpec ParserRuns.
Context {B : Type} `{Backend B}.

Implicit Types st : t B.

Lemma conclude_zero st :
  error_count st = 0 →
  conclude (check_empty (check_connectivity st)) =
    if negb (check_network (backend st)) then
      (false,
       print [PrintSummary 1]
         (count_error
            (print [Print ""; Print "Error: Network connectivity issues found";
                    Print ""] st)))
    else if is_empty st then
      (false,
       print [PrintSummary 1]
         (print [Print ""; Print "Error: Empty File"; Print ""]
            (count_error st)))
    else (true, st).
Proof.
  intros H0. unfold check_connectivity. rewrite H0.
  change (0 =? 0) with true. cbn [andb].
  destruct (negb (check_network (backend st))).
  - unfold check_empty. cbn [error_count count_error print]. rewrite H0.
    change (0 + 1 =? 0) with false. cbn [andb]. unfold conclude.
    cbn [error_count count_error print]. rewrite H0.
    by change (0 <? 0 + 1) with true.
  - unfold check_empty. rewrite H0. change (0 =? 0) with true. cbn [andb].
    destruct (is_empty st); unfold conclude.
    + cbn [error_count count_error print]. rewrite H0.
      by change (0 <? 0 + 1) with true.
    + rewrite H0. by change (0 <? 0) with false.
Qed.

Lemma conclude_positive st :
  0 < error_count st →
  conclude (check_empty (check_connectivity st)) =
    (false, print [PrintSummary (error_count st)] st).
Proof.
  intros Hpos. unfold check_connectivity.
  replace (error_count st =? 0) with false
    by (symmetry; apply Z.eqb_neq; lia).
  cbn [andb]. unfold check_empty.
  replace (error_count st =? 0) with false
    by (symmetry; apply Z.eqb_neq; lia).
  cbn [andb]. unfold conclude.
  by replace (0 <? error_count st) with true
    by (symmetry; apply Z.ltb_lt; lia).
Qed.

(** X14. Whenever [parse_network] returns, what it has printed is
    nothing, or a sequence of four-line diagnostics followed by the
    summary, or the one message of the connectivity check or of the check
    for an empty file followed by the summary.  The error count, which
    the summary shows, is the number of diagnostics printed (1 in the
    last case), and [parse_network] returns [True] exactly when nothing
    was printed. *)
Theorem parse_network_output (sc : Scanner.t) (b : B)
  (result : bool) (final : t B) :
  parse_network sc b = Ok (result, final) →
  (result = true ↔ output final = [])
  ∧ (result = true ∧ error_count final = 0
     ∨ (result = false
        ∧ ∃ ds, ds ≠ []
            ∧ error_count final = Z.of_nat (length ds)
            ∧ output final =
                concat (block <$> ds)
                ++ [PrintSummary (Z.of_nat (length ds))])
     ∨ (result = false ∧ error_count final = 1
        ∧ ∃ msg,
            (msg = "Error: Network connectivity issues found"
             ∨ msg = "Error: Empty File")
            ∧ output final =
                [Print ""; Print msg; Print ""; PrintSummary 1])).
Proof.
  unfold parse_network. intros Hp.
  pose proof (start_spec sc b) as Hstart.
  destruct (start sc b) as [st0| |] eqn:Hst0; cycle 1.
  { unfold parse_sections in Hp. by rewrite Hst0 in Hp. }
  { unfold parse_sections in Hp. by rewrite Hst0 in Hp. }
  pose proof (parse_sections_kept [] Names.init sc b st0 Hst0) as Hk.
  destruct (parse_sections sc b) as [st| |]; [|done..].
  cbn in Hp, Hk, Hstart. injection Hp as Hp.
  destruct Hk as [(ds & Ho & Hc) _].
  destruct Hstart as (_ & Hc0 & Ho0 & _).
  rewrite Hc0 in Hc. rewrite Ho0 in Ho. cbn in Ho, Hc.
  assert (result = true ∧ error_count final = 0 ∧ output final = []
          ∨ (result = false
             ∧ ∃ ds, ds ≠ []
                 ∧ error_count final = Z.of_nat (length ds)
                 ∧ output final =
                     concat (block <$> ds)
                     ++ [PrintSummary (Z.of_nat (length ds))])
          ∨ (result = false ∧ error_count final = 1
             ∧ ∃ msg,
                 (msg = "Error: Network connectivity issues found"
                  ∨ msg = "Error: Empty File")
                 ∧ output final =
                     [Print ""; Print msg; Print ""; PrintSummary 1]))
    as Hcases.
  { destruct ds as [|d ds].
    - cbn in Ho, Hc. rewrite (conclude_zero st Hc) in Hp.
      destruct (negb (check_network (backend st))).
      + injection Hp as <- <-. right. right. cbn. rewrite Hc, Ho.
        split_and!; [done..|].
        exists "Error: Network connectivity issues found".
        split; [by left | done].
      + destruct (is_empty st).
        * injection Hp as <- <-. right. right. cbn. rewrite Hc, Ho.
          split_and!; [done..|].
          exists "Error: Empty File". split; [by right | done].
        * injection Hp as <- <-. by left.
    - assert (0 < error_count st) as Hpos by (rewrite Hc; cbn; lia).
      rewrite (conclude_positive st Hpos) in Hp.
      injection Hp as <- <-. right. left. split; [done|].
      exists (d :: ds). cbn [output print error_count].
      split_and!; [done | done | by rewrite Ho, Hc]. }
  split.
  - destruct Hcases as [(-> & _ & Hnil)|[(-> & ds' & _ & _ & Hout)
                                        |(-> & _ & msg & _ & Hout)]].
    + done.
    + split; [done|]. rewrite Hout. intros Hnil.
      by apply app_eq_nil in Hnil as [_ ?].
    + split; [done|]. by rewrite Hout.
  - destruct Hcases as [(? & ? & _)|[?|?]]; auto.
Qed.

Lemma conclude_scanner st :
  scanner (conclude (check_empty (check_connectivity st))).2 = scanner st.
Proof.
  unfold conclude, check_empty, check_connectivity.
  repeat case_match; done.
Qed.

(** X15. On the scanner of a file whose names table holds no empty
    name, [parse_network] ends, and the only exceptions that can escape
    it are the [TypeError] of [name[0]] in [out_signame] and the
    [ValueError] of [int] in [get_number] and [get_bit]: [print_error]
    is only called on symbols of the scanner, for which it does not raise
    [IndexError], a name in the table is never empty, and no read of the
    closed file is attempted (when [parse_network] returns, no such read
    has happened). *)
Theorem parse_network_exceptions (contents : list ascii)
  (nm : Names.t) (b : B) :
  NamesSpec.no_empty_name nm →
  match parse_network (Scanner.init contents nm) b with
  | Ok (_, final) => Scanner.stale_read (scanner final) = false
  | Raise e => e = TypeError ∨ e = ValueError
  | OutOfFuel => False
  end.
Proof.
  intros Hn. unfold parse_network.
  pose proof (parse_sections_spec (Scanner.init contents nm) b) as Hs.
  pose proof (start_spec (Scanner.init contents nm) b) as Hstart.
  destruct (start (Scanner.init contents nm) b) as [st0|e|] eqn:Hst0;
    cycle 1.
  { pose proof (start_raises _ _ _ Hst0) as ->.
    unfold parse_sections. rewrite Hst0. cbn. by right. }
  { done. }
  pose proof (parse_sections_kept contents nm _ b st0 Hst0) as Hk.
  pose proof (on_file_start contents nm b st0 Hn Hst0) as Ho.
  destruct (parse_sections _ b) as [st|e|]; cbn in Hk, Hs; [| |done].
  - change (Ok st ≫= ?k) with (k st). cbv beta.
    pose proof (conclude_scanner st) as Hsc.
    destruct (conclude _) as [result final]. cbn [snd] in Hsc.
    rewrite Hsc. destruct Hk as [_ Hon]. destruct (Hon Ho) as (Hscan & _).
    by destruct (scanning_invariant _ _ _ Hscan) as (_ & _ & _ & ? & _).
  - by apply Hk.
Qed.

End ParserAuditClaims.

Section ParserRunsMore.
Import Symbol Parser ParserSpec ParserRuns.

Lemma parse_network_output_witness :
  let sc :=
    Scanner.init (String.list_ascii_of_string "DEVICES S1:SWITCH 0 END")
      Names.init in
  let b := Model.init (Scanner.names sc) in
  match parse_network sc b with
  | Ok (result, final) =>
      result = false
      ∧ (result = true ↔ output final = [])
      ∧ (result = true ∧ error_count final = 0
         ∨ (result = false
            ∧ ∃ ds, ds ≠ []
                ∧ error_count final = Z.of_nat (length ds)
                ∧ output final =
                    concat (block <$> ds)
                    ++ [PrintSummary (Z.of_nat (length ds))])
         ∨ (result = false ∧ error_count final = 1
            ∧ ∃ msg,
                (msg = "Error: Network connectivity issues found"
                 ∨ msg = "Error: Empty File")
                ∧ output final =
                    [Print ""; Print msg; Print ""; PrintSummary 1]))
  | _ => False
  end.
Proof.
  intros sc b.
  assert (match parse_network sc b with
          | Ok (r, _) => r = false
          | _ => False
          end) as Hr by (vm_compute; reflexivity).
  clearbody b sc.
  destruct (parse_network sc b) as [[result final]| |] eqn:Hrun; [|done..].
  split; [done|].
  exact (parse_network_output sc b result final Hrun).
Defined.

Lemma no_empty_name_init : NamesSpec.no_empty_name Names.init.
Proof. intros i. cbn. by rewrite lookup_empty. Qed.

Lemma parse_network_exceptions_witness :
  let dot :=
    String.list_ascii_of_string "DEVICES G:AND 2; CONNECT G > G.;" in
  let superscript :=
    String.list_ascii_of_string "DEVICES S:SWITCH "
    ++ ["178"%char; ";"%char] in
  let parse (contents : list ascii) :=
    parse_network (Scanner.init contents Names.init)
      (Model.init (Scanner.names (Scanner.init contents Names.init))) in
  fst <$> parse dot = Raise TypeError
  ∧ fst <$> parse superscript = Raise ValueError
  ∧ match parse dot with
    | Ok (_, final) => Scanner.stale_read (scanner final) = false
    | Raise e => e = TypeError ∨ e = ValueError
    | OutOfFuel => False
    end.
Proof.
  intros dot superscript parse.
  split_and!; [vm_compute; reflexivity | vm_compute; reflexivity |].
  pose proof (parse_network_exceptions dot Names.init
                (Model.init (Scanner.names (Scanner.init dot Names.init)))
                no_empty_name_init) as Hraise.
  subst parse. cbv beta. clearbody dot. exact Hraise.
Defined.

End ParserRunsMore.
